(** * A benchmark harness for threads, processes and asyncio

    A shallow embedding of [cpu_bound.py] and [python_bench/io_bound.py]:
    the synthetic workloads, the trial runner with its statistics, and the
    three execution strategies.

    Conventions.
    - A Python [int] is a [Z]; [range(n)] has [Z.to_nat n] elements, so a
      negative bound gives an empty loop, as in Python.
    - [bytes] is [list byte].
    - A [float] that holds a clock reading or a duration is idealised as a
      rational [Q]; the one non-number the code produces, [float("nan")],
      is a constructor of its own ([pyfloat]).  The rounding of binary64
      and its overflow are not modelled: what is stated of durations is
      their count, their order, the readings each is the difference of,
      which of them a statistic is made of, and comparisons that
      rounding keeps.
    - Code with effects is a function from a state to an [outcome] and the
      next state: a value, or the exception that was raised.
    - What the code calls but does not define (sockets, executors, the
      event loop, [statistics.median]) is modelled from the behaviour the
      Python library documents. *)

From Stdlib Require Import ZArith QArith Lia Lqa Bool Permutation Sorted.
From Stdlib Require Import Strings.Byte.
From Stdlib Require Orders Mergesort.
From stdpp Require Import base list strings.
From Equations Require Import Equations.
From Equations.Prop Require Import Logic.

#[local] Open Scope Z_scope.

(** ** Python values, exceptions and the effect monad *)

Module Py.

Definition bytes := list byte.

#[export] Instance byte_eq_decision : EqDecision byte := byte_eq_dec.

(** The exceptions the two programs can see. *)
Inductive exn : Type :=
| RuntimeError (msg : string)
| ValueError (msg : string)
| OSError (msg : string)
| TimeoutError
| IncompleteReadError (partial : bytes) (expected : Z)
| StatisticsError (msg : string)
| IndexError.

Inductive outcome (A : Type) : Type :=
| Ok (a : A)
| Raise (e : exn).
Arguments Ok {A} a.
Arguments Raise {A} e.

(** [M S A]: a computation over a state [S] that returns an [A] or raises;
    what it did to the state before it raised stays done. *)
Definition M (S A : Type) : Type := S -> outcome A * S.

Definition ret {S A} (a : A) : M S A := fun s => (Ok a, s).

Definition raise {S A} (e : exn) : M S A := fun s => (Raise e, s).

Definition bind {S A B} (c : M S A) (k : A -> M S B) : M S B :=
  fun s => match c s with
           | (Ok a, s') => k a s'
           | (Raise e, s') => (Raise e, s')
           end.

(** [try: body finally: cleanup], and the exit of a [with] block: the
    cleanup runs on every way out of [body]; an exception of the cleanup
    replaces the outcome of [body]. *)
Definition finally {S A} (body : M S A) (cleanup : M S unit) : M S A :=
  fun s => match body s with
           | (r, s') =>
               match cleanup s' with
               | (Ok _, s'') => (r, s'')
               | (Raise e, s'') => (Raise e, s'')
               end
           end.

(** [range(n)] as the list of its indices. *)
Definition range (n : Z) : list Z := map Z.of_nat (seq 0 (Z.to_nat n)).

(** [for x in xs: body(x)]; the first exception leaves the loop. *)
Fixpoint for_each {S A} (xs : list A) (body : A -> M S unit) : M S unit :=
  match xs with
  | [] => ret tt
  | x :: xs' => bind (body x) (fun _ => for_each xs' body)
  end.

(** A [for] loop that updates a local variable [acc]. *)
Fixpoint for_fold {S A B} (xs : list A) (acc : B) (body : A -> B -> M S B)
  : M S B :=
  match xs with
  | [] => ret acc
  | x :: xs' => bind (body x acc) (fun acc' => for_fold xs' acc' body)
  end.

(** [await c] runs the awaitable [c] to its end and gives its value or
    raises its exception in the caller. *)
Definition await {S A} (c : M S A) : M S A := c.

(** [float]: a rational number, or [float("nan")].  An idealisation:
    the numbers have no rounding and no infinity, and a list of durations
    holds no NaN (a difference of two readings of the clock is none). *)
Inductive pyfloat : Type :=
| Num (q : Q)
| NaN.

(** Exceptions in code without state. *)
Definition obind {A B} (o : outcome A) (k : A -> outcome B) : outcome B :=
  match o with
  | Ok a => k a
  | Raise e => Raise e
  end.

(** [xs[i]] for a list: a negative index counts from the end, an index
    out of range raises [IndexError]. *)
Definition getitem {A} (xs : list A) (i : Z) : outcome A :=
  let n := Z.of_nat (length xs) in
  let j := if i <? 0 then i + n else i in
  if (0 <=? j) && (j <? n) then
    match xs !! Z.to_nat j with
    | Some x => Ok x
    | None => Raise IndexError
    end
  else Raise IndexError.

End Py.

Import Py.

Declare Scope py_scope.
Delimit Scope py_scope with py.
Notation "x <- c ;; k" := (bind c (fun x => k))
  (at level 100, c at next level, right associativity) : py_scope.
Notation "c ;;; k" := (bind c (fun _ => k))
  (at level 100, right associativity) : py_scope.

(** ** The compute workload: [cpu_work] *)

Module Cpu.

(** One pass of the loop body:
    [acc = (acc * 1664525 + 1013904223 + i) & 0xFFFFFFFF]. *)
Definition cpu_step (acc i : Z) : Z :=
  Z.land (acc * 1664525 + 1013904223 + i) 0xFFFFFFFF.

(** [cpu_work(units)]: [acc = 0], then the body for [i in range(units)].
    The second component counts the executions of the loop body. *)
Definition cpu_work_counted (units : Z) : Z * nat :=
  fold_left (fun '(acc, n) i => (cpu_step acc i, S n)) (range units) (0, O).

Definition cpu_work (units : Z) : Z :=
  fold_left cpu_step (range units) 0.

(** The recurrence in the words of the specification: [n] iterations of
    [acc := (acc * 1664525 + 1013904223 + i) mod 2^32] from [acc = 0],
    the [i]-th iteration (counted from 0) folding in [i]. *)
Fixpoint lcg_recurrence (n : nat) : Z :=
  match n with
  | O => 0
  | S k => (lcg_recurrence k * 1664525 + 1013904223 + Z.of_nat k) mod 2 ^ 32
  end.

End Cpu.

(** ** Statistics of a run: [median] and [Result] *)

Module QOrder <: Orders.TotalLeBool.
Definition t := Q.
Definition leb := Qle_bool.
Theorem leb_total (a b : Q) : leb a b = true \/ leb b a = true.
Proof.
  unfold leb. rewrite !Qle_bool_iff.
  destruct (Qlt_le_dec a b) as [H|H]; [left; apply Qlt_le_weak, H | right; exact H].
Qed.
End QOrder.

Module QSort := Mergesort.Sort QOrder.

Module Stats.

(** The builtin [sorted] on a list of floats. *)
Definition sorted (xs : list Q) : list Q := QSort.sort xs.

(** [statistics.median] of the Python library:
    [data = sorted(data); n = len(data)]; no data raises
    [StatisticsError]; [data[n // 2]] when [n % 2 == 1], otherwise
    [(data[i - 1] + data[i]) / 2] with [i = n // 2]. *)
Definition statistics_median (data : list Q) : outcome Q :=
  let data := sorted data in
  let n := Z.of_nat (length data) in
  if n =? 0 then Raise (StatisticsError "no median for empty data")
  else if n mod 2 =? 1 then getitem data (n / 2)
  else
    let i := n / 2 in
    obind (getitem data (i - 1)) (fun a =>
    obind (getitem data i) (fun b =>
    Ok ((a + b) / 2)%Q)).

(** A list is true in a condition when it is not empty. *)
Definition truthy {A} (xs : list A) : bool :=
  match xs with [] => false | _ => true end.

(** [median(xs)]: [statistics.median(xs) if xs else float("nan")]. *)
Definition median (xs : list Q) : outcome pyfloat :=
  if truthy xs then obind (statistics_median xs) (fun q => Ok (Num q))
  else Ok NaN.

(** The builtins [min] and [max] on a list: the first smallest and the
    first largest element; an empty list raises [ValueError]. *)
Definition py_min (xs : list Q) : outcome Q :=
  match xs with
  | [] => Raise (ValueError "min() arg is an empty sequence")
  | x :: xs' =>
      Ok (fold_left (fun m y => if Qle_bool m y then m else y) xs' x)
  end.

Definition py_max (xs : list Q) : outcome Q :=
  match xs with
  | [] => Raise (ValueError "max() arg is an empty sequence")
  | x :: xs' =>
      Ok (fold_left (fun m y => if Qle_bool y m then m else y) xs' x)
  end.

(** The dataclass [Result]. *)
Record Result : Type := mkResult { name : string; runs : list Q }.

Definition med (self : Result) : outcome pyfloat := median (runs self).

Definition min (self : Result) : outcome pyfloat :=
  if truthy (runs self) then obind (py_min (runs self)) (fun q => Ok (Num q))
  else Ok NaN.

Definition max (self : Result) : outcome pyfloat :=
  if truthy (runs self) then obind (py_max (runs self)) (fun q => Ok (Num q))
  else Ok NaN.

(** The conventional median of a list already in ascending order, in the
    words of the specification: the middle element when the length is
    odd, the arithmetic mean of the two middle elements when it is
    even. *)
Definition conventional_median (ascending : list Q) : Q :=
  let n := length ascending in
  if Nat.odd n then nth (n / 2) ascending 0%Q
  else ((nth (n / 2 - 1) ascending 0%Q + nth (n / 2) ascending 0%Q) / 2)%Q.

End Stats.

(** ** The trial runner *)

Module Runner.
Import Stats.

(** What an observer of a run sees: a reading of the clock, and an
    execution of the invocation that came to its end. *)
Inductive event : Type :=
| EvNow (t : Q)
| EvCall.

Section WithWorld.
(** [W] is everything an invocation can act on, the clock included:
    [clock_read w] is the value [time.perf_counter()] returns in [w] and
    the world after the call. *)
Context {W : Type}.
Variable clock_read : W -> Q * W.

(** The runner's state: the world, and the events so far (a ghost field
    that no code reads). *)
Record rstate : Type := mkState { env : W; log : list event }.

(** [now()]: [time.perf_counter()]. *)
Definition now : M rstate Q :=
  fun s => let '(t, w) := clock_read (env s) in
           (Ok t, mkState w (log s ++ [EvNow t])).

(** [fn()]: one execution of the invocation [fn]. *)
Definition call (fn : M W unit) : M rstate unit :=
  fun s => match fn (env s) with
           | (Ok _, w) => (Ok tt, mkState w (log s ++ [EvCall]))
           | (Raise e, w) => (Raise e, mkState w (log s))
           end.

(** [asyncio.to_thread(fn)]: [fn] runs in a worker thread; awaiting it
    gives what [fn] gives. *)
Definition to_thread (fn : M W unit) : M rstate unit := call fn.

Definition run_repeated (label : string) (repeats : Z) (fn : M W unit)
    (warmup : Z) : M rstate Result :=
  (for_each (range warmup) (fun _ => call fn) ;;;
   runs <- for_fold (range repeats) [] (fun _ runs =>
     t0 <- now ;;
     call fn ;;;
     t1 <- now ;;
     ret (runs ++ [(t1 - t0)%Q])) ;;
   ret (mkResult label runs))%py.

Definition run_repeated_async (label : string) (repeats : Z)
    (coro_factory : M W unit) (warmup : Z) : M rstate Result :=
  (for_each (range warmup) (fun _ => await (call coro_factory)) ;;;
   runs <- for_fold (range repeats) [] (fun _ runs =>
     t0 <- now ;;
     await (call coro_factory) ;;;
     t1 <- now ;;
     ret (runs ++ [(t1 - t0)%Q])) ;;
   ret (mkResult label runs))%py.

Definition run_repeated_blocking (label : string) (repeats : Z)
    (fn : M W unit) (warmup : Z) : M rstate Result :=
  (for_each (range warmup) (fun _ => await (to_thread fn)) ;;;
   runs <- for_fold (range repeats) [] (fun _ runs =>
     t0 <- now ;;
     await (to_thread fn) ;;;
     t1 <- now ;;
     ret (runs ++ [(t1 - t0)%Q])) ;;
   ret (mkResult label runs))%py.

(** The body of the measured loop, as the three runners have it. *)
Definition measured_body (fn : M W unit) (_ : Z) (runs : list Q)
  : M rstate (list Q) :=
  (t0 <- now ;; call fn ;;; t1 <- now ;; ret (runs ++ [(t1 - t0)%Q]))%py.

(** The three runners of the two files. *)
Definition runners : list (string -> Z -> M W unit -> Z -> M rstate Result) :=
  [run_repeated; run_repeated_async; run_repeated_blocking].

(** The events of one measured trial that read [t0] before the invocation
    and [t1] after it, and the duration recorded for it. *)
Definition trial_events (t : Q * Q) : list event :=
  [EvNow (fst t); EvCall; EvNow (snd t)].

Definition trial_duration (t : Q * Q) : Q := (snd t - fst t)%Q.

(** [time.perf_counter()] is a monotonic clock: [elapsed w] is the time
    that has passed in world [w]; a reading is not before the time of the
    world it is taken in and not after the time of the world it leaves. *)
Definition monotonic_clock (elapsed : W -> Q) : Prop :=
  forall w, (elapsed w <= fst (clock_read w))%Q
            /\ (fst (clock_read w) <= elapsed (snd (clock_read w)))%Q.

(** An invocation cannot turn the clock back. *)
Definition keeps_time (elapsed : W -> Q) (fn : M W unit) : Prop :=
  forall w r w', fn w = (r, w') -> (elapsed w <= elapsed w')%Q.

(** The two phases of a run in the words of the specification, on the
    world alone and with no trace.  The warmup: [n] executions of [fn],
    each in the world the one before left; the first exception ends it. *)
Fixpoint warmup_phase (n : nat) (fn : M W unit) (w : W) : outcome unit * W :=
  match n with
  | O => (Ok tt, w)
  | S n' =>
      match fn w with
      | (Ok _, w') => warmup_phase n' fn w'
      | (Raise e, w') => (Raise e, w')
      end
  end.

(** The measured trials: [n] times a reading of the clock, one execution
    of [fn] and a second reading; the pairs of readings of the trials, or
    the first exception of [fn]. *)
Fixpoint measured_phase (n : nat) (fn : M W unit) (w : W)
  : outcome (list (Q * Q)) * W :=
  match n with
  | O => (Ok [], w)
  | S n' =>
      let '(t0, w0) := clock_read w in
      match fn w0 with
      | (Ok _, w1) =>
          let '(t1, w2) := clock_read w1 in
          match measured_phase n' fn w2 with
          | (Ok ts, w') => (Ok ((t0, t1) :: ts), w')
          | (Raise e, w') => (Raise e, w')
          end
      | (Raise e, w1) => (Raise e, w1)
      end
  end.

(** [warmup] executions, then [repeats] measured trials. *)
Definition executes (label : string) (repeats : Z) (fn : M W unit)
    (warmup : Z) (w : W) : outcome Result * W :=
  match warmup_phase (Z.to_nat warmup) fn w with
  | (Ok _, w1) =>
      match measured_phase (Z.to_nat repeats) fn w1 with
      | (Ok ts, w2) => (Ok (mkResult label (map trial_duration ts)), w2)
      | (Raise e, w2) => (Raise e, w2)
      end
  | (Raise e, w1) => (Raise e, w1)
  end.

(** An invocation that keeps the count of its own executions: the world
    carries a counter that every execution of [counted fn], failed or
    not, advances by one, and that the clock leaves alone. *)
Definition counted (fn : M W unit) : M (W * nat) unit :=
  fun '(w, n) => let '(r, w') := fn w in (r, (w', S n)).

Definition counted_clock : W * nat -> Q * (W * nat) :=
  fun '(w, n) => let '(t, w') := clock_read w in (t, (w', n)).

End WithWorld.

Arguments rstate W : clear implicits.

(** A world that is nothing but its clock, and an invocation that takes
    one second in it; used to run the runners on concrete inputs. *)
Definition wall_clock (t : Q) : Q * Q := (t, t).
Definition one_second : M Q unit := fun t => (Ok tt, (t + 1)%Q).

(** An invocation that takes one second to fail. *)
Definition refused : M Q unit :=
  fun t => (Raise (OSError "Connection refused"), (t + 1)%Q).

(** The number of executions of the invocation in a trace. *)
Definition calls (tr : list event) : nat :=
  length (List.filter
            (fun e => match e with EvCall => true | EvNow _ => false end) tr).

End Runner.

(** ** The echo workload over a blocking socket *)

Module Echo.

(** What arrives on a connection, in order: a segment of bytes, or nothing
    at all for longer than the socket's timeout. After the last one the
    peer closes the connection. *)
Inductive delivery : Type :=
| Segment (data : bytes)
| Stall.

(** What an observer of the socket sees. *)
Inductive wire_event : Type :=
| WConnect (port : Z)
| WSend (data : bytes)
| WRecv (bufsize : Z) (chunk : bytes)
| WClose.

(** One connection to the peer: how the peer answers the attempt to
    connect and the attempt to send ([None]: it goes well), what it sends
    back, and the events so far (a ghost field that no code reads). *)
Record net : Type := mkNet {
  refuse : option exn;
  reject : option exn;
  inbox : list delivery;
  wire : list wire_event
}.

Definition observe (ev : wire_event) (s : net) : net :=
  mkNet (refuse s) (reject s) (inbox s) (wire s ++ [ev]).

Definition set_inbox (ib : list delivery) (s : net) : net :=
  mkNet (refuse s) (reject s) ib (wire s).

(** [socket.create_connection(("127.0.0.1", port), timeout=20.0)]. *)
Definition create_connection (port : Z) : M net unit :=
  fun s => match refuse s with
           | Some e => (Raise e, s)
           | None => (Ok tt, observe (WConnect port) s)
           end.

(** [s.sendall(data)]. *)
Definition sendall (data : bytes) : M net unit :=
  fun s => match reject s with
           | Some e => (Raise e, s)
           | None => (Ok tt, observe (WSend data) s)
           end.

(** What a blocking [recv] with room for [bufsize] bytes takes from the
    deliveries: at most [bufsize] bytes of the first segment that has
    any, the empty string when the peer has closed, a timeout on a
    stall. *)
Fixpoint take_chunk (bufsize : nat) (ib : list delivery)
  : outcome bytes * list delivery :=
  match ib with
  | [] => (Ok [], [])
  | Stall :: rest => (Raise TimeoutError, rest)
  | Segment [] :: rest => take_chunk bufsize rest
  | Segment data :: rest =>
      (Ok (take bufsize data),
       match drop bufsize data with
       | [] => rest
       | unread => Segment unread :: rest
       end)
  end.

(** [s.recv(bufsize)]. *)
Definition recv (bufsize : Z) : M net bytes :=
  fun s =>
    if bufsize <? 0 then (Raise (ValueError "negative buffersize in recv"), s)
    else
      match take_chunk (Z.to_nat bufsize) (inbox s) with
      | (Ok chunk, ib) => (Ok chunk, observe (WRecv bufsize chunk) (set_inbox ib s))
      | (Raise e, ib) => (Raise e, set_inbox ib s)
      end.

(** [s.close()], at the exit of the [with] block. *)
Definition close : M net unit := fun s => (Ok tt, observe WClose s).

(** [len(b)] as a Python [int]. *)
Definition len (b : bytes) : Z := Z.of_nat (length b).

(** The loop of [io_process_worker] and of [one] in [io_bench_threads]:
    [[
    while len(recvd) < len(payload):
        chunk = s.recv(len(payload) - len(recvd))
        if not chunk:
            raise RuntimeError("Socket closed early")
        recvd += chunk
    ]]
    with the value of [recvd] at its end as result. Every pass adds at
    least one byte to [recvd] or leaves the loop, so the distance of
    [len(recvd)] to [len(payload)] decreases. *)
Equations? recv_loop (payload recvd : bytes) (s : net) : outcome bytes * net
  by wf (length payload - length recvd)%nat lt :=
  recv_loop payload recvd s with inspect (len recvd <? len payload) => {
    | exist _ false _ => (Ok recvd, s)
    | exist _ true Hlt with recv (len payload - len recvd) s => {
        | (Raise e, s') => (Raise e, s')
        | (Ok [], s') => (Raise (RuntimeError "Socket closed early"), s')
        | (Ok (b :: chunk), s') => recv_loop payload (recvd ++ b :: chunk) s' } }.
Proof.
  unfold len in Hlt. apply Z.ltb_lt in Hlt.
  rewrite length_app. cbn [length]. lia.
Qed.

(** [io_process_worker(args)]. *)
Definition io_process_worker (args : Z * bytes) : M net Z :=
  let '(port, payload) := args in
  (create_connection port ;;;
   finally
     (sendall payload ;;;
      recvd <- recv_loop payload [] ;;
      if bool_decide (recvd <> payload)
      then raise (RuntimeError "Echo mismatch")
      else ret tt)
     close ;;;
   ret 1)%py.

(** [one()] of [io_bench_threads], for its [port] and [payload]. *)
Definition io_bench_threads_one (port : Z) (payload : bytes) : M net unit :=
  (create_connection port ;;;
   finally
     (sendall payload ;;;
      recvd <- recv_loop payload [] ;;
      if bool_decide (recvd <> payload)
      then raise (RuntimeError "Echo mismatch")
      else ret tt)
     close)%py.

(** All the bytes a peer delivers before it closes or stalls, and which of
    the two it does. *)
Inductive ending : Type := Closed | Stalled.

Fixpoint delivered (ib : list delivery) : bytes * ending :=
  match ib with
  | [] => ([], Closed)
  | Stall :: _ => ([], Stalled)
  | Segment data :: rest =>
      let '(more, e) := delivered rest in (data ++ more, e)
  end.

(** The outcome of one echo task in the words of the specification, from
    what the peer does: success when the first [len(payload)] bytes it
    delivers are the payload, [Echo mismatch] when they differ,
    [Socket closed early] when it closes before that many bytes, a
    timeout when it stalls before that many bytes. *)
Definition echo_verdict (payload : bytes) (ib : list delivery) : outcome unit :=
  let '(stream, e) := delivered ib in
  if (length payload <=? length stream)%nat then
    if bool_decide (take (length payload) stream = payload) then Ok tt
    else Raise (RuntimeError "Echo mismatch")
  else
    match e with
    | Closed => Raise (RuntimeError "Socket closed early")
    | Stalled => Raise TimeoutError
    end.

(** A payload of two bytes, to run the tasks on. *)
Definition ab : bytes := ["a"; "b"]%byte.

(** The chunks the [recv] calls of a trace returned, in order. *)
Definition received (tr : list wire_event) : list bytes :=
  flat_map (fun ev => match ev with WRecv _ chunk => [chunk] | _ => [] end) tr.

End Echo.

(** ** Coroutines, the event loop and [asyncio.gather] *)

Module Aio.

(** Where a coroutine of the two programs can be suspended: the wait for
    the semaphore and the waits for the network. *)
Inductive wait : Type :=
| Acquire
| OpenConnection (port : Z)
| Drain
| ReadExactly (n : Z)
| WaitClosed.

(** What a coroutine does to the world without being suspended. *)
Inductive action : Type :=
| WriterWrite (data : bytes)
| WriterClose
| Release.

(** A coroutine: it has returned, it has raised, it does something and
    goes on, or it is suspended until the event loop resumes it with the
    bytes or the exception its wait has produced. *)
Inductive coro (A : Type) : Type :=
| Return (a : A)
| Throw (e : exn)
| Act (a : action) (k : coro A)
| Await (w : wait) (k : outcome bytes -> coro A).
Arguments Return {A} a.
Arguments Throw {A} e.
Arguments Act {A} a k.
Arguments Await {A} w k.

Fixpoint cbind {A B} (c : coro A) (f : A -> coro B) : coro B :=
  match c with
  | Return a => f a
  | Throw e => Throw e
  | Act a k => Act a (cbind k f)
  | Await w k => Await w (fun r => cbind (k r) f)
  end.

(** [try: body finally: cleanup] in a coroutine. *)
Fixpoint cfinally {A} (body : coro A) (cleanup : coro unit) : coro A :=
  match body with
  | Return a => cbind cleanup (fun _ => Return a)
  | Throw e => cbind cleanup (fun _ => Throw e)
  | Act a k => Act a (cfinally k cleanup)
  | Await w k => Await w (fun r => cfinally (k r) cleanup)
  end.

(** [await] on a primitive wait: its bytes, or its exception raised. *)
Definition suspend (w : wait) : coro bytes :=
  Await w (fun r => match r with Ok data => Return data | Raise e => Throw e end).

Definition act (a : action) : coro unit := Act a (Return tt).

(** [reader.readexactly(n)]: nothing to wait for when [n == 0]. *)
Definition readexactly (n : Z) : coro bytes :=
  if n <? 0 then Throw (ValueError "readexactly size can not be less than zero")
  else if n =? 0 then Return []
  else suspend (ReadExactly n).

(** [io_client_once(port, payload)]. *)
Definition io_client_once (port : Z) (payload : bytes) : coro unit :=
  cbind (suspend (OpenConnection port)) (fun _ =>
  cfinally
    (cbind (act (WriterWrite payload)) (fun _ =>
     cbind (suspend Drain) (fun _ =>
     cbind (readexactly (Echo.len payload)) (fun data =>
     if bool_decide (data <> payload)
     then Throw (RuntimeError "Echo mismatch")
     else Return tt))))
    (cbind (act WriterClose) (fun _ =>
     cbind (suspend WaitClosed) (fun _ => Return tt)))).

(** [async with sem: body]. *)
Definition async_with_sem {A} (body : coro A) : coro A :=
  cbind (suspend Acquire) (fun _ => cfinally body (act Release)).

(** [asyncio.Semaphore(value)]. *)
Definition Semaphore (value : Z) : outcome Z :=
  if value <? 0 then Raise (ValueError "Semaphore initial value must be >= 0")
  else Ok value.

(** The event loop while [gather] is awaited, turn by turn: the tasks of
    the coroutines given to [gather], the value of the semaphore, the
    future of [gather] ([None] while it is pending), and what the tasks
    have done (a ghost field). A task begins at its first resumption.
    A turn is the step of one task with what follows from it taken at
    once: the done-callback of a task that ends is called in the turn
    the task ends, and the awaiting coroutine goes on then; a slot that
    is released is back in the value until a waiter is resumed.  The
    library puts steps of other tasks in between ([call_soon]) and hands
    a released slot to the first waiter: [Loop], further down, has the
    callbacks and the waiters one by one. *)
Record loop (A : Type) : Type := mkLoop {
  tasks : list (coro A);
  sem_value : Z;
  outer : option (outcome (list A));
  acts : list (nat * action)
}.
Arguments mkLoop {A} tasks sem_value outer acts.
Arguments tasks {A} l.
Arguments sem_value {A} l.
Arguments outer {A} l.
Arguments acts {A} l.

Definition finished {A} (c : coro A) : bool :=
  match c with Return _ | Throw _ => true | _ => false end.

Definition result_of {A} (c : coro A) : option A :=
  match c with Return a => Some a | _ => None end.

(** A resumed coroutine runs until it is suspended or finished. *)
Fixpoint settle {A} (i : nat) (c : coro A) (sem : Z) (done : list (nat * action))
  : coro A * Z * list (nat * action) :=
  match c with
  | Act a k =>
      settle i k (match a with Release => sem + 1 | _ => sem end)
        (done ++ [(i, a)])
  | _ => (c, sem, done)
  end.

(** The callback of [gather] (with [return_exceptions=False]) when a task
    is done, called in the turn the task ends: the first exception of a
    task is set on the future; the list of the results is set when every
    task has returned. *)
Definition on_done {A} (ts : list (coro A)) (c : coro A)
  : option (outcome (list A)) :=
  match c with
  | Throw e => Some (Raise e)
  | Return _ =>
      match mapM result_of ts with
      | Some results => Some (Ok results)
      | None => None
      end
  | _ => None
  end.

(** One turn of the loop: task [i] is resumed with [r]. A task that
    waits for the semaphore is resumed only when the value of the
    semaphore is positive, and takes one from it. *)
Definition resume {A} (i : nat) (r : outcome bytes) (l : loop A) : loop A :=
  match tasks l !! i with
  | Some (Await w k) =>
      let holding := match w with Acquire => false | _ => true end in
      if negb holding && (sem_value l <=? 0) then l
      else
        let sem1 := if holding then sem_value l else sem_value l - 1 in
        let r' := if holding then r else Ok [] in
        let '(c, sem2, done) := settle i (k r') sem1 (acts l) in
        let ts := <[i := c]> (tasks l) in
        mkLoop ts sem2
          (match outer l with
           | Some o => Some o
           | None => on_done ts c
           end)
          done
  | _ => l
  end.

(** The order in which the loop resumes the tasks, and with what. *)
Definition schedule : Type := list (nat * outcome bytes).

(** The loop turns until the future of [gather] is done: then the
    coroutine that awaits it goes on. *)
Fixpoint turn {A} (sched : schedule) (l : loop A) : loop A :=
  match outer l with
  | Some _ => l
  | None =>
      match sched with
      | [] => l
      | (i, r) :: rest => turn rest (resume i r l)
      end
  end.

(** [await asyncio.gather] on the coroutines, under a schedule: the outcome
    ([None]: the schedule ends and [gather] is still pending) and the
    loop at that moment. *)
Definition gather {A} (coros : list (coro A)) (sem : Z) (sched : schedule)
  : option (outcome (list A)) * loop A :=
  let l := turn sched
             (mkLoop coros sem
                (match coros with [] => Some (Ok []) | _ => None end) []) in
  (outer l, l).

(** [sum(results)]. *)
Definition sum (xs : list Z) : Z := fold_left Z.add xs 0.

(** [cpu_bench_asyncio(tasks, units, concurrency)]. *)
Definition cpu_bench_asyncio (tasks units concurrency : Z) (sched : schedule)
  : option (outcome unit) * loop Z :=
  match Semaphore concurrency with
  | Raise e => (Some (Raise e), mkLoop [] concurrency None [])
  | Ok sem =>
      let one := async_with_sem (Return (Cpu.cpu_work units)) in
      match gather (map (fun _ => one) (range tasks)) sem sched with
      | (Some (Ok results), l) => let _ := sum results in (Some (Ok tt), l)
      | (Some (Raise e), l) => (Some (Raise e), l)
      | (None, l) => (None, l)
      end
  end.

(** [io_bench_asyncio(tasks, concurrency, port, payload)]. *)
Definition io_bench_asyncio (tasks concurrency port : Z) (payload : bytes)
    (sched : schedule) : option (outcome unit) * loop unit :=
  match Semaphore concurrency with
  | Raise e => (Some (Raise e), mkLoop [] concurrency None [])
  | Ok sem =>
      let one := async_with_sem (io_client_once port payload) in
      match gather (map (fun _ => one) (range tasks)) sem sched with
      | (Some (Ok _), l) => (Some (Ok tt), l)
      | (Some (Raise e), l) => (Some (Raise e), l)
      | (None, l) => (None, l)
      end
  end.

Definition failed {A} (c : coro A) : bool :=
  match c with Throw _ => true | _ => false end.

(** What holds of this loop at every turn: while the future of [gather]
    is pending no task has failed; a future with a result has the results
    of all the tasks; a future with an exception has the exception of the
    task that has failed, the only one in a loop that calls the callback
    in the turn of the failure. *)
Definition sound {A} (l : loop A) : Prop :=
  match outer l with
  | None => Forall (fun c => failed c = false) (tasks l)
  | Some (Ok results) => mapM result_of (tasks l) = Some results
  | Some (Raise e) =>
      exists i, tasks l !! i = Some (Throw e)
                /\ forall j c, j <> i -> tasks l !! j = Some c -> failed c = false
  end.

(** A schedule for two tasks that both get the semaphore: both wait for
    their connection; the first is connected, writes, and gets back a
    byte that is not the one it has sent; the second is still waiting. *)
Definition mismatch_first : schedule :=
  [(0%nat, Ok []); (1%nat, Ok []);
   (0%nat, Ok []); (0%nat, Ok []); (0%nat, Ok ["y"%byte]); (0%nat, Ok [])].

(** A coroutine alone, resumed with the answers in order: its outcome
    ([None]: the answers end before it does) and where it was suspended
    and what it did, in order. *)
Fixpoint drive {A} (c : coro A) (answers : list (outcome bytes))
  : option (outcome A) * list (wait + action) :=
  match c with
  | Return a => (Some (Ok a), [])
  | Throw e => (Some (Raise e), [])
  | Act a k => let '(r, tr) := drive k answers in (r, inr a :: tr)
  | Await w k =>
      match answers with
      | [] => (None, [inl w])
      | r :: rest => let '(o, tr) := drive (k r) rest in (o, inl w :: tr)
      end
  end.

(** A coroutine that can come to a wait for bytes to read. *)
Fixpoint may_read {A} (c : coro A) : Prop :=
  match c with
  | Return _ | Throw _ => False
  | Act _ k => may_read k
  | Await (ReadExactly _) _ => True
  | Await _ k => exists r, may_read (k r)
  end.

End Aio.

(** ** The executors: thread pool and process pool *)

Module Pool.

Inductive kind : Type := Threads | Processes.

(** What an observer of the executors sees. *)
Inductive pool_event : Type :=
| Created (k : kind) (max_workers : Z)
| Submitted (k : kind)
| ShutDown (k : kind).

(** The world of a benchmark: the connection each task will get, in the
    order of the tasks, and the events of the executors so far (a ghost
    field). *)
Record world : Type := mkWorld {
  conns : list Echo.net;
  journal : list pool_event
}.

Definition observe (ev : pool_event) : M world unit :=
  fun w => (Ok tt, mkWorld (conns w) (journal w ++ [ev])).

(** [ThreadPoolExecutor(max_workers=n)] and
    [ProcessPoolExecutor(max_workers=n)] of [concurrent.futures]: both
    refuse a number of workers that is not positive. *)
Definition ThreadPoolExecutor (max_workers : Z) : M world kind :=
  if max_workers <=? 0
  then raise (ValueError "max_workers must be greater than 0")
  else (observe (Created Threads max_workers) ;;; ret Threads)%py.

Definition ProcessPoolExecutor (max_workers : Z) : M world kind :=
  if max_workers <=? 0
  then raise (ValueError "max_workers must be greater than 0")
  else (observe (Created Processes max_workers) ;;; ret Processes)%py.

(** The exit of [with ... as ex]: [ex.shutdown(wait=True)]. *)
Definition shutdown (ex : kind) : M world unit := observe (ShutDown ex).

(** [ex.submit(fn, x)] for a function without effects: the future holds
    what the call gives. *)
Definition submit {A} (ex : kind) (call : outcome A) : M world (outcome A) :=
  (observe (Submitted ex) ;;; ret call)%py.

(** A task that uses the network runs on the connection of its rank; a
    task without one is refused. *)
Definition no_connection : Echo.net :=
  Echo.mkNet (Some (OSError "Connection refused")) None [] [].

Definition submit_io {A} (ex : kind) (rank : nat) (task : M Echo.net A)
  : M world (outcome A) :=
  fun w =>
    let '(r, c) := task (default no_connection (conns w !! rank)) in
    (Ok r, mkWorld (<[rank := c]> (conns w)) (journal w ++ [Submitted ex])).

(** [f.result()]. *)
Definition result {S A} (f : outcome A) : M S A := fun s => (f, s).

(** [[g(x) for x in xs]] with effects. *)
Fixpoint collect {S A B} (xs : list A) (g : A -> M S B) : M S (list B) :=
  match xs with
  | [] => ret []
  | x :: xs' => (y <- g x ;; ys <- collect xs' g ;; ret (y :: ys))%py
  end.

Definition sum (xs : list Z) : Z := fold_left Z.add xs 0.

(** [cpu_bench_threads(tasks, units, workers)]. *)
Definition cpu_bench_threads (tasks units workers : Z) : M world unit :=
  (ex <- ThreadPoolExecutor workers ;;
   finally
     (futs <- collect (range tasks)
                (fun _ => submit ex (Ok (Cpu.cpu_work units))) ;;
      results <- collect futs result ;;
      let _ := sum results in ret tt)
     (shutdown ex))%py.

(** [cpu_bench_processes(tasks, units, workers)]. *)
Definition cpu_bench_processes (tasks units workers : Z) : M world unit :=
  (ex <- ProcessPoolExecutor workers ;;
   finally
     (futs <- collect (range tasks)
                (fun _ => submit ex (Ok (Cpu.cpu_work units))) ;;
      results <- collect futs result ;;
      let _ := sum results in ret tt)
     (shutdown ex))%py.

(** [io_bench_threads(tasks, concurrency, port, payload)]. *)
Definition io_bench_threads (tasks concurrency port : Z) (payload : bytes)
  : M world unit :=
  (ex <- ThreadPoolExecutor concurrency ;;
   finally
     (futs <- collect (range tasks)
                (fun i => submit_io ex (Z.to_nat i)
                            (Echo.io_bench_threads_one port payload)) ;;
      for_each futs (fun f => result f ;;; ret tt))
     (shutdown ex))%py.

(** [ex.map(fn, job_args)], consumed to its end: every job is submitted,
    then the results are taken in the order of the jobs, and the first
    exception among them is raised.  Every job up to that one has run
    when it is raised.  Of the jobs after it, the library cancels those
    that have not started; here they all have started, which is one of
    the ways the pool can go: what is stated of [io_bench_processes] is
    its outcome, the pool it creates, and the connections of the jobs up
    to the first that fails, which are the same in every way. *)
Definition ex_map {A B} (ex : kind) (fn : A -> M Echo.net B) (jobs : list A)
  : M world (list B) :=
  (futs <- collect (imap (fun rank job => (rank, job)) jobs)
             (fun '(rank, job) => submit_io ex rank (fn job)) ;;
   collect futs result)%py.

(** [io_bench_processes(tasks, concurrency, port, payload)]. *)
Definition io_bench_processes (tasks concurrency port : Z) (payload : bytes)
  : M world unit :=
  let proc_workers := Z.min concurrency 64 in
  let job_args := map (fun _ => (port, payload)) (range tasks) in
  (ex <- ProcessPoolExecutor proc_workers ;;
   finally
     (results <- ex_map ex Echo.io_process_worker job_args ;;
      let _ := sum results in ret tt)
     (shutdown ex))%py.

(** The sizes of the process pools a trace has created. *)
Definition process_pool_sizes (tr : list pool_event) : list Z :=
  flat_map (fun ev => match ev with
                      | Created Processes n => [n]
                      | _ => []
                      end) tr.

(** A computation that creates no process pool. *)
Definition quiet {A} (c : M world A) : Prop :=
  forall w, exists tr,
    journal (snd (c w)) = journal w ++ tr /\ process_pool_sizes tr = [].

End Pool.

(** ** The readings of the clock in a run *)

Module Timeline.

(** The readings of the trials of a run, in the order they are taken:
    before the first trial, after it, before the second, and so on. *)
Definition readings (trials : list (Q * Q)) : list Q :=
  flat_map (fun t => [fst t; snd t]) trials.

End Timeline.

(** ** A batch of tasks on a pool *)

Module Batch.

(** The connection the task of rank [i] runs on. *)
Definition connection (w : Pool.world) (i : nat) : Echo.net :=
  default Pool.no_connection (Pool.conns w !! i).

(** The first exception in a list of outcomes, in the order of the list. *)
Fixpoint first_failure {A} (rs : list (outcome A)) : outcome unit :=
  match rs with
  | [] => Ok tt
  | Ok _ :: rs' => first_failure rs'
  | Raise e :: _ => Raise e
  end.

(** What the events of a pool of kind [k] look like from its creation to
    its end when [n] tasks are submitted to it. *)
Definition lifecycle (k : Pool.kind) (max_workers : Z) (n : nat)
  : list Pool.pool_event :=
  Pool.Created k max_workers :: repeat (Pool.Submitted k) n
    ++ [Pool.ShutDown k].

(** The connections after a batch of [n] tasks that all run [task]: the
    first [n] are as the task has left them, the others are untouched. *)
Definition after_batch {A} (task : M Echo.net A) (n : nat)
    (cs : list Echo.net) : list Echo.net :=
  imap (fun i c => if (i <? n)%nat then snd (task c) else c) cs.

(** A connection that echoes the payload: it is accepted, it takes what
    is sent, and the first [len(payload)] bytes it delivers are the
    payload. *)
Definition echoes (payload : bytes) (c : Echo.net) : Prop :=
  Echo.refuse c = None /\ Echo.reject c = None
  /\ (length payload <= length (fst (Echo.delivered (Echo.inbox c))))%nat
  /\ take (length payload) (fst (Echo.delivered (Echo.inbox c))) = payload.

(** The outcomes of the [n] tasks, each on its connection. *)
Definition outcomes {A} (task : M Echo.net A) (n : nat) (w : Pool.world)
  : list (outcome A) :=
  map (fun i => fst (task (connection w i))) (seq 0 n).

End Batch.

(** ** The life of a socket *)

Module Wire.

(** The events between the opening of a socket and its closing. *)
Definition data_event (ev : Echo.wire_event) : bool :=
  match ev with
  | Echo.WSend _ | Echo.WRecv _ _ => true
  | Echo.WConnect _ | Echo.WClose => false
  end.

End Wire.

(** ** The semaphore as a gate *)

Module Gate.
Import Aio.

(** A coroutine that leaves the semaphore alone. *)
Fixpoint clean {A} (c : coro A) : Prop :=
  match c with
  | Return _ | Throw _ => True
  | Act a k => a <> Release /\ clean k
  | Await w k => w <> Acquire /\ forall r, clean (k r)
  end.

(** A task is in flight when it is past the semaphore and not finished. *)
Definition in_flight {A} (c : coro A) : bool :=
  match c with
  | Return _ | Throw _ => false
  | Await Acquire _ => false
  | Await _ _ | Act _ _ => true
  end.

Definition in_flight_count {A} (ts : list (coro A)) : Z :=
  Z.of_nat (length (List.filter in_flight ts)).

(** The three forms a task of [async with sem: body] has between two
    turns of the loop: not yet past the semaphore, finished, or suspended
    inside the body with the release of the semaphore still to come. *)
Definition task_form {A} (body c : coro A) : Prop :=
  c = async_with_sem body
  \/ finished c = true
  \/ exists w kb,
       w <> Acquire /\ (forall r, clean (kb r))
       /\ c = Await w (fun r => cfinally (kb r) (act Release)).

End Gate.

(** ** The event loop, callback by callback *)

Module Loop.
Import Aio.

(** [asyncio.Semaphore]: its value, and the tasks that wait for it, the
    first to come first.  A waiter is marked [true] once [release] has
    woken it: it has been given its slot and has not been resumed yet. *)
Record semaphore : Type := mkSem { value : Z; waiters : list (nat * bool) }.

(** [locked()]: [self._value == 0], or a task is waiting. *)
Definition locked (s : semaphore) : bool :=
  (value s =? 0) || match waiters s with [] => false | _ :: _ => true end.

(** [_wake_up_next()]: the first waiter that is not woken yet is woken
    and takes one from the value. *)
Fixpoint wake_first (ws : list (nat * bool)) : option (list (nat * bool)) :=
  match ws with
  | [] => None
  | (j, false) :: ws' => Some ((j, true) :: ws')
  | (j, true) :: ws' =>
      match wake_first ws' with
      | Some ws'' => Some ((j, true) :: ws'')
      | None => None
      end
  end.

Definition wake_up_next (s : semaphore) : semaphore :=
  match wake_first (waiters s) with
  | Some ws => mkSem (value s - 1) ws
  | None => s
  end.

(** [release()]: [self._value += 1], then [self._wake_up_next()]. *)
Definition release (s : semaphore) : semaphore :=
  wake_up_next (mkSem (value s + 1) (waiters s)).

(** Whether task [i] is among the waiters, and woken or not. *)
Fixpoint status (i : nat) (ws : list (nat * bool)) : option bool :=
  match ws with
  | [] => None
  | (j, b) :: ws' => if Nat.eqb j i then Some b else status i ws'
  end.

(** [self._waiters.remove(fut)]. *)
Fixpoint leave (i : nat) (ws : list (nat * bool)) : list (nat * bool) :=
  match ws with
  | [] => []
  | (j, b) :: ws' => if Nat.eqb j i then ws' else (j, b) :: leave i ws'
  end.

(** The event loop while [gather] is awaited.  [callbacks]: the tasks
    that are done and whose done-callback the loop has still to call, in
    the order [call_soon] got them; [delivered]: the tasks whose
    done-callback has been called, in that order; [outer]: the future of
    [gather], [None] while it is pending. *)
Record state (A : Type) : Type := mkState {
  tasks : list (coro A);
  sem : semaphore;
  callbacks : list nat;
  delivered : list nat;
  outer : option (outcome (list A))
}.
Arguments mkState {A} tasks sem callbacks delivered outer.
Arguments tasks {A} _.
Arguments sem {A} _.
Arguments callbacks {A} _.
Arguments delivered {A} _.
Arguments outer {A} _.

(** What the loop can do next: let task [i] take a step, [r] being what
    the wait it was suspended at has produced; call the next
    done-callback; resume the coroutine that awaits [gather]. *)
Inductive step : Type :=
| Run (i : nat) (r : outcome bytes)
| Callback
| Wake.

(** A coroutine runs until it is suspended or finished; [sem.release()]
    on its way is done at once. *)
Fixpoint settle {A} (c : coro A) (s : semaphore) : coro A * semaphore :=
  match c with
  | Act a k => settle k (match a with Release => release s | _ => s end)
  | _ => (c, s)
  end.

(** The step of task [i] from [c] on: when the task is done, its
    done-callback is handed to [call_soon]. *)
Definition proceed {A} (i : nat) (c : coro A) (s : semaphore) (l : state A)
  : state A :=
  let '(c', s') := settle c s in
  mkState (<[i := c']> (tasks l)) s'
    (if finished c' then callbacks l ++ [i] else callbacks l)
    (delivered l) (outer l).

(** The done-callback of task [i] has been handed to [call_soon]. *)
Definition announced {A} (i : nat) (l : state A) : bool :=
  existsb (Nat.eqb i) (delivered l ++ callbacks l).

(** One step of task [i].  At [await sem.acquire()]: a task that comes
    to it takes one from the value and goes on when the semaphore is not
    locked, and joins the waiters otherwise; a waiter goes on once it has
    been woken: it leaves the waiters and, when the value is positive,
    wakes the next one.  At a wait for the network the task goes on with
    what the wait has produced. *)
Definition run_task {A} (i : nat) (r : outcome bytes) (l : state A)
  : state A :=
  match tasks l !! i with
  | None => l
  | Some (Await Acquire k) =>
      match status i (waiters (sem l)) with
      | None =>
          if locked (sem l)
          then mkState (tasks l)
                 (mkSem (value (sem l)) (waiters (sem l) ++ [(i, false)]))
                 (callbacks l) (delivered l) (outer l)
          else proceed i (k (Ok []))
                 (mkSem (value (sem l) - 1) (waiters (sem l))) l
      | Some false => l
      | Some true =>
          let s1 := mkSem (value (sem l)) (leave i (waiters (sem l))) in
          let s2 := if 0 <? value s1 then wake_up_next s1 else s1 in
          proceed i (k (Ok [])) s2 l
      end
  | Some (Await _ k) => proceed i (k r) (sem l) l
  | Some (Act a k) => proceed i (Act a k) (sem l) l
  | Some c => if announced i l then l else proceed i c (sem l) l
  end.

(** The done-callback of [gather] (with [return_exceptions=False]) for
    the next task in line: nothing when the future of [gather] is done
    already; the exception of the task is set on the future; or, when
    this was the last of the tasks, the list of their results is. *)
Definition callback {A} (l : state A) : state A :=
  match callbacks l with
  | [] => l
  | j :: rest =>
      let nfinished := length (delivered l ++ [j]) in
      mkState (tasks l) (sem l) rest (delivered l ++ [j])
        (match outer l with
         | Some o => Some o
         | None =>
             match tasks l !! j with
             | Some (Throw e) => Some (Raise e)
             | _ =>
                 if Nat.eqb nfinished (length (tasks l))
                 then match mapM result_of (tasks l) with
                      | Some results => Some (Ok results)
                      | None => None
                      end
                 else None
             end
         end)
  end.

(** The loop under a schedule, until the coroutine that awaits [gather]
    is resumed with its future done: what the future has ([None]: the
    schedule ends first) and the loop at that moment. *)
Fixpoint exec {A} (sched : list step) (l : state A)
  : option (outcome (list A)) * state A :=
  match sched with
  | [] => (None, l)
  | Run i r :: rest => exec rest (run_task i r l)
  | Callback :: rest => exec rest (callback l)
  | Wake :: rest =>
      match outer l with
      | Some o => (Some o, l)
      | None => exec rest l
      end
  end.

(** [await asyncio.gather] on the coroutines: with no coroutine the
    future is done from the start and nothing is awaited. *)
Definition gather {A} (coros : list (coro A)) (s : semaphore)
    (sched : list step) : option (outcome (list A)) * state A :=
  match coros with
  | [] => (Some (Ok []), mkState [] s [] [] (Some (Ok [])))
  | _ :: _ => exec sched (mkState coros s [] [] None)
  end.

(** [cpu_bench_asyncio(tasks, units, concurrency)]. *)
Definition cpu_bench_asyncio (tasks units concurrency : Z)
    (sched : list step) : option (outcome unit) * state Z :=
  match Semaphore concurrency with
  | Raise e => (Some (Raise e), mkState [] (mkSem concurrency []) [] [] None)
  | Ok v =>
      let one := async_with_sem (Return (Cpu.cpu_work units)) in
      match gather (map (fun _ => one) (range tasks)) (mkSem v []) sched with
      | (Some (Ok results), l) => let _ := sum results in (Some (Ok tt), l)
      | (Some (Raise e), l) => (Some (Raise e), l)
      | (None, l) => (None, l)
      end
  end.

(** [io_bench_asyncio(tasks, concurrency, port, payload)]. *)
Definition io_bench_asyncio (tasks concurrency port : Z) (payload : bytes)
    (sched : list step) : option (outcome unit) * state unit :=
  match Semaphore concurrency with
  | Raise e => (Some (Raise e), mkState [] (mkSem concurrency []) [] [] None)
  | Ok v =>
      let one := async_with_sem (io_client_once port payload) in
      match gather (map (fun _ => one) (range tasks)) (mkSem v []) sched with
      | (Some (Ok _), l) => (Some (Ok tt), l)
      | (Some (Raise e), l) => (Some (Raise e), l)
      | (None, l) => (None, l)
      end
  end.

(** The tasks that are done, in the order they were done. *)
Definition done_order {A} (l : state A) : list nat :=
  delivered l ++ callbacks l.

(** Task [j] has returned. *)
Definition returned {A} (ts : list (coro A)) (j : nat) : Prop :=
  exists a, ts !! j = Some (Return a).

(** What holds of the loop at every step.  The tasks that are done are
    those whose done-callback has been called or is in line, each once.
    While the future of [gather] is pending, the tasks whose callback
    has been called have all returned, and they are not all the tasks.
    A future with a result has the results of all the tasks.  A future
    with an exception has the exception of the first task that failed,
    in the order the tasks were done. *)
Definition sound {A} (l : state A) : Prop :=
  (forall j, In j (done_order l) ->
             exists c, tasks l !! j = Some c /\ finished c = true)
  /\ (forall j c, tasks l !! j = Some c -> finished c = true ->
                  In j (done_order l))
  /\ List.NoDup (done_order l)
  /\ match outer l with
     | None =>
         Forall (returned (tasks l)) (delivered l)
         /\ (length (delivered l) < length (tasks l))%nat
     | Some (Ok results) => mapM result_of (tasks l) = Some results
     | Some (Raise e) =>
         exists pre i post,
           delivered l = pre ++ i :: post
           /\ tasks l !! i = Some (Throw e)
           /\ Forall (returned (tasks l)) pre
     end.

(** The waiters that have been woken and hold a slot. *)
Definition woken (s : semaphore) : Z :=
  Z.of_nat (length (List.filter snd (waiters s))).

(** Three tasks that all get the semaphore and are all refused their
    connection before the loop calls a done-callback. *)
Definition all_refused : list step :=
  [Run 0 (Ok []); Run 1 (Ok []); Run 2 (Ok []);
   Run 0 (Raise (OSError "Connection refused"));
   Run 1 (Raise (OSError "Connection refused"));
   Run 2 (Raise (OSError "Connection refused"));
   Callback; Wake].

(** Two tasks that both get the semaphore: the first is connected,
    writes, gets back a byte that is not the one it has sent, closes and
    fails; its done-callback is called and the awaiting coroutine
    resumed while the second still waits for its connection. *)
Definition mismatch_first : list step :=
  [Run 0 (Ok []); Run 1 (Ok []);
   Run 0 (Ok []); Run 0 (Ok []); Run 0 (Ok ["y"%byte]); Run 0 (Ok []);
   Callback; Wake].

(** One slot and two tasks that are echoed their byte, one after the
    other; the awaiting coroutine is resumed too early twice, then after
    the last done-callback. *)
Definition one_by_one : list step :=
  [Run 0 (Ok []); Run 1 (Ok []);
   Run 0 (Ok []); Run 0 (Ok []); Run 0 (Ok ["x"%byte]); Run 0 (Ok []);
   Run 1 (Ok []); Callback; Wake;
   Run 1 (Ok []); Run 1 (Ok []); Run 1 (Ok ["x"%byte]); Run 1 (Ok []);
   Wake; Callback; Wake].

(** One slot and two tasks: the second waits; the first is refused and
    releases; the second is woken, with the slot, and not resumed yet. *)
Definition handed_over : list step :=
  [Run 0 (Ok []); Run 1 (Ok []);
   Run 0 (Raise (OSError "Connection refused"))].

End Loop.

(** ** The echo server: [handle] of [start_echo_server] *)

Module Server.

(** What an observer of one connection of the server sees. *)
Inductive server_event : Type :=
| SRead (bufsize : Z) (data : bytes)
| SWrite (data : bytes)
| SDrain
| SClose
| SWaitClosed.

(** The [finally] of [handle]: [writer.close()] and
    [await writer.wait_closed()] inside [try ... except Exception: pass].
    [None]: the answers end while the handler waits. *)
Definition cleanup (answers : list (outcome bytes)) (result : outcome unit)
  : option (outcome unit) * list server_event :=
  match answers with
  | [] => (None, [SClose])
  | _ :: _ => (Some result, [SClose; SWaitClosed])
  end.

(** [handle(reader, writer)] when the loop answers its waits with
    [answers], in order: the outcome ([None]: the answers end while the
    handler waits) and what it has done.
    [[
    try:
        while True:
            data = await reader.read(1024)
            if not data:
                break
            writer.write(data)
            await writer.drain()
    finally: ...
    ]] *)
Fixpoint handle (answers : list (outcome bytes))
  : option (outcome unit) * list server_event :=
  match answers with
  | [] => (None, [])
  | Raise e :: rest => cleanup rest (Raise e)
  | Ok [] :: rest =>
      let '(o, tr) := cleanup rest (Ok tt) in (o, SRead 1024 [] :: tr)
  | Ok data :: rest =>
      match rest with
      | [] => (None, [SRead 1024 data; SWrite data])
      | Raise e :: rest' =>
          let '(o, tr) := cleanup rest' (Raise e) in
          (o, SRead 1024 data :: SWrite data :: tr)
      | Ok _ :: rest' =>
          let '(o, tr) := handle rest' in
          (o, SRead 1024 data :: SWrite data :: SDrain :: tr)
      end
  end.

(** The chunks the handler has read and the chunks it has written. *)
Definition chunks_read (tr : list server_event) : list bytes :=
  flat_map (fun ev => match ev with SRead _ data => [data] | _ => [] end) tr.

Definition chunks_written (tr : list server_event) : list bytes :=
  flat_map (fun ev => match ev with SWrite data => [data] | _ => [] end) tr.

(** The answers of a connection on which the chunks arrive one by one and
    every drain goes well. *)
Definition arrivals (chunks : list bytes) : list (outcome bytes) :=
  flat_map (fun ch => [Ok ch; Ok []]) chunks.

(** The answers of rounds of the loop that go well: in each a chunk is
    read and the drain that follows the write returns (with whatever
    value: the code drops it). *)
Definition echoed (rounds : list (bytes * bytes)) : list (outcome bytes) :=
  flat_map (fun r => [Ok (fst r); Ok (snd r)]) rounds.

End Server.

(** ** The defaults of the command line *)

Module Cli.

(** [x or d] for [x] an [int] or [None]. *)
Definition py_or (x : option Z) (d : Z) : Z :=
  match x with
  | Some n => if n =? 0 then d else n
  | None => d
  end.

(** The default of [--concurrency] in [cpu_bound.py]:
    [min(2, (os.cpu_count() or 8) * 25)]. *)
Definition cpu_default_concurrency (cpu_count : option Z) : Z :=
  Z.min 2 (py_or cpu_count 8 * 25).

(** The default of [--concurrency] in [io_bound.py]:
    [min(20, (os.cpu_count() or 8) * 25)]. *)
Definition io_default_concurrency (cpu_count : option Z) : Z :=
  Z.min 20 (py_or cpu_count 8 * 25).

End Cli.

(** ** The definitions on concrete inputs *)

Section Runs.
Import Stats Runner Echo Aio.

Example cpu_work_0 : Cpu.cpu_work 0 = 0.
Proof. reflexivity. Qed.

Example cpu_work_1 : Cpu.cpu_work 1 = 1013904223.
Proof. reflexivity. Qed.

Example cpu_work_4 : Cpu.cpu_work 4 = 3261365242.
Proof. reflexivity. Qed.

Example cpu_work_negative : Cpu.cpu_work (-5) = 0.
Proof. reflexivity. Qed.

Example med_even : med (mkResult "threads" [3; 1; 4; 2]%Q) = Ok (Num (5 # 2)).
Proof. reflexivity. Qed.

Example med_odd : med (mkResult "threads" [3; 1; 2]%Q) = Ok (Num 2).
Proof. reflexivity. Qed.

Example min_max_of_three :
  Stats.min (mkResult "threads" [3; 1; 2]%Q) = Ok (Num 1)
  /\ Stats.max (mkResult "threads" [3; 1; 2]%Q) = Ok (Num 3).
Proof. split; reflexivity. Qed.

(** One warmup and two measured trials of an invocation that takes a
    second, from time 0. *)
Example run_repeated_two_trials :
  run_repeated wall_clock "threads" 2 one_second 1 (mkState 0%Q [])
  = (Ok (mkResult "threads" [1; 1]%Q),
     mkState 3%Q [EvCall; EvNow 1; EvCall; EvNow 2;
                  EvNow 2; EvCall; EvNow 3]).
Proof. reflexivity. Qed.

(** The echo comes back in two pieces. *)
Example echo_in_two_reads :
  io_process_worker (8000, ab)
    (mkNet None None [Segment ["a"%byte]; Segment ["b"%byte]] [])
  = (Ok 1, mkNet None None []
             [WConnect 8000; WSend ab; WRecv 2 ["a"%byte];
              WRecv 1 ["b"%byte]; WClose]).
Proof. reflexivity. Qed.

(** The peer closes after one byte. *)
Example echo_closed_early :
  io_process_worker (8000, ab) (mkNet None None [Segment ["a"%byte]] [])
  = (Raise (RuntimeError "Socket closed early"),
     mkNet None None []
       [WConnect 8000; WSend ab; WRecv 2 ["a"%byte]; WRecv 1 []; WClose]).
Proof. reflexivity. Qed.

(** The peer sends other bytes. *)
Example echo_mismatch :
  fst (io_process_worker (8000, ab)
         (mkNet None None [Segment ["a"; "c"]%byte] []))
  = Raise (RuntimeError "Echo mismatch").
Proof. reflexivity. Qed.

(** The peer sends one byte and then nothing. *)
Example echo_timeout :
  fst (io_process_worker (8000, ab)
         (mkNet None None [Segment ["a"%byte]; Stall] []))
  = Raise TimeoutError.
Proof. reflexivity. Qed.

(** Three compute tasks behind a semaphore of one. *)
Example cpu_bench_asyncio_three :
  fst (cpu_bench_asyncio 3 5 1 [(0%nat, Ok []); (1%nat, Ok []); (2%nat, Ok [])])
  = Some (Ok tt).
Proof. reflexivity. Qed.

(** A semaphore of zero lets no task in: [gather] stays pending. *)
Example cpu_bench_asyncio_locked :
  fst (cpu_bench_asyncio 3 5 0 [(0%nat, Ok []); (1%nat, Ok []); (2%nat, Ok [])])
  = None.
Proof. reflexivity. Qed.

(** Two echo tasks on a thread pool, each on its connection. *)
Example io_bench_threads_two :
  fst (Pool.io_bench_threads 2 2 8000 ab
         (Pool.mkWorld
            [mkNet None None [Segment ab] [];
             mkNet None None [Segment ["a"%byte]; Segment ["b"%byte]] []]
            []))
  = Ok tt.
Proof. reflexivity. Qed.

End Runs.

(** ** Facts about [range] and the compute workload *)

Section CpuFacts.
Import Cpu.

Lemma range_length (n : Z) : length (range n) = Z.to_nat n.
Proof. unfold range. by rewrite length_map, length_seq. Qed.

Lemma range_nonpos (n : Z) : n <= 0 -> range n = [].
Proof. intros H. unfold range. by replace (Z.to_nat n) with O by lia. Qed.

Lemma range_succ (n : nat) :
  range (Z.of_nat (S n)) = range (Z.of_nat n) ++ [Z.of_nat n].
Proof.
  unfold range. rewrite !Nat2Z.id, seq_S, map_app. reflexivity.
Qed.

Lemma mask32_is_mod (x : Z) : Z.land x 0xFFFFFFFF = x mod 2 ^ 32.
Proof. change 0xFFFFFFFF with (Z.ones 32). apply Z.land_ones. lia. Qed.

Lemma cpu_step_range (acc i : Z) : 0 <= cpu_step acc i < 2 ^ 32.
Proof. unfold cpu_step. rewrite mask32_is_mod. apply Z.mod_pos_bound. lia. Qed.

Lemma cpu_work_nat (n : nat) : cpu_work (Z.of_nat n) = lcg_recurrence n.
Proof.
  induction n as [|n IH]; [reflexivity|].
  unfold cpu_work in *. rewrite range_succ, fold_left_app. cbn [fold_left].
  rewrite IH. unfold cpu_step. rewrite mask32_is_mod. reflexivity.
Qed.

Lemma cpu_work_counted_spec (xs : list Z) (acc : Z) (n : nat) :
  fold_left (fun '(acc, n) i => (cpu_step acc i, S n)) xs (acc, n)
  = (fold_left cpu_step xs acc, (n + length xs)%nat).
Proof.
  revert acc n. induction xs as [|x xs IH]; intros acc n; cbn.
  - f_equal. lia.
  - rewrite IH. f_equal. lia.
Qed.

Lemma fold_cpu_step_range (xs : list Z) (acc : Z) :
  0 <= acc < 2 ^ 32 -> 0 <= fold_left cpu_step xs acc < 2 ^ 32.
Proof.
  revert acc. induction xs as [|x xs IH]; intros acc Hacc; cbn; [exact Hacc|].
  apply IH, cpu_step_range.
Qed.

End CpuFacts.

(** C5. For [units >= 0], [cpu_work units] runs the loop body exactly
    [units] times and returns the value of the recurrence
    [acc := (acc * 1664525 + 1013904223 + i) mod 2^32] started at 0; it is
    a function of [units] alone, so equal arguments give equal values and
    equal iteration counts. *)
Theorem cpu_work_deterministic_recurrence (units : Z) :
  0 <= units ->
  Cpu.cpu_work_counted units
  = (Cpu.lcg_recurrence (Z.to_nat units), Z.to_nat units)
  /\ Cpu.cpu_work units = fst (Cpu.cpu_work_counted units)
  /\ Z.of_nat (snd (Cpu.cpu_work_counted units)) = units
  /\ forall units', units' = units ->
       Cpu.cpu_work_counted units' = Cpu.cpu_work_counted units.
Proof.
  intros Hu.
  assert (Hc : Cpu.cpu_work_counted units
               = (Cpu.cpu_work units, Z.to_nat units)).
  { unfold Cpu.cpu_work_counted. rewrite cpu_work_counted_spec, range_length.
    reflexivity. }
  rewrite Hc. cbn [fst snd]. repeat split.
  - f_equal. rewrite <- (Z2Nat.id units) at 1 by lia. apply cpu_work_nat.
  - lia.
  - intros units' ->. exact Hc.
Qed.

Lemma cpu_work_deterministic_recurrence_witness :
  0 <= 3
  /\ Cpu.cpu_work_counted 3 = (Cpu.lcg_recurrence (Z.to_nat 3), Z.to_nat 3)
  /\ Cpu.cpu_work 3 = fst (Cpu.cpu_work_counted 3)
  /\ Z.of_nat (snd (Cpu.cpu_work_counted 3)) = 3
  /\ forall units', units' = 3 ->
       Cpu.cpu_work_counted units' = Cpu.cpu_work_counted 3.
Proof. split; [lia | apply (cpu_work_deterministic_recurrence 3); lia]. Defined.

(** C9. The value of [cpu_work units] is in [0, 2^32) for every [units]:
    the mask keeps the accumulator in that range at every iteration. *)
Theorem cpu_work_in_uint32 (units : Z) :
  0 <= Cpu.cpu_work units < 2 ^ 32.
Proof. unfold Cpu.cpu_work. apply fold_cpu_step_range. lia. Qed.

(** ** Facts about the statistics *)

Section StatsFacts.
Import Stats.

Lemma getitem_nth {A} (xs : list A) (k : nat) (d : A) :
  (k < length xs)%nat -> getitem xs (Z.of_nat k) = Ok (nth k xs d).
Proof.
  intros Hk. unfold getitem.
  replace (Z.of_nat k <? 0) with false by (symmetry; apply Z.ltb_ge; lia).
  replace (0 <=? Z.of_nat k) with true by (symmetry; apply Z.leb_le; lia).
  replace (Z.of_nat k <? Z.of_nat (length xs)) with true
    by (symmetry; apply Z.ltb_lt; lia).
  cbn [andb]. rewrite Nat2Z.id.
  destruct (xs !! k) as [x|] eqn:Hx.
  - f_equal. symmetry. apply nth_lookup_Some with (d := d) in Hx. exact Hx.
  - apply lookup_ge_None in Hx. lia.
Qed.

Lemma sorted_ascending (xs : list Q) : Sorted Qle (sorted xs).
Proof.
  unfold sorted.
  induction (QSort.Sorted_sort xs) as [|a l _ IH Hhd]; constructor; [exact IH|].
  destruct Hhd as [|b l' Hab]; constructor.
  apply Qle_bool_iff. exact Hab.
Qed.

Lemma sorted_permutation (xs : list Q) : Permutation xs (sorted xs).
Proof. apply QSort.Permuted_sort. Qed.

Lemma sorted_length (xs : list Q) : length (sorted xs) = length xs.
Proof. symmetry. apply Permutation_length, sorted_permutation. Qed.

Lemma statistics_median_conventional (xs : list Q) :
  xs <> [] -> statistics_median xs = Ok (conventional_median (sorted xs)).
Proof.
  intros Hne. unfold statistics_median, conventional_median.
  set (s := sorted xs).
  assert (Hlen : (0 < length s)%nat).
  { subst s. rewrite sorted_length. destruct xs; [congruence | cbn; lia]. }
  replace (Z.of_nat (length s) =? 0) with false by (symmetry; apply Z.eqb_neq; lia).
  assert (Hhalf : Z.of_nat (length s) / 2 = Z.of_nat (length s / 2)).
  { rewrite Nat2Z.inj_div. reflexivity. }
  assert (Hlt : (length s / 2 < length s)%nat).
  { apply Nat.div_lt; lia. }
  rewrite Hhalf.
  destruct (Nat.odd (length s)) eqn:Hodd.
  - assert (Hm : Z.of_nat (length s) mod 2 = 1).
    { apply Nat.odd_spec in Hodd. destruct Hodd as [m Hm]. rewrite Hm.
      rewrite Nat2Z.inj_add, Nat2Z.inj_mul. change (Z.of_nat 2) with 2.
      change (Z.of_nat 1) with 1. rewrite Z.add_comm, Z.mul_comm.
      rewrite Z.mod_add by lia. reflexivity. }
    rewrite Hm. cbn [Z.eqb Pos.eqb].
    apply getitem_nth. exact Hlt.
  - assert (Heven : Nat.even (length s) = true).
    { rewrite <- Nat.negb_odd, Hodd. reflexivity. }
    apply Nat.even_spec in Heven. destruct Heven as [m Hm].
    assert (Hm0 : Z.of_nat (length s) mod 2 = 0).
    { rewrite Hm, Nat2Z.inj_mul. change (Z.of_nat 2) with 2.
      rewrite Z.mul_comm. apply Z.mod_mul. lia. }
    rewrite Hm0. cbn [Z.eqb].
    assert (Hdiv : (length s / 2 = m)%nat).
    { rewrite Hm, Nat.mul_comm. apply Nat.div_mul. lia. }
    assert (Hpos : (1 <= m)%nat) by lia.
    replace (Z.of_nat (length s / 2) - 1) with (Z.of_nat (length s / 2 - 1)) by lia.
    rewrite (getitem_nth s (length s / 2 - 1) 0%Q) by lia.
    cbn [obind]. rewrite (getitem_nth s (length s / 2) 0%Q) by lia.
    reflexivity.
Qed.

End StatsFacts.

(** C8. For a [Result] whose list of durations is not empty, [med] is the
    conventional median of the durations: with the durations put in
    ascending order, the middle one when their number is odd, and the mean
    of the two middle ones when it is even. *)
Theorem med_is_conventional_median (r : Stats.Result) :
  Stats.runs r <> [] ->
  exists ascending : list Q,
    Sorted Qle ascending
    /\ Permutation (Stats.runs r) ascending
    /\ Stats.med r = Ok (Num (Stats.conventional_median ascending)).
Proof.
  intros Hne. exists (Stats.sorted (Stats.runs r)).
  split; [apply sorted_ascending|]. split; [apply sorted_permutation|].
  unfold Stats.med, Stats.median.
  destruct (Stats.runs r) as [|x xs] eqn:Hr; [congruence|].
  cbn [Stats.truthy]. rewrite statistics_median_conventional by congruence.
  reflexivity.
Qed.

(** ** Facts about the trial runner *)

Section RunnerFacts.
Import Stats Runner.
Context {W : Type} (clock_read : W -> Q * W).

Abbreviation call := (@Runner.call W).
Abbreviation now := (Runner.now clock_read).

Lemma run_repeated_unfold label repeats fn warmup :
  run_repeated clock_read label repeats fn warmup
  = (for_each (range warmup) (fun _ => call fn) ;;;
     runs <- for_fold (range repeats) [] (measured_body clock_read fn) ;;
     ret (mkResult label runs))%py.
Proof. reflexivity. Qed.

Lemma runners_agree run :
  In run (runners clock_read) -> run = run_repeated clock_read.
Proof.
  unfold runners. cbn [In].
  intros [<- | [<- | [<- | []]]]; reflexivity.
Qed.

Lemma warmup_trace (fn : M W unit) (xs : list Z) (s s' : rstate W) u :
  for_each xs (fun _ => call fn) s = (Ok u, s') ->
  log s' = log s ++ repeat EvCall (length xs).
Proof.
  revert s. induction xs as [|x xs IH]; intros s H; cbn in H.
  - unfold ret in H. injection H as _ <-. cbn. by rewrite app_nil_r.
  - unfold bind in H at 1. unfold Runner.call in H at 1.
    destruct (fn (env s)) as [[[]|e] w]; [|discriminate].
    apply IH in H. cbn [log] in H. rewrite H, <- app_assoc. reflexivity.
Qed.


(** One measured trial: two readings around one execution. *)
Lemma measured_body_inv (fn : M W unit) (i : Z) (runs runs' : list Q)
    (s s' : rstate W) :
  measured_body clock_read fn i runs s = (Ok runs', s') ->
  exists w1 u w2,
    fn (snd (clock_read (env s))) = (Ok u, w1)
    /\ w2 = snd (clock_read w1)
    /\ env s' = w2
    /\ let t := (fst (clock_read (env s)), fst (clock_read w1)) in
       runs' = runs ++ [trial_duration t]
       /\ log s' = log s ++ trial_events t.
Proof.
  unfold measured_body, bind, Runner.now, Runner.call, ret. cbn [env log].
  destruct (clock_read (env s)) as [t0 w0] eqn:H0. cbn [env log fst snd].
  destruct (fn w0) as [[u|e] w1] eqn:Hf; [|discriminate]. cbn [env log].
  destruct (clock_read w1) as [t1 w2] eqn:H1. cbn [env log fst snd].
  intros H. injection H as <- <-.
  exists w1, u, w2. rewrite H1. cbn [env log fst snd]. repeat split.
  unfold trial_events. cbn [fst snd]. rewrite <- !app_assoc. reflexivity.
Qed.

Lemma measured_trace (fn : M W unit) (xs : list Z) (acc runs : list Q)
    (s s' : rstate W) :
  for_fold xs acc (measured_body clock_read fn) s = (Ok runs, s') ->
  exists ts : list (Q * Q),
    length ts = length xs
    /\ runs = acc ++ map trial_duration ts
    /\ log s' = log s ++ concat (map trial_events ts).
Proof.
  revert acc s. induction xs as [|x xs IH]; intros acc s H; cbn [for_fold] in H.
  - unfold ret in H. injection H as <- <-. exists [].
    cbn. by rewrite !app_nil_r.
  - unfold bind in H at 1.
    destruct (measured_body clock_read fn x acc s) as [[acc1|e] s1] eqn:Hb; [|discriminate].
    apply measured_body_inv in Hb as (w1 & u & w2 & _ & _ & _ & Hr & Hl).
    apply IH in H as (ts & Hlen & Hruns & Hlog).
    eexists (_ :: ts). cbn [length map concat]. split; [by rewrite Hlen|].
    rewrite Hruns, Hr, Hlog, Hl, <- !app_assoc. split; reflexivity.
Qed.

Lemma measured_nonneg (elapsed : W -> Q) (fn : M W unit) (xs : list Z)
    (acc runs : list Q) (s s' : rstate W) :
  monotonic_clock clock_read elapsed ->
  keeps_time elapsed fn ->
  Forall (Qle 0) acc ->
  for_fold xs acc (measured_body clock_read fn) s = (Ok runs, s') ->
  Forall (Qle 0) runs.
Proof.
  intros Hclock Hfn. revert acc s.
  induction xs as [|x xs IH]; intros acc s Hacc H; cbn [for_fold] in H.
  - unfold ret in H. by injection H as <- <-.
  - unfold bind in H at 1.
    destruct (measured_body clock_read fn x acc s) as [[acc1|e] s1] eqn:Hb; [|discriminate].
    apply measured_body_inv in Hb as (w1 & u & w2 & Hf & _ & _ & Hr & _).
    apply IH in H; [exact H|]. rewrite Hr.
    apply Forall_app. split; [exact Hacc|]. constructor; [|constructor].
    unfold trial_duration. cbn [fst snd].
    pose proof (Hclock (env s)) as [_ H0].
    pose proof (Hclock w1) as [H1 _].
    apply Hfn in Hf. lra.
Qed.

Lemma calls_app (tr1 tr2 : list event) :
  calls (tr1 ++ tr2) = (calls tr1 + calls tr2)%nat.
Proof. unfold calls. by rewrite List.filter_app, length_app. Qed.

Lemma calls_warmup (n : nat) : calls (repeat EvCall n) = n.
Proof.
  unfold calls. induction n as [|n IH]; [reflexivity|].
  cbn. by rewrite IH.
Qed.

Lemma calls_trials (ts : list (Q * Q)) :
  calls (concat (map trial_events ts)) = length ts.
Proof.
  induction ts as [|t ts IH]; [reflexivity|].
  cbn [map concat]. rewrite calls_app, IH. reflexivity.
Qed.

(** A successful run: the trace it adds and the list it returns. *)
Lemma run_repeated_trace label repeats fn warmup (s s' : rstate W) res :
  run_repeated clock_read label repeats fn warmup s = (Ok res, s') ->
  exists ts : list (Q * Q),
    length ts = Z.to_nat repeats
    /\ res = mkResult label (map trial_duration ts)
    /\ log s' = log s ++ repeat EvCall (Z.to_nat warmup)
                      ++ concat (map trial_events ts).
Proof.
  rewrite run_repeated_unfold. unfold bind at 1.
  destruct (for_each _ _ s) as [[u|e] s1] eqn:Hw; [|discriminate].
  unfold bind at 1.
  destruct (for_fold _ _ _ s1) as [[runs|e] s2] eqn:Hm; [|discriminate].
  unfold ret. intros H. injection H as <- <-.
  apply warmup_trace in Hw. apply measured_trace in Hm as (ts & Hlen & Hruns & Hlog).
  rewrite range_length in *. exists ts. split; [exact Hlen|].
  split; [by rewrite Hruns|]. rewrite Hlog, Hw, <- app_assoc. reflexivity.
Qed.

Lemma run_repeated_nonneg (elapsed : W -> Q) label repeats fn warmup
    (s s' : rstate W) res :
  monotonic_clock clock_read elapsed ->
  keeps_time elapsed fn ->
  run_repeated clock_read label repeats fn warmup s = (Ok res, s') ->
  Forall (Qle 0) (runs res).
Proof.
  intros Hclock Hfn. rewrite run_repeated_unfold. unfold bind at 1.
  destruct (for_each _ _ s) as [[u|e] s1] eqn:Hw; [|discriminate].
  unfold bind at 1.
  destruct (for_fold _ _ _ s1) as [[rs|e] s2] eqn:Hm; [|discriminate].
  unfold ret. intros H. injection H as <- <-. cbn [runs].
  eapply measured_nonneg; eauto.
Qed.

(** The runner cannot fail by itself: it succeeds when the invocation
    does. *)
Lemma for_each_call_total (fn : M W unit) (xs : list Z) (s : rstate W) :
  (forall w, exists w', fn w = (Ok tt, w')) ->
  exists s', for_each xs (fun _ => call fn) s = (Ok tt, s').
Proof.
  intros Hfn. revert s. induction xs as [|x xs IH]; intros s; cbn.
  - eexists. reflexivity.
  - unfold bind at 1. unfold Runner.call at 1. destruct (Hfn (env s)) as [w' ->]. apply IH.
Qed.

Lemma measured_total (fn : M W unit) (xs : list Z) (acc : list Q) (s : rstate W) :
  (forall w, exists w', fn w = (Ok tt, w')) ->
  exists runs s', for_fold xs acc (measured_body clock_read fn) s = (Ok runs, s').
Proof.
  intros Hfn. revert acc s. induction xs as [|x xs IH]; intros acc s; cbn [for_fold].
  - do 2 eexists. reflexivity.
  - unfold bind at 1.
    unfold measured_body, bind, Runner.now, Runner.call, ret. cbn [env log].
    destruct (clock_read (env s)) as [t0 w0]. cbn [env log].
    destruct (Hfn w0) as [w1 ->]. cbn [env log].
    destruct (clock_read w1) as [t1 w2]. apply IH.
Qed.

Lemma run_repeated_total label repeats fn warmup (s : rstate W) :
  (forall w, exists w', fn w = (Ok tt, w')) ->
  exists res s', run_repeated clock_read label repeats fn warmup s = (Ok res, s').
Proof.
  intros Hfn. rewrite run_repeated_unfold. unfold bind at 1.
  destruct (for_each_call_total fn (range warmup) s Hfn) as [s1 ->].
  unfold bind at 1.
  destruct (measured_total fn (range repeats) [] s1 Hfn) as (runs & s2 & ->).
  do 2 eexists. reflexivity.
Qed.

(** The runner against the two phases: what it returns or raises, and the
    world it leaves, on every run. *)
Lemma warmup_refines (fn : M W unit) (xs : list Z) (s : rstate W) :
  (fst (for_each xs (fun _ => call fn) s),
   env (snd (for_each xs (fun _ => call fn) s)))
  = warmup_phase (length xs) fn (env s).
Proof.
  revert s. induction xs as [|x xs IH]; intros s;
    cbn [for_each length warmup_phase]; [reflexivity|].
  unfold bind at 1 2. unfold Runner.call at 1 3.
  destruct (fn (env s)) as [[[]|e] w]; [|reflexivity].
  rewrite IH. reflexivity.
Qed.

Lemma measured_refines (fn : M W unit) (xs : list Z) (acc : list Q)
    (s : rstate W) :
  (fst (for_fold xs acc (measured_body clock_read fn) s),
   env (snd (for_fold xs acc (measured_body clock_read fn) s)))
  = match measured_phase clock_read (length xs) fn (env s) with
    | (Ok ts, w) => (Ok (acc ++ map trial_duration ts), w)
    | (Raise e, w) => (Raise e, w)
    end.
Proof.
  revert acc s. induction xs as [|x xs IH]; intros acc s;
    cbn [for_fold length measured_phase].
  - cbn. by rewrite app_nil_r.
  - unfold bind at 1 2.
    unfold measured_body, bind, Runner.now, Runner.call, ret. cbn [env log].
    destruct (clock_read (env s)) as [t0 w0]. cbn [env log].
    destruct (fn w0) as [[[]|e] w1]; [|reflexivity]. cbn [env log].
    destruct (clock_read w1) as [t1 w2].
    rewrite IH. cbn [env].
    destruct (measured_phase clock_read (length xs) fn w2) as [[ts|e] w3];
      [|reflexivity].
    cbn [map]. unfold trial_duration at 2. cbn [fst snd].
    by rewrite <- app_assoc.
Qed.

Lemma run_repeated_refines label repeats fn warmup (s : rstate W) :
  (fst (run_repeated clock_read label repeats fn warmup s),
   env (snd (run_repeated clock_read label repeats fn warmup s)))
  = executes clock_read label repeats fn warmup (env s).
Proof.
  rewrite run_repeated_unfold. unfold executes, bind at 1 3.
  pose proof (warmup_refines fn (range warmup) s) as Hw.
  rewrite range_length in Hw. rewrite <- Hw.
  destruct (for_each _ _ s) as [[[]|e] s1]; [|reflexivity]. cbn [fst snd].
  unfold bind at 1 2.
  pose proof (measured_refines fn (range repeats) [] s1) as Hm.
  rewrite range_length in Hm.
  destruct (for_fold _ _ _ s1) as [[rs|e] s2]; cbn [fst snd] in Hm |- *;
    destruct (measured_phase clock_read (Z.to_nat repeats) fn (env s1))
      as [[ts|e'] w2]; try discriminate; injection Hm as Hm1 Hm2;
      cbn [ret fst snd]; congruence.
Qed.

(** A successful measured loop: its trials are those of the phase. *)
Lemma measured_phase_trace (fn : M W unit) (xs : list Z) (acc runs : list Q)
    (s s' : rstate W) :
  for_fold xs acc (measured_body clock_read fn) s = (Ok runs, s') ->
  exists ts : list (Q * Q),
    measured_phase clock_read (length xs) fn (env s) = (Ok ts, env s')
    /\ length ts = length xs
    /\ runs = acc ++ map trial_duration ts
    /\ log s' = log s ++ concat (map trial_events ts).
Proof.
  revert acc s. induction xs as [|x xs IH]; intros acc s H;
    cbn [for_fold length measured_phase] in *.
  - unfold ret in H. injection H as <- <-. exists [].
    cbn. by rewrite !app_nil_r.
  - unfold bind in H at 1.
    destruct (measured_body clock_read fn x acc s) as [[acc1|e] s1] eqn:Hb;
      [|discriminate].
    apply measured_body_inv in Hb as (w1 & u & w2 & Hf & Hw2 & Hs1 & Hr & Hl).
    apply IH in H as (ts & Hph & Hlen & Hruns & Hlog).
    destruct (clock_read (env s)) as [t0 w0]. cbn [fst snd] in *.
    rewrite Hf. destruct (clock_read w1) as [t1 w3]. cbn [fst snd] in *.
    subst w2. rewrite <- Hs1, Hph.
    exists ((t0, t1) :: ts). cbn [length map concat].
    split; [reflexivity|]. split; [by rewrite Hlen|].
    rewrite Hruns, Hr, Hlog, Hl, <- !app_assoc. split; reflexivity.
Qed.

Lemma run_repeated_phases label repeats fn warmup (s s' : rstate W) res :
  run_repeated clock_read label repeats fn warmup s = (Ok res, s') ->
  exists (ts : list (Q * Q)) (w1 : W),
    length ts = Z.to_nat repeats
    /\ res = mkResult label (map trial_duration ts)
    /\ log s' = log s ++ repeat EvCall (Z.to_nat warmup)
                      ++ concat (map trial_events ts)
    /\ warmup_phase (Z.to_nat warmup) fn (env s) = (Ok tt, w1)
    /\ measured_phase clock_read (Z.to_nat repeats) fn w1 = (Ok ts, env s').
Proof.
  rewrite run_repeated_unfold. unfold bind at 1.
  pose proof (warmup_refines fn (range warmup) s) as Hph.
  destruct (for_each _ _ s) as [[[]|e] s1] eqn:Hw; [|discriminate].
  unfold bind at 1.
  destruct (for_fold _ _ _ s1) as [[runs|e] s2] eqn:Hm; [|discriminate].
  unfold ret. intros H. injection H as <- <-.
  apply warmup_trace in Hw.
  apply measured_phase_trace in Hm as (ts & Hm & Hlen & Hruns & Hlog).
  rewrite range_length in *. cbn [fst snd] in Hph.
  exists ts, (env s1). split; [exact Hlen|].
  split; [by rewrite Hruns|].
  split; [rewrite Hlog, Hw, <- app_assoc; reflexivity|].
  split; [by rewrite <- Hph | exact Hm].
Qed.

Lemma warmup_counted (n : nat) (fn : M W unit) (w w' : W) (c : nat) u :
  warmup_phase n fn w = (Ok u, w') ->
  warmup_phase n (counted fn) (w, c) = (Ok u, (w', (c + n)%nat)).
Proof.
  revert w c. induction n as [|n IH]; intros w c; cbn [warmup_phase counted].
  - intros H. injection H as <- <-. by rewrite Nat.add_0_r.
  - destruct (fn w) as [[[]|e] w1]; [|discriminate].
    intros H. rewrite (IH _ (S c) H). do 2 f_equal. lia.
Qed.

Lemma measured_counted (n : nat) (fn : M W unit) (w w' : W) (c : nat) ts :
  measured_phase clock_read n fn w = (Ok ts, w') ->
  measured_phase (counted_clock clock_read) n (counted fn) (w, c)
  = (Ok ts, (w', (c + n)%nat)).
Proof.
  revert w c ts. induction n as [|n IH]; intros w c ts;
    cbn [measured_phase counted counted_clock].
  - intros H. injection H as <- <-. by rewrite Nat.add_0_r.
  - destruct (clock_read w) as [t0 w0].
    unfold counted at 1.
    destruct (fn w0) as [[[]|e] w1]; [|discriminate].
    unfold counted_clock at 1.
    destruct (clock_read w1) as [t1 w2].
    destruct (measured_phase clock_read n fn w2) as [[ts'|e] w3] eqn:Hm;
      [|discriminate].
    intros H. injection H as <- <-. rewrite (IH _ (S c) _ Hm).
    do 2 f_equal. lia.
Qed.

End RunnerFacts.

Section RunnerClaims.
Import Stats Runner.
Context {W : Type} (clock_read : W -> Q * W).

(** C1. A successful call of a trial runner ([run_repeated],
    [run_repeated_async], [run_repeated_blocking]) with [repeats >= 1] and
    [warmup >= 0] returns a [Result] with exactly [repeats] durations,
    none of them negative when the clock is monotonic, the [k]-th one
    being the duration of the [k]-th measured trial of the trace. *)
Theorem run_repeated_durations run label repeats fn warmup
    (elapsed : W -> Q) (s s' : rstate W) res :
  In run (runners clock_read) ->
  1 <= repeats -> 0 <= warmup ->
  monotonic_clock clock_read elapsed ->
  keeps_time elapsed fn ->
  run label repeats fn warmup s = (Ok res, s') ->
  Z.of_nat (length (runs res)) = repeats
  /\ Forall (Qle 0) (runs res)
  /\ exists trials : list (Q * Q),
       log s' = log s ++ repeat EvCall (Z.to_nat warmup)
                      ++ concat (map trial_events trials)
       /\ runs res = map trial_duration trials.
Proof.
  intros Hrun Hr Hw Hclock Hfn H.
  apply runners_agree in Hrun. subst run.
  pose proof (run_repeated_nonneg _ _ _ _ _ _ _ _ _ Hclock Hfn H) as Hpos.
  apply run_repeated_trace in H as (ts & Hlen & -> & Hlog).
  cbn [runs] in *. split; [rewrite length_map, Hlen; lia|].
  split; [exact Hpos|]. exists ts. split; [exact Hlog | reflexivity].
Qed.

(** C6. A successful call of a trial runner with [warmup >= 0] and
    [repeats >= 0] executes the invocation [warmup + repeats] times:
    first [warmup] executions with no reading of the clock, of which
    nothing is recorded, then [repeats] executions each between two
    readings, whose durations are the list of the [Result].  The
    executions are those of [fn] itself, each of which returned: the
    world the call leaves is the one that [warmup] executions of [fn] in
    a row, then [repeats] trials of a reading, an execution of [fn] and a
    reading, lead to from the world of the call.  And an invocation that
    counts its own executions has counted [warmup + repeats] more of them
    when the same call returns. *)
Theorem run_repeated_call_count run label repeats fn warmup
    (s s' : rstate W) res :
  In run (runners clock_read) ->
  0 <= warmup -> 0 <= repeats ->
  run label repeats fn warmup s = (Ok res, s') ->
  (exists (tr : list event) (trials : list (Q * Q)) (w1 : W),
    log s' = log s ++ tr
    /\ Z.of_nat (calls tr) = warmup + repeats
    /\ tr = repeat EvCall (Z.to_nat warmup) ++ concat (map trial_events trials)
    /\ Z.of_nat (length trials) = repeats
    /\ runs res = map trial_duration trials
    /\ warmup_phase (Z.to_nat warmup) fn (env s) = (Ok tt, w1)
    /\ measured_phase clock_read (Z.to_nat repeats) fn w1
       = (Ok trials, env s'))
  /\ (forall run_c (c : nat) (lg : list event),
        In run_c (runners (counted_clock clock_read)) ->
        exists s2 : rstate (W * nat),
          run_c label repeats (counted fn) warmup (mkState (env s, c) lg)
          = (Ok res, s2)
          /\ fst (env s2) = env s'
          /\ Z.of_nat (snd (env s2)) = Z.of_nat c + warmup + repeats).
Proof.
  intros Hrun Hw Hr H.
  apply runners_agree in Hrun. subst run.
  apply run_repeated_phases in H as (ts & w1 & Hlen & -> & Hlog & Hwp & Hmp).
  split.
  - eexists _, ts, w1. split; [exact Hlog|].
    rewrite calls_app, calls_warmup, calls_trials, Hlen. cbn [runs].
    repeat split; try lia; assumption.
  - intros run_c c lg Hc. apply runners_agree in Hc. subst run_c.
    pose proof (run_repeated_refines (counted_clock clock_read) label repeats
                  (counted fn) warmup (mkState (env s, c) lg)) as Href.
    unfold executes in Href. cbn [env] in Href.
    rewrite (warmup_counted _ _ _ _ c _ Hwp) in Href.
    rewrite (measured_counted clock_read _ _ _ _ _ _ Hmp) in Href.
    destruct (run_repeated _ _ _ _ _ _) as [o s2]. cbn [fst snd] in Href.
    injection Href as -> Henv. exists s2. rewrite Henv. cbn [fst snd].
    split; [reflexivity|]. split; [reflexivity|]. lia.
Qed.

(** C10. The statistics of a [Result] with no durations are defined:
    [med], [min] and [max] each return NaN and none raises. A runner
    called with [repeats = 0] does what its warmup loop does and then
    returns the [Result] with no durations: it returns it whenever the
    invocation does not fail, and in every case when [warmup = 0]. *)
Theorem empty_result_is_total run label fn warmup (s : rstate W) :
  In run (runners clock_read) ->
  (med (mkResult label []) = Ok NaN
   /\ min (mkResult label []) = Ok NaN
   /\ max (mkResult label []) = Ok NaN)
  /\ run label 0 fn warmup s
     = (for_each (range warmup) (fun _ => call fn) ;;;
        ret (mkResult label []))%py s
  /\ run label 0 fn 0 s = (Ok (mkResult label []), s)
  /\ ((forall w, exists w', fn w = (Ok tt, w')) ->
      exists s', run label 0 fn warmup s = (Ok (mkResult label []), s')).
Proof.
  intros Hrun. apply runners_agree in Hrun. subst run.
  split; [repeat split|]. split; [reflexivity|]. split; [reflexivity|].
  intros Hfn. rewrite run_repeated_unfold. unfold bind at 1.
  destruct (for_each_call_total fn (range warmup) s Hfn) as [s1 ->].
  eexists. reflexivity.
Qed.

End RunnerClaims.

Lemma run_repeated_durations_witness :
  exists res s',
    Runner.run_repeated Runner.wall_clock "threads" 2 Runner.one_second 1
      (Runner.mkState 0%Q []) = (Ok res, s')
    /\ Z.of_nat (length (Stats.runs res)) = 2
    /\ Forall (Qle 0) (Stats.runs res)
    /\ exists trials : list (Q * Q),
         Runner.log s' = [] ++ repeat Runner.EvCall (Z.to_nat 1)
                            ++ concat (map Runner.trial_events trials)
         /\ Stats.runs res = map Runner.trial_duration trials.
Proof.
  eexists. eexists. split; [cbv; reflexivity|].
  apply (run_repeated_durations Runner.wall_clock
           (Runner.run_repeated Runner.wall_clock) "threads" 2
           Runner.one_second 1 (fun t => t) (Runner.mkState 0%Q [])).
  - left. reflexivity.
  - lia.
  - lia.
  - intros w. split; apply Qle_refl.
  - intros w u w' H. injection H as _ <-. cbn beta. lra.
  - reflexivity.
Defined.

Lemma run_repeated_call_count_witness :
  exists res s' (tr : list Runner.event) (trials : list (Q * Q)) (w1 : Q),
    Runner.run_repeated_async Runner.wall_clock "asyncio" 2 Runner.one_second 3
      (Runner.mkState 0%Q []) = (Ok res, s')
    /\ (Runner.log s' = [] ++ tr
        /\ Z.of_nat (Runner.calls tr) = 3 + 2
        /\ tr = repeat Runner.EvCall (Z.to_nat 3)
                ++ concat (map Runner.trial_events trials)
        /\ Z.of_nat (length trials) = 2
        /\ Stats.runs res = map Runner.trial_duration trials
        /\ Runner.warmup_phase (Z.to_nat 3) Runner.one_second 0%Q = (Ok tt, w1)
        /\ Runner.measured_phase Runner.wall_clock (Z.to_nat 2)
             Runner.one_second w1 = (Ok trials, Runner.env s'))
    /\ exists s2 : Runner.rstate (Q * nat),
         Runner.run_repeated_blocking (Runner.counted_clock Runner.wall_clock)
           "asyncio" 2 (Runner.counted Runner.one_second) 3
           (Runner.mkState (0%Q, 7%nat) []) = (Ok res, s2)
         /\ fst (Runner.env s2) = Runner.env s'
         /\ Z.of_nat (snd (Runner.env s2)) = Z.of_nat 7 + 3 + 2.
Proof.
  eexists. eexists.
  destruct (run_repeated_call_count Runner.wall_clock
              (Runner.run_repeated_async Runner.wall_clock) "asyncio" 2
              Runner.one_second 3 (Runner.mkState 0%Q []) _ _
              ltac:(right; left; reflexivity) ltac:(lia) ltac:(lia) eq_refl)
    as [(tr & trials & w1 & H) Hc].
  exists tr, trials, w1. split; [reflexivity|]. split; [exact H|].
  exact (Hc (Runner.run_repeated_blocking (Runner.counted_clock Runner.wall_clock))
            7%nat [] ltac:(right; right; left; reflexivity)).
Defined.

Lemma empty_result_is_total_witness :
  Runner.run_repeated_blocking Runner.wall_clock "processes" 0
    Runner.one_second 0 (Runner.mkState 0%Q [])
  = (Ok (Stats.mkResult "processes" []), Runner.mkState 0%Q [])
  /\ Stats.med (Stats.mkResult "processes" []) = Ok NaN.
Proof.
  destruct (empty_result_is_total Runner.wall_clock
              (Runner.run_repeated_blocking Runner.wall_clock) "processes"
              Runner.one_second 0 (Runner.mkState 0%Q [])
              ltac:(right; right; left; reflexivity))
    as ((Hmed & _) & _ & Hrun & _).
  split; [exact Hrun | exact Hmed].
Defined.

Lemma med_is_conventional_median_witness :
  exists ascending : list Q,
    Sorted Qle ascending
    /\ Permutation [3; 1; 4; 2]%Q ascending
    /\ Stats.med (Stats.mkResult "threads" [3; 1; 4; 2]%Q)
       = Ok (Num (Stats.conventional_median ascending)).
Proof.
  apply (med_is_conventional_median (Stats.mkResult "threads" [3; 1; 4; 2]%Q)).
  simpl. discriminate.
Defined.

(** ** Facts about the echo workload *)

Section EchoFacts.
Import Echo.

Lemma take_chunk_spec (n : nat) (ib : list delivery) :
  (0 < n)%nat ->
  match take_chunk n ib with
  | (Ok chunk, ib') =>
      (length chunk <= n)%nat
      /\ delivered ib = (chunk ++ fst (delivered ib'), snd (delivered ib'))
      /\ (chunk = [] -> delivered ib = ([], Closed))
  | (Raise e, ib') => e = TimeoutError /\ delivered ib = ([], Stalled)
  end.
Proof.
  intros Hn. induction ib as [|[data|] rest IH]; cbn [take_chunk].
  - repeat split; cbn; lia.
  - destruct data as [|b data].
    + destruct (take_chunk n rest) as [[chunk|e] ib'].
      * cbn [delivered]. destruct (delivered rest) as [more e].
        destruct IH as (Hlen & Hd & Hnil). cbn [app]. repeat split; auto.
      * cbn [delivered]. destruct (delivered rest) as [more e'].
        destruct IH as (-> & Hd). split; [reflexivity|]. cbn [app]. exact Hd.
    + split; [rewrite length_take; lia|].
      assert (Hsplit : b :: data = take n (b :: data) ++ drop n (b :: data))
        by (symmetry; apply take_drop).
      split.
      * cbn [delivered]. destruct (delivered rest) as [more e] eqn:Hrest.
        destruct (drop n (b :: data)) as [|c unread] eqn:Hdrop.
        -- rewrite Hrest. cbn [fst snd]. rewrite app_nil_r in Hsplit.
           by rewrite <- Hsplit.
        -- cbn [delivered]. rewrite Hrest. cbn [fst snd].
           rewrite app_assoc, <- Hsplit. reflexivity.
      * destruct n as [|n]; [lia|]. cbn [take]. discriminate.
  - split; reflexivity.
Qed.

Lemma recv_spec (n : Z) (s s' : net) (r : outcome bytes) :
  0 < n ->
  recv n s = (r, s') ->
  refuse s' = refuse s /\ reject s' = reject s
  /\ match r with
     | Ok chunk =>
         (length chunk <= Z.to_nat n)%nat
         /\ delivered (inbox s)
            = (chunk ++ fst (delivered (inbox s')), snd (delivered (inbox s')))
         /\ (chunk = [] -> delivered (inbox s) = ([], Closed))
         /\ wire s' = wire s ++ [WRecv n chunk]
     | Raise e =>
         e = TimeoutError /\ delivered (inbox s) = ([], Stalled)
         /\ wire s' = wire s
     end.
Proof.
  intros Hn. unfold recv.
  replace (n <? 0) with false by (symmetry; apply Z.ltb_ge; lia).
  pose proof (take_chunk_spec (Z.to_nat n) (inbox s) ltac:(lia)) as Hc.
  destruct (take_chunk (Z.to_nat n) (inbox s)) as [[chunk|e] ib].
  - intros H. injection H as <- <-. cbn. tauto.
  - intros H. injection H as <- <-. cbn. tauto.
Qed.

Lemma recv_loop_spec (payload recvd : bytes) (s : net) :
  (length recvd <= length payload)%nat ->
  fst (recv_loop payload recvd s)
  = (if (length payload - length recvd <=? length (fst (delivered (inbox s))))%nat
     then Ok (recvd ++ take (length payload - length recvd)
                          (fst (delivered (inbox s))))
     else match snd (delivered (inbox s)) with
          | Closed => Raise (RuntimeError "Socket closed early")
          | Stalled => Raise TimeoutError
          end)
  /\ refuse (snd (recv_loop payload recvd s)) = refuse s
  /\ reject (snd (recv_loop payload recvd s)) = reject s
  /\ exists tr,
       wire (snd (recv_loop payload recvd s)) = wire s ++ tr
       /\ concat (received tr)
          = take (length payload - length recvd) (fst (delivered (inbox s)))
       /\ (In [] (received tr)
           <-> fst (recv_loop payload recvd s)
               = Raise (RuntimeError "Socket closed early")).
Proof.
  funelim (recv_loop payload recvd s); intros Hle;
    rewrite <- ?Heqcall; cbn [fst snd].
  - (* the loop is left: nothing more is needed *)
    unfold len in *.
    match goal with E : _ = false |- _ =>
      pose proof (proj1 (Z.ltb_ge _ _) E) as Hge end.
    replace (length payload - length recvd)%nat with O by lia.
    cbn [Nat.leb take]. rewrite app_nil_r. repeat split.
    exists []. rewrite app_nil_r. repeat split; [intros [] | discriminate].
  - (* the peer has closed *)
    unfold len in *. pose proof (proj1 (Z.ltb_lt _ _) Hlt) as Hlt'.
    apply recv_spec in Heq as (Hrf & Hrj & _ & _ & Hnil & Hw); [|lia].
    rewrite (Hnil eq_refl). cbn [fst snd length].
    replace (_ <=? 0)%nat with false by (symmetry; apply Nat.leb_gt; lia).
    repeat split; [exact Hrf | exact Hrj |].
    eexists. split; [exact Hw|]. cbn. rewrite take_nil.
    repeat split. by left.
  - (* a chunk has arrived *)
    unfold len in *. pose proof (proj1 (Z.ltb_lt _ _) Hlt) as Hlt'.
    apply recv_spec in Heq as (Hrf & Hrj & Hlen & Hd & _ & Hw); [|lia].
    cbn [length] in Hlen.
    match goal with IH : _ -> _ |- _ =>
      destruct IH as (Hres & Hrf' & Hrj' & tr & Hw' & Hrecv & Hnil) end.
    { rewrite length_app. cbn [length]. lia. }
    rewrite length_app in Hres, Hrecv. cbn [length] in Hres, Hrecv.
    rewrite Hd. cbn [fst snd].
    set (more := fst (delivered (inbox s'))) in *.
    assert (Htake : take (length payload - length recvd) ((b :: chunk) ++ more)
                    = (b :: chunk)
                      ++ take (length payload - (length recvd + S (length chunk)))
                           more).
    { rewrite take_app. rewrite take_ge by (cbn [length]; lia).
      f_equal. f_equal. cbn [length]. lia. }
    rewrite Htake. split.
    + rewrite Hres, length_app. cbn [length].
      destruct (Nat.leb_spec (length payload - (length recvd + S (length chunk)))
                  (length more));
        destruct (Nat.leb_spec (length payload - length recvd)
                    (S (length chunk) + length more)); try lia.
      * by rewrite <- app_assoc.
      * reflexivity.
    + split; [congruence|]. split; [congruence|].
      exists (WRecv (Z.of_nat (length payload) - Z.of_nat (length recvd))
                (b :: chunk) :: tr).
      split; [rewrite Hw', Hw, <- app_assoc; reflexivity|].
      cbn [received flat_map concat app]. fold (received tr).
      rewrite Hrecv. split; [reflexivity|].
      rewrite <- Hnil. cbn [In]. split; [intros [?|?]; [discriminate|done] | by right].
  - (* nothing arrives in time *)
    unfold len in *. pose proof (proj1 (Z.ltb_lt _ _) Hlt) as Hlt'.
    apply recv_spec in Heq as (Hrf & Hrj & -> & Hd & Hw); [|lia].
    rewrite Hd. cbn [fst snd length].
    replace (_ <=? 0)%nat with false by (symmetry; apply Nat.leb_gt; lia).
    repeat split; [exact Hrf | exact Hrj |].
    exists []. rewrite app_nil_r. split; [exact Hw|]. cbn. rewrite take_nil.
    repeat split; [intros [] | discriminate].
Qed.

Lemma recv_loop_done (payload recvd : bytes) (s : net) :
  (length payload <= length recvd)%nat ->
  recv_loop payload recvd s = (Ok recvd, s).
Proof.
  intros Hle. funelim (recv_loop payload recvd s); try reflexivity.
  all: exfalso; unfold len in *;
    pose proof (proj1 (Z.ltb_lt _ _) Hlt) as Hlt'; lia.
Qed.

Lemma worker_is_one (port : Z) (payload : bytes) (s : net) :
  io_process_worker (port, payload) s
  = (obind (fst (io_bench_threads_one port payload s)) (fun _ => Ok 1),
     snd (io_bench_threads_one port payload s)).
Proof.
  unfold io_process_worker, io_bench_threads_one, bind.
  destruct (create_connection port s) as [[[]|e] s1]; [|reflexivity].
  match goal with
  | |- context [finally ?b ?c s1] => destruct (finally b c s1) as [[[]|e] s2]
  end; reflexivity.
Qed.

Lemma one_refused (port : Z) (payload : bytes) (s : net) (e : exn) :
  refuse s = Some e ->
  io_bench_threads_one port payload s = (Raise e, s).
Proof.
  intros H. unfold io_bench_threads_one, bind, create_connection.
  by rewrite H.
Qed.

Lemma one_rejected (port : Z) (payload : bytes) (s : net) (e : exn) :
  refuse s = None -> reject s = Some e ->
  fst (io_bench_threads_one port payload s) = Raise e.
Proof.
  intros H1 H2. unfold io_bench_threads_one, bind at 1, create_connection.
  rewrite H1. unfold finally, bind, sendall. cbn. rewrite H2. reflexivity.
Qed.

Lemma one_unfold (port : Z) (payload : bytes) (s : net) :
  refuse s = None -> reject s = None ->
  io_bench_threads_one port payload s
  = (match fst (recv_loop payload []
                  (observe (WSend payload) (observe (WConnect port) s))) with
     | Ok recvd =>
         if bool_decide (recvd <> payload)
         then Raise (RuntimeError "Echo mismatch") else Ok tt
     | Raise e => Raise e
     end,
     observe WClose
       (snd (recv_loop payload []
               (observe (WSend payload) (observe (WConnect port) s))))).
Proof.
  intros H1 H2.
  unfold io_bench_threads_one, bind, create_connection, finally, sendall, close.
  rewrite H1. cbn [reject observe]. rewrite H2.
  destruct (recv_loop payload [] _) as [[recvd|e] s3]; cbn [fst snd];
    [|reflexivity].
  destruct (bool_decide (recvd <> payload)); reflexivity.
Qed.

Lemma one_connected (port : Z) (payload : bytes) (s : net) :
  refuse s = None -> reject s = None ->
  exists tr,
    wire (snd (io_bench_threads_one port payload s))
    = wire s ++ [WConnect port; WSend payload] ++ tr ++ [WClose]
    /\ concat (received tr)
       = take (length payload) (fst (delivered (inbox s)))
    /\ fst (io_bench_threads_one port payload s)
       = echo_verdict payload (inbox s)
    /\ (In [] (received tr)
        <-> fst (io_bench_threads_one port payload s)
            = Raise (RuntimeError "Socket closed early")).
Proof.
  intros H1 H2. rewrite (one_unfold port payload s H1 H2).
  set (s2 := observe (WSend payload) (observe (WConnect port) s)).
  destruct (recv_loop_spec payload [] s2 ltac:(cbn; lia))
    as (Hres & _ & _ & tr & Hw & Hrecv & Hnil).
  cbn [length] in Hres, Hrecv. rewrite Nat.sub_0_r in Hres, Hrecv.
  change (inbox s2) with (inbox s) in *. cbn [app] in Hres.
  exists tr. cbn [fst snd observe wire]. rewrite Hw. subst s2.
  cbn [observe wire]. split; [by rewrite <- !app_assoc|].
  split; [exact Hrecv|]. rewrite Hnil, Hres. clear Hnil Hres Hw Hrecv.
  unfold echo_verdict. destruct (delivered (inbox s)) as [stream e].
  cbn [fst snd].
  destruct (length payload <=? length stream)%nat.
  - destruct (decide (take (length payload) stream = payload)) as [Heq|Hne].
    + rewrite bool_decide_eq_false_2 by (intros Hx; by apply Hx).
      rewrite bool_decide_eq_true_2 by exact Heq. by split.
    + rewrite bool_decide_eq_true_2 by exact Hne.
      rewrite bool_decide_eq_false_2 by exact Hne. by split.
  - by destruct e.
Qed.

End EchoFacts.

(** C4. One echo task ([io_process_worker], and [one] of
    [io_bench_threads]) on a connection that is accepted and takes the
    payload: its reads return, in order and in pieces, the first
    [len(payload)] bytes the peer delivers and never more; it raises
    [Socket closed early] exactly when one of its reads returned no
    bytes, which happens only before [len(payload)] bytes have come; it
    raises [Echo mismatch], a different error, exactly when
    [len(payload)] bytes have come and they are not the payload; and it
    succeeds exactly when the bytes that have come are the payload. *)
Theorem echo_task_outcome (port : Z) (payload : Py.bytes) (s : Echo.net) :
  let one := Echo.io_bench_threads_one port payload s in
  let worker := Echo.io_process_worker (port, payload) s in
  worker = (obind (fst one) (fun _ => Ok 1), snd one)
  /\ RuntimeError "Socket closed early" <> RuntimeError "Echo mismatch"
  /\ match Echo.refuse s, Echo.reject s with
     | Some e, _ => fst one = Raise e
     | None, Some e => fst one = Raise e
     | None, None =>
         exists tr,
           let got := concat (Echo.received tr) in
           Echo.wire (snd one)
           = Echo.wire s ++ [Echo.WConnect port; Echo.WSend payload]
               ++ tr ++ [Echo.WClose]
           /\ got = take (length payload) (fst (Echo.delivered (Echo.inbox s)))
           /\ fst one = Echo.echo_verdict payload (Echo.inbox s)
           /\ (fst one = Ok tt <-> got = payload)
           /\ (fst one = Raise (RuntimeError "Echo mismatch")
               <-> length got = length payload /\ got <> payload)
           /\ (fst one = Raise (RuntimeError "Socket closed early")
               <-> In [] (Echo.received tr))
           /\ (In [] (Echo.received tr) -> (length got < length payload)%nat)
     end.
Proof.
  cbn zeta. split; [apply worker_is_one|]. split; [discriminate|].
  destruct (Echo.refuse s) as [e|] eqn:H1.
  { by rewrite (one_refused port payload s e H1). }
  destruct (Echo.reject s) as [e|] eqn:H2.
  { by apply one_rejected. }
  destruct (one_connected port payload s H1 H2) as (tr & Hw & Hgot & Hv & Hnil).
  exists tr. cbn zeta. split; [exact Hw|]. split; [exact Hgot|].
  split; [exact Hv|]. rewrite Hnil, Hv, Hgot. clear Hnil Hv Hgot Hw.
  unfold Echo.echo_verdict.
  destruct (Echo.delivered (Echo.inbox s)) as [stream e]. cbn [fst snd].
  destruct (Nat.leb_spec (length payload) (length stream)) as [Hle|Hlt].
  - assert (Hlen : length (take (length payload) stream) = length payload)
      by (rewrite length_take; lia).
    destruct (decide (take (length payload) stream = payload)) as [Heq|Hne].
    + rewrite bool_decide_eq_true_2 by exact Heq.
      repeat split; try done; try (intros [_ ?]; done); try lia.
    + rewrite bool_decide_eq_false_2 by exact Hne.
      repeat split; try done; try lia.
  - assert (Hlen : (length (take (length payload) stream) < length payload)%nat)
      by (rewrite length_take; lia).
    assert (Hne : take (length payload) stream <> payload)
      by (intros Heq; rewrite Heq in Hlen; lia).
    destruct e; repeat split; try done; try lia; try (intros [? _]; lia).
Qed.

(** ** Facts about the executors *)

Section PoolFacts.
Import Pool.

Lemma process_pool_sizes_app (tr1 tr2 : list pool_event) :
  process_pool_sizes (tr1 ++ tr2)
  = process_pool_sizes tr1 ++ process_pool_sizes tr2.
Proof. unfold process_pool_sizes. apply flat_map_app. Qed.

Lemma quiet_ret {A} (a : A) : quiet (ret a).
Proof. intros w. exists []. cbn. by rewrite app_nil_r. Qed.

Lemma quiet_raise {A} (e : exn) : quiet (@raise world A e).
Proof. intros w. exists []. cbn. by rewrite app_nil_r. Qed.

Lemma quiet_result {A} (f : outcome A) : quiet (result f).
Proof. intros w. exists []. cbn. by rewrite app_nil_r. Qed.

Lemma quiet_bind {A B} (c : M world A) (k : A -> M world B) :
  quiet c -> (forall a, quiet (k a)) -> quiet (bind c k).
Proof.
  intros Hc Hk w. unfold bind. destruct (Hc w) as (tr1 & H1 & Hq1).
  destruct (c w) as [[a|e] w1]; cbn [snd] in *.
  - destruct (Hk a w1) as (tr2 & H2 & Hq2). exists (tr1 ++ tr2).
    rewrite H2, H1, app_assoc, process_pool_sizes_app, Hq1, Hq2. done.
  - exists tr1. done.
Qed.

Lemma quiet_finally {A} (body : M world A) (cleanup : M world unit) :
  quiet body -> quiet cleanup -> quiet (finally body cleanup).
Proof.
  intros Hb Hc w. unfold finally. destruct (Hb w) as (tr1 & H1 & Hq1).
  destruct (body w) as [r w1]; cbn [snd] in *.
  destruct (Hc w1) as (tr2 & H2 & Hq2).
  destruct (cleanup w1) as [[[]|e] w2]; cbn [snd] in *;
    exists (tr1 ++ tr2);
    rewrite H2, H1, app_assoc, process_pool_sizes_app, Hq1, Hq2; done.
Qed.

Lemma quiet_collect {A B} (xs : list A) (g : A -> M world B) :
  (forall x, quiet (g x)) -> quiet (collect xs g).
Proof.
  intros Hg. induction xs as [|x xs IH]; cbn [collect]; [apply quiet_ret|].
  apply quiet_bind; [apply Hg|]. intros y.
  apply quiet_bind; [exact IH|]. intros ys. apply quiet_ret.
Qed.

Lemma quiet_for_each {A} (xs : list A) (body : A -> M world unit) :
  (forall x, quiet (body x)) -> quiet (for_each xs body).
Proof.
  intros Hb. induction xs as [|x xs IH]; cbn [for_each]; [apply quiet_ret|].
  apply quiet_bind; [apply Hb | intros _; exact IH].
Qed.

Lemma quiet_submit {A} (ex : kind) (call : outcome A) : quiet (submit ex call).
Proof. intros w. exists [Submitted ex]. done. Qed.

Lemma quiet_submit_io {A} (ex : kind) (rank : nat) (task : M Echo.net A) :
  quiet (submit_io ex rank task).
Proof.
  intros w. exists [Submitted ex]. unfold submit_io.
  destruct (task _) as [r c]. done.
Qed.

Lemma quiet_shutdown (ex : kind) : quiet (shutdown ex).
Proof. intros w. exists [ShutDown ex]. done. Qed.

Create HintDb quiet.
#[local] Hint Resolve quiet_ret quiet_raise quiet_result quiet_submit
  quiet_submit_io quiet_shutdown : quiet.
#[local] Hint Extern 2 (quiet (bind _ _)) =>
  apply quiet_bind; [|intro] : quiet.
#[local] Hint Extern 2 (quiet (finally _ _)) => apply quiet_finally : quiet.
#[local] Hint Extern 2 (quiet (collect _ _)) =>
  apply quiet_collect; intro : quiet.
#[local] Hint Extern 2 (quiet (for_each _ _)) =>
  apply quiet_for_each; intro : quiet.

Lemma quiet_ex_map {A B} (ex : kind) (fn : A -> M Echo.net B) (jobs : list A) :
  quiet (ex_map ex fn jobs).
Proof.
  unfold ex_map. apply quiet_bind.
  - apply quiet_collect. intros [rank job]. auto with quiet.
  - auto with quiet.
Qed.

(** The thread pool benchmarks create no process pool. *)
Lemma quiet_ThreadPoolExecutor (n : Z) : quiet (ThreadPoolExecutor n).
Proof.
  unfold ThreadPoolExecutor. destruct (n <=? 0); [auto with quiet|].
  apply quiet_bind; [|auto with quiet].
  intros w. exists [Created Threads n]. done.
Qed.

Lemma quiet_io_bench_threads (tasks concurrency port : Z) (payload : bytes) :
  quiet (io_bench_threads tasks concurrency port payload).
Proof.
  unfold io_bench_threads.
  apply quiet_bind; [apply quiet_ThreadPoolExecutor | intro; auto 8 with quiet].
Qed.

Lemma quiet_cpu_bench_threads (tasks units workers : Z) :
  quiet (cpu_bench_threads tasks units workers).
Proof.
  unfold cpu_bench_threads.
  apply quiet_bind; [apply quiet_ThreadPoolExecutor | intro; auto 8 with quiet].
Qed.

(** The pool a process benchmark creates when its executor accepts the
    number of workers [n], whatever it does with the pool after. *)
Lemma process_pool_created {A} (n : Z) (k : kind -> M world A) (w : world) :
  0 < n -> quiet (k Processes) ->
  process_pool_sizes (journal (snd (bind (ProcessPoolExecutor n) k w)))
  = process_pool_sizes (journal w) ++ [n].
Proof.
  intros Hn Hk. unfold bind, ProcessPoolExecutor.
  replace (n <=? 0) with false by (symmetry; apply Z.leb_gt; lia).
  cbn. destruct (Hk (mkWorld (conns w) (journal w ++ [Created Processes n])))
    as (tr & Htr & Hq).
  rewrite Htr. cbn [journal].
  rewrite !process_pool_sizes_app, Hq, app_nil_r. reflexivity.
Qed.

(** [io_bench_processes] caps the pool at 64 workers. *)
Lemma io_bench_processes_pool (tasks concurrency port : Z) (payload : bytes)
    (w : world) :
  0 < concurrency ->
  process_pool_sizes
    (journal (snd (io_bench_processes tasks concurrency port payload w)))
  = process_pool_sizes (journal w) ++ [Z.min concurrency 64].
Proof.
  intros Hc. unfold io_bench_processes.
  apply process_pool_created; [lia|].
  apply quiet_finally; [|apply quiet_shutdown].
  apply quiet_bind; [apply quiet_ex_map | auto with quiet].
Qed.

(** [cpu_bench_processes] creates the pool with the number of workers it
    is given. *)
Lemma cpu_bench_processes_pool (tasks units workers : Z) (w : world) :
  0 < workers ->
  process_pool_sizes (journal (snd (cpu_bench_processes tasks units workers w)))
  = process_pool_sizes (journal w) ++ [workers].
Proof.
  intros Hw. unfold cpu_bench_processes.
  apply process_pool_created; [lia|]. auto 8 with quiet.
Qed.

End PoolFacts.

(** C3. The process pool of [cpu_bench_processes] is not capped: asked
    for 100 workers, it creates its pool with 100 workers and not with
    [min(100, 64) = 64]; [io_bench_processes], asked for 100, creates its
    pool with 64. *)
Theorem cpu_process_pool_not_capped :
  Pool.journal (snd (Pool.cpu_bench_processes 1 1 100 (Pool.mkWorld [] [])))
  = [Pool.Created Pool.Processes 100; Pool.Submitted Pool.Processes;
     Pool.ShutDown Pool.Processes]
  /\ Z.min 100 64 = 64
  /\ Pool.process_pool_sizes
       (Pool.journal
          (snd (Pool.io_bench_processes 1 100 8000 [] (Pool.mkWorld [] []))))
     = [64].
Proof. repeat split. Qed.

(** ** Facts about the event loop *)

Section AioFacts.
Import Aio.
Context {A : Type}.

Lemma resume_length (i : nat) (r : outcome bytes) (l : loop A) :
  length (tasks (resume i r l)) = length (tasks l).
Proof.
  unfold resume. destruct (tasks l !! i) as [[a|e|a k|w k]|]; try reflexivity.
  destruct (negb _ && _); [reflexivity|].
  destruct (settle _ _ _ _) as [[c sem2] done]. cbn [tasks].
  apply length_insert.
Qed.

Lemma turn_length (sched : schedule) (l : loop A) :
  length (tasks (turn sched l)) = length (tasks l).
Proof.
  revert l. induction sched as [|[i r] sched IH]; intros l; cbn [turn].
  - by destruct (outer l).
  - destruct (outer l); [reflexivity|]. rewrite IH. apply resume_length.
Qed.

Lemma resume_sound (i : nat) (r : outcome bytes) (l : loop A) :
  outer l = None -> sound l -> sound (resume i r l).
Proof.
  intros Hout Hs. unfold resume.
  destruct (tasks l !! i) as [[a|e|a k|w k]|] eqn:Hi; try exact Hs.
  destruct (negb _ && _); [exact Hs|].
  destruct (settle _ _ _ _) as [[c sem2] done].
  unfold sound in *. rewrite Hout in *. cbn [outer tasks].
  assert (Hlt : (i < length (tasks l))%nat) by (eapply lookup_lt_Some, Hi).
  assert (Hins : failed c = false ->
                 Forall (fun c => failed c = false) (<[i:=c]> (tasks l))).
  { intros Hc. apply Forall_insert; [exact Hs | exact Hc]. }
  destruct c as [a|e|a k'|w' k']; cbn [on_done].
  - destruct (mapM result_of (<[i:=Return a]> (tasks l))) as [rs|] eqn:Hm.
    + reflexivity.
    + by apply Hins.
  - exists i. split; [by apply list_lookup_insert_eq|].
    intros j c Hne Hj. rewrite list_lookup_insert_ne in Hj by done.
    eapply (proj1 (Forall_lookup _ _) Hs), Hj.
  - by apply Hins.
  - by apply Hins.
Qed.

Lemma turn_sound (sched : schedule) (l : loop A) :
  sound l -> sound (turn sched l).
Proof.
  revert l. induction sched as [|[i r] sched IH]; intros l Hs; cbn [turn].
  - by destruct (outer l).
  - destruct (outer l) eqn:Hout; [exact Hs|].
    apply IH, resume_sound; [exact Hout | exact Hs].
Qed.

(** What [gather] has when it is done. *)
Lemma gather_done (coros : list (coro A)) (sem : Z) (sched : schedule)
    (o : outcome (list A)) (l : loop A) :
  Forall (fun c => failed c = false) coros ->
  gather coros sem sched = (Some o, l) ->
  length (tasks l) = length coros
  /\ match o with
     | Ok results => Forall2 (fun c a => c = Return a) (tasks l) results
     | Raise e =>
         exists i, tasks l !! i = Some (Throw e)
                   /\ forall j c, j <> i -> tasks l !! j = Some c ->
                                  failed c = false
     end.
Proof.
  intros Hc. unfold gather. intros H. injection H as Hout Hl.
  set (l0 := mkLoop coros sem _ _) in *.
  assert (Hs0 : sound l0).
  { unfold sound, l0. destruct coros; cbn; [reflexivity | exact Hc]. }
  pose proof (turn_sound sched l0 Hs0) as Hs.
  pose proof (turn_length sched l0) as Hlen.
  rewrite Hl in *. split; [exact Hlen|].
  unfold sound in Hs. rewrite Hout in Hs. destruct o as [rs|e]; [|exact Hs].
  apply mapM_Some in Hs. eapply Forall2_impl; [exact Hs|].
  intros c a Hca. destruct c; cbn in Hca; congruence.
Qed.

End AioFacts.

Lemma Forall_true_forallb {A} (f : A -> bool) (xs : list A) :
  Forall (fun x => f x = true) xs -> forallb f xs = true.
Proof. induction 1 as [|x xs Hx _ IH]; cbn; [reflexivity | by rewrite Hx, IH]. Qed.

Lemma Forall_copies {A B} (P : A -> Prop) (a : A) (xs : list B) :
  P a -> Forall P (map (fun _ => a) xs).
Proof. intros Ha. induction xs; cbn; constructor; auto. Qed.

(** ** Facts about the event loop, callback by callback *)

Section LoopFacts.
Import Aio.
Context {A : Type}.
Implicit Types (l : Loop.state A) (c : coro A).

Lemma settle_finished c (s : Loop.semaphore) :
  finished c = true -> Loop.settle c s = (c, s).
Proof. by destruct c. Qed.

Lemma announced_done i l :
  Loop.announced i l = true <-> In i (Loop.done_order l).
Proof.
  unfold Loop.announced, Loop.done_order. rewrite existsb_exists. split.
  - intros (x & Hx & Heq). apply Nat.eqb_eq in Heq. by subst x.
  - intros H. exists i. split; [exact H | apply Nat.eqb_refl].
Qed.

Lemma proceed_fields i c (s : Loop.semaphore) l :
  Loop.tasks (Loop.proceed i c s l)
  = <[i := fst (Loop.settle c s)]> (Loop.tasks l)
  /\ Loop.callbacks (Loop.proceed i c s l)
     = (if finished (fst (Loop.settle c s))
        then Loop.callbacks l ++ [i] else Loop.callbacks l)
  /\ Loop.delivered (Loop.proceed i c s l) = Loop.delivered l
  /\ Loop.outer (Loop.proceed i c s l) = Loop.outer l
  /\ Loop.sem (Loop.proceed i c s l) = snd (Loop.settle c s).
Proof.
  unfold Loop.proceed. destruct (Loop.settle c s) as [c' s']. by cbn.
Qed.

(** What a step of a task changes: nothing but the semaphore; or the
    task, which was not done or had not said so, and the callbacks in
    line when it is done now. *)
Lemma run_task_cases i (r : outcome bytes) l :
  (Loop.tasks (Loop.run_task i r l) = Loop.tasks l
   /\ Loop.callbacks (Loop.run_task i r l) = Loop.callbacks l
   /\ Loop.delivered (Loop.run_task i r l) = Loop.delivered l
   /\ Loop.outer (Loop.run_task i r l) = Loop.outer l)
  \/ exists c c',
       Loop.tasks l !! i = Some c
       /\ (finished c = false \/ (Loop.announced i l = false /\ c' = c))
       /\ Loop.tasks (Loop.run_task i r l) = <[i := c']> (Loop.tasks l)
       /\ Loop.callbacks (Loop.run_task i r l)
          = (if finished c' then Loop.callbacks l ++ [i] else Loop.callbacks l)
       /\ Loop.delivered (Loop.run_task i r l) = Loop.delivered l
       /\ Loop.outer (Loop.run_task i r l) = Loop.outer l.
Proof.
  unfold Loop.run_task.
  destruct (Loop.tasks l !! i) as [c|] eqn:Hi; [|by left].
  assert (Hgo : forall c0 (s : Loop.semaphore),
            finished c = false \/ (Loop.announced i l = false /\ c0 = c) ->
            exists c1 c',
              Some c = Some c1
              /\ (finished c1 = false
                  \/ (Loop.announced i l = false /\ c' = c1))
              /\ Loop.tasks (Loop.proceed i c0 s l) = <[i := c']> (Loop.tasks l)
              /\ Loop.callbacks (Loop.proceed i c0 s l)
                 = (if finished c' then Loop.callbacks l ++ [i]
                    else Loop.callbacks l)
              /\ Loop.delivered (Loop.proceed i c0 s l) = Loop.delivered l
              /\ Loop.outer (Loop.proceed i c0 s l) = Loop.outer l).
  { intros c0 s Hc.
    destruct (proceed_fields i c0 s l) as (H1 & H2 & H3 & H4 & _).
    exists c, (fst (Loop.settle c0 s)). split; [reflexivity|]. split.
    - destruct Hc as [Hc|[Hc ->]]; [by left|].
      destruct (finished c) eqn:Hf; [|by left]. right.
      by rewrite settle_finished.
    - by repeat split. }
  destruct c as [a|e|a k|w k].
  - destruct (Loop.announced i l) eqn:Ha; [by left|]. right.
    apply Hgo. right. by split.
  - destruct (Loop.announced i l) eqn:Ha; [by left|]. right.
    apply Hgo. right. by split.
  - right. apply Hgo. by left.
  - destruct w; try (right; apply Hgo; by left).
    destruct (Loop.status i (Loop.waiters (Loop.sem l))) as [[|]|].
    + right. apply Hgo. by left.
    + by left.
    + destruct (Loop.locked (Loop.sem l)); [by left|].
      right. apply Hgo. by left.
Qed.

Lemma run_task_length i (r : outcome bytes) l :
  length (Loop.tasks (Loop.run_task i r l)) = length (Loop.tasks l).
Proof.
  destruct (run_task_cases i r l)
    as [(-> & _)|(c & c' & _ & _ & -> & _)]; [reflexivity|].
  apply length_insert.
Qed.

Lemma run_task_sound i (r : outcome bytes) l :
  Loop.sound l -> Loop.sound (Loop.run_task i r l).
Proof.
  intros (Hdone & Hall & Hnd & Hout).
  destruct (run_task_cases i r l)
    as [(Ht & Hc & Hd & Ho)|(c & c' & Hi & Hc & Ht & Hcb & Hd & Ho)];
    unfold Loop.sound, Loop.done_order in *; rewrite Ht, ?Hc, ?Hcb, Hd, Ho.
  { by repeat split. }
  assert (Hlt : (i < length (Loop.tasks l))%nat)
    by (eapply lookup_lt_Some, Hi).
  assert (Hnew : ~ In i (Loop.delivered l ++ Loop.callbacks l)).
  { intros Hin. destruct Hc as [Hc|[Hc _]].
    - destruct (Hdone i Hin) as (c0 & Hc0 & Hf). congruence.
    - apply (announced_done i l) in Hin. congruence. }
  assert (Hkeep : forall j, In j (Loop.delivered l ++ Loop.callbacks l) ->
                  <[i:=c']> (Loop.tasks l) !! j = Loop.tasks l !! j).
  { intros j Hj. apply list_lookup_insert_ne. intros ->. by apply Hnew. }
  assert (Hret : forall js, (forall j, In j js ->
                               In j (Loop.delivered l ++ Loop.callbacks l)) ->
                 Forall (Loop.returned (Loop.tasks l)) js ->
                 Forall (Loop.returned (<[i:=c']> (Loop.tasks l))) js).
  { intros js Hjs Hf. apply List.Forall_forall. intros j Hj.
    pose proof (proj1 (List.Forall_forall _ _) Hf j Hj) as [a Ha].
    exists a. by rewrite Hkeep by auto. }
  assert (Horder : forall j,
            In j (Loop.delivered l
                  ++ (if finished c' then Loop.callbacks l ++ [i]
                      else Loop.callbacks l)) ->
            In j (Loop.delivered l ++ Loop.callbacks l)
            \/ (j = i /\ finished c' = true)).
  { intros j Hj. destruct (finished c'); [|by left].
    rewrite app_assoc in Hj. apply List.in_app_iff in Hj as [Hj|[<-|[]]];
      [by left | by right]. }
  split; [|split; [|split]].
  - intros j Hj. apply Horder in Hj as [Hj|[-> Hf]].
    + rewrite Hkeep by exact Hj. by apply Hdone.
    + exists c'. split; [by apply list_lookup_insert_eq | exact Hf].
  - intros j cj Hj Hf.
    destruct (decide (j = i)) as [->|Hne].
    + rewrite list_lookup_insert_eq in Hj by exact Hlt. injection Hj as <-.
      rewrite Hf, app_assoc. apply List.in_app_iff. right. by left.
    + rewrite list_lookup_insert_ne in Hj by done.
      pose proof (Hall j cj Hj Hf) as Hin.
      destruct (finished c'); [|exact Hin].
      rewrite app_assoc. apply List.in_app_iff. by left.
  - destruct (finished c'); [|exact Hnd].
    rewrite app_assoc. apply List.NoDup_app; [exact Hnd | |].
    + constructor; [by intros [] | constructor].
    + intros j Hj [<-|[]]. by apply Hnew.
  - rewrite length_insert.
    destruct (Loop.outer l) as [[rs|e]|].
    + assert (<[i:=c']> (Loop.tasks l) = Loop.tasks l) as ->; [|exact Hout].
      apply mapM_Some in Hout.
      destruct (Forall2_lookup_l _ _ _ _ _ Hout Hi) as (a & _ & Ha).
      destruct c; try discriminate Ha.
      destruct Hc as [Hc|[_ ->]]; [discriminate Hc|].
      by apply list_insert_id.
    + destruct Hout as (pre & i0 & post & Hdel & Hi0 & Hpre).
      exists pre, i0, post. split; [exact Hdel|]. split.
      * rewrite Hkeep; [exact Hi0|]. rewrite Hdel.
        apply List.in_app_iff. left. apply List.in_app_iff. right. by left.
      * apply Hret; [|exact Hpre]. intros j Hj. rewrite Hdel.
        apply List.in_app_iff. left. apply List.in_app_iff. by left.
    + destruct Hout as [Hret0 Hlen]. split; [|exact Hlen].
      apply Hret; [|exact Hret0]. intros j Hj.
      apply List.in_app_iff. by left.
Qed.

(** Tasks done once each, all of them: every task is among them. *)
Lemma all_called (d : list nat) (n : nat) :
  List.NoDup d -> (forall j, In j d -> (j < n)%nat) ->
  (length d <= n)%nat
  /\ (length d = n -> forall k, (k < n)%nat -> In k d).
Proof.
  intros Hnd Hlt.
  assert (Hincl : incl d (seq 0 n)).
  { intros j Hj. apply List.in_seq. specialize (Hlt j Hj). lia. }
  assert (Hseq : length (seq 0 n) = n) by apply List.length_seq.
  split.
  - pose proof (List.NoDup_incl_length Hnd Hincl). lia.
  - intros Hlen k Hk.
    apply (@List.NoDup_length_incl _ d (seq 0 n) Hnd); [lia | exact Hincl|].
    apply List.in_seq. lia.
Qed.

Lemma callback_sound l : Loop.sound l -> Loop.sound (Loop.callback l).
Proof.
  intros (Hdone & Hall & Hnd & Hout). unfold Loop.callback.
  destruct (Loop.callbacks l) as [|j rest] eqn:Hcb; [by repeat split|].
  unfold Loop.sound, Loop.done_order in *. rewrite Hcb in *.
  cbn [Loop.tasks Loop.delivered Loop.callbacks Loop.outer].
  assert (Hsame : (Loop.delivered l ++ [j]) ++ rest
                  = Loop.delivered l ++ j :: rest)
    by (by rewrite <- app_assoc).
  rewrite Hsame. split; [exact Hdone|]. split; [exact Hall|].
  split; [exact Hnd|].
  destruct (Hdone j) as (cj & Hj & Hfin).
  { apply List.in_app_iff. right. by left. }
  destruct (Loop.outer l) as [[rs|e]|].
  - exact Hout.
  - destruct Hout as (pre & i0 & post & Hdel & Hi0 & Hpre).
    exists pre, i0, (post ++ [j]). rewrite Hdel, <- app_assoc. by repeat split.
  - destruct Hout as [Hret Hlen]. rewrite Hj.
    destruct cj as [a|e|a k|w k]; try discriminate Hfin.
    + assert (Hret' : Forall (Loop.returned (Loop.tasks l))
                        (Loop.delivered l ++ [j])).
      { apply Forall_app. split; [exact Hret|].
        constructor; [by exists a | constructor]. }
      assert (Hnd' : List.NoDup (Loop.delivered l ++ [j])).
      { rewrite <- Hsame in Hnd. by apply List.NoDup_app_remove_r in Hnd. }
      assert (Hlt' : forall k, In k (Loop.delivered l ++ [j]) ->
                     (k < length (Loop.tasks l))%nat).
      { intros k Hk. destruct (Hdone k) as (ck & Hck & _).
        - rewrite <- Hsame. apply List.in_app_iff. by left.
        - eapply lookup_lt_Some, Hck. }
      destruct (all_called _ _ Hnd' Hlt') as [Hle Hfull].
      destruct (Nat.eqb_spec (length (Loop.delivered l ++ [j]))
                  (length (Loop.tasks l))) as [Heq|Hne].
      * assert (Hsome : is_Some (mapM result_of (Loop.tasks l))).
        { apply mapM_is_Some, Forall_lookup. intros k ck Hk.
          assert (Hin : In k (Loop.delivered l ++ [j])).
          { apply Hfull; [exact Heq | eapply lookup_lt_Some, Hk]. }
          pose proof (proj1 (List.Forall_forall _ _) Hret' k Hin) as [b Hb].
          rewrite Hk in Hb. injection Hb as ->. by eexists. }
        destruct Hsome as [rs Hrs]. by rewrite Hrs.
      * split; [exact Hret' | lia].
    + exists (Loop.delivered l), j, []. by repeat split.
Qed.

(** The loop under a schedule: the state it ends in is sound, has the
    tasks it began with, and what it returns is what the future has. *)
Lemma exec_sound (sched : list Loop.step) l (o : option (outcome (list A)))
    (l' : Loop.state A) :
  Loop.sound l -> Loop.exec sched l = (o, l') ->
  Loop.sound l'
  /\ length (Loop.tasks l') = length (Loop.tasks l)
  /\ (forall x, o = Some x -> Loop.outer l' = Some x).
Proof.
  revert l. induction sched as [|[i r| |] sched IH]; intros l Hs H;
    cbn [Loop.exec] in H.
  - injection H as <- <-. split; [exact Hs|]. split; [reflexivity|].
    intros x Hx. discriminate Hx.
  - destruct (IH _ (run_task_sound i r l Hs) H) as (H1 & H2 & H3).
    split; [exact H1|]. split; [|exact H3]. by rewrite H2, run_task_length.
  - destruct (IH _ (callback_sound l Hs) H) as (H1 & H2 & H3).
    split; [exact H1|]. split; [|exact H3]. rewrite H2.
    unfold Loop.callback. by destruct (Loop.callbacks l).
  - destruct (Loop.outer l) as [x|] eqn:Hout.
    + injection H as <- <-. split; [exact Hs|]. split; [reflexivity|].
      intros x' Hx. congruence.
    + by apply IH.
Qed.

Lemma exec_app (sched rest : list Loop.step) l (l' : Loop.state A) :
  Loop.exec sched l = (None, l') ->
  Loop.exec (sched ++ rest) l = Loop.exec rest l'.
Proof.
  revert l. induction sched as [|[i r| |] sched IH]; intros l H;
    cbn [Loop.exec app] in *.
  - by injection H as <-.
  - by apply IH.
  - by apply IH.
  - destruct (Loop.outer l); [discriminate H | by apply IH].
Qed.

(** A sound loop with every task returned and no callback in line has
    the results in the future of [gather]. *)
Lemma sound_all_returned l :
  Loop.sound l ->
  Forall (fun c => exists a, c = Return a) (Loop.tasks l) ->
  Loop.callbacks l = [] ->
  exists results, Loop.outer l = Some (Ok results).
Proof.
  intros (Hdone & Hall & Hnd & Hout) Hret Hcb.
  unfold Loop.done_order in *. rewrite Hcb, app_nil_r in *.
  destruct (Loop.outer l) as [[rs|e]|].
  - by exists rs.
  - destruct Hout as (pre & i & post & _ & Hi & _).
    pose proof (proj1 (Forall_lookup _ _) Hret i _ Hi) as [a Ha].
    discriminate Ha.
  - destruct Hout as [_ Hlen].
    assert (Hlt : forall k, In k (Loop.delivered l) ->
                  (k < length (Loop.tasks l))%nat).
    { intros k Hk. destruct (Hdone k Hk) as (ck & Hck & _).
      eapply lookup_lt_Some, Hck. }
    assert (Hincl : incl (seq 0 (length (Loop.tasks l))) (Loop.delivered l)).
    { intros k Hk. apply List.in_seq in Hk.
      destruct (lookup_lt_is_Some_2 (Loop.tasks l) k ltac:(lia)) as [ck Hck].
      apply (Hall k ck Hck).
      pose proof (proj1 (Forall_lookup _ _) Hret k _ Hck) as [a ->].
      reflexivity. }
    apply List.NoDup_incl_length in Hincl; [|apply List.seq_NoDup].
    rewrite List.length_seq in Hincl. lia.
Qed.

(** A sound loop in which the done-callback of a failed task has been
    called has an exception in the future of [gather]. *)
Lemma sound_failure_called l (i : nat) (e : exn) :
  Loop.sound l ->
  In i (Loop.delivered l) -> Loop.tasks l !! i = Some (Throw e) ->
  exists e', Loop.outer l = Some (Raise e').
Proof.
  intros (_ & _ & _ & Hout) Hin Hi.
  destruct (Loop.outer l) as [[rs|e']|].
  - apply mapM_Some in Hout.
    destruct (Forall2_lookup_l _ _ _ _ _ Hout Hi) as (a & _ & Ha).
    discriminate Ha.
  - by exists e'.
  - destruct Hout as [Hret _].
    pose proof (proj1 (List.Forall_forall _ _) Hret i Hin) as [a Ha].
    congruence.
Qed.

(** [gather] on coroutines that are not finished begins sound. *)
Lemma gather_begins_sound (coros : list (coro A)) (s : Loop.semaphore) :
  coros <> [] ->
  Forall (fun c => finished c = false) coros ->
  Loop.sound (Loop.mkState coros s [] [] None).
Proof.
  intros Hne Hunf. unfold Loop.sound, Loop.done_order. cbn.
  split; [by intros j []|]. split; [|split; [constructor|]].
  - intros j c Hj Hf.
    pose proof (proj1 (Forall_lookup _ _) Hunf j c Hj). congruence.
  - split; [constructor|]. destruct coros; [congruence | cbn; lia].
Qed.

(** The callbacks in line are called one after the other. *)
Lemma callbacks_drain l :
  exists l' : Loop.state A,
    Loop.exec (repeat Loop.Callback (length (Loop.callbacks l))) l = (None, l')
    /\ Loop.tasks l' = Loop.tasks l
    /\ Loop.delivered l' = Loop.delivered l ++ Loop.callbacks l
    /\ Loop.callbacks l' = [].
Proof.
  remember (length (Loop.callbacks l)) as n eqn:Hn. revert l Hn.
  induction n as [|n IH]; intros l Hn.
  - exists l. destruct (Loop.callbacks l); [|discriminate Hn].
    by rewrite app_nil_r.
  - destruct (Loop.callbacks l) as [|j rest] eqn:Hcb; [discriminate Hn|].
    destruct (IH (Loop.callback l)) as (l' & He & Ht & Hd & Hc).
    { unfold Loop.callback. rewrite Hcb. cbn in *. lia. }
    exists l'. cbn [repeat Loop.exec]. split; [exact He|].
    unfold Loop.callback in Ht, Hd. rewrite Hcb in Ht, Hd. cbn in Ht, Hd.
    split; [exact Ht|]. split; [|exact Hc]. by rewrite Hd, <- app_assoc.
Qed.

(** [gather] under a schedule. *)
Lemma gather_sound (coros : list (coro A)) (s : Loop.semaphore)
    (sched : list Loop.step) (o : option (outcome (list A)))
    (l : Loop.state A) :
  Forall (fun c => finished c = false) coros ->
  Loop.gather coros s sched = (o, l) ->
  Loop.sound l
  /\ length (Loop.tasks l) = length coros
  /\ (forall x, o = Some x -> Loop.outer l = Some x)
  /\ (o = None ->
      forall rest, Loop.gather coros s (sched ++ rest) = Loop.exec rest l).
Proof.
  intros Hunf. unfold Loop.gather. destruct coros as [|c0 coros].
  - intros H. injection H as <- <-. cbn.
    split; [|split; [reflexivity|split; [by intros x [= <-] | discriminate]]].
    unfold Loop.sound, Loop.done_order. cbn.
    split; [by intros j []|]. split; [by intros j c Hj|].
    split; [constructor | reflexivity].
  - intros H.
    destruct (exec_sound _ _ _ _
                (gather_begins_sound (c0 :: coros) s ltac:(discriminate) Hunf) H)
      as (Hs & Hlen & Hout).
    split; [exact Hs|]. split; [exact Hlen|]. split; [exact Hout|].
    intros -> rest. by apply exec_app.
Qed.

(** Once a task has failed, calling the callbacks in line and resuming
    the coroutine that awaits [gather] is enough for it to raise; once
    every task has returned, it is enough for it to return. *)
Lemma sound_then_wake l :
  Loop.sound l ->
  exists l' : Loop.state A,
    Loop.tasks l' = Loop.tasks l
    /\ ((exists i e, Loop.tasks l !! i = Some (Throw e)) ->
        exists e', Loop.exec (repeat Loop.Callback (length (Loop.callbacks l))
                               ++ [Loop.Wake]) l
                   = (Some (Raise e'), l'))
    /\ (Forall (fun c => exists a, c = Return a) (Loop.tasks l) ->
        exists results,
          Loop.exec (repeat Loop.Callback (length (Loop.callbacks l))
                       ++ [Loop.Wake]) l
          = (Some (Ok results), l')).
Proof.
  intros Hs. destruct (callbacks_drain l) as (l' & He & Ht & Hd & Hc).
  destruct (exec_sound _ _ _ _ Hs He) as (Hs' & _ & _).
  exists l'. split; [exact Ht|]. rewrite (exec_app _ [Loop.Wake] _ _ He).
  cbn [Loop.exec]. split.
  - intros (i & e & Hi).
    destruct (sound_failure_called l' i e Hs') as [e' He'].
    + rewrite Hd. destruct Hs as (_ & Hall & _). by apply (Hall i (Throw e)).
    + by rewrite Ht.
    + exists e'. by rewrite He'.
  - intros Hret. rewrite <- Ht in Hret.
    destruct (sound_all_returned l' Hs' Hret Hc) as [rs Hrs].
    exists rs. by rewrite Hrs.
Qed.

End LoopFacts.

Section LoopCpuTasks.
Import Aio.
Variable v : Z.

Let one : coro Z := async_with_sem (Return v).

Lemma run_task_cpu (i : nat) (r : outcome bytes) (l : Loop.state Z) :
  Forall (fun c => c = one \/ c = Return v) (Loop.tasks l) ->
  Forall (fun c => c = one \/ c = Return v)
    (Loop.tasks (Loop.run_task i r l)).
Proof.
  intros Hl.
  destruct (run_task_cases i r l)
    as [(-> & _)|(c & c' & Hi & Hc & Ht & _)]; [exact Hl|].
  rewrite Ht. apply Forall_insert; [exact Hl|].
  pose proof (proj1 (Forall_lookup _ _) Hl i _ Hi) as Hform.
  destruct Hc as [Hc|[_ ->]]; [|exact Hform].
  destruct Hform as [->| ->]; [|discriminate Hc].
  revert Ht. unfold Loop.run_task. rewrite Hi. cbn.
  assert (Hlt : (i < length (Loop.tasks l))%nat)
    by (eapply lookup_lt_Some, Hi).
  assert (Hsame : forall c1 c2 : coro Z,
            <[i:=c1]> (Loop.tasks l) = <[i:=c2]> (Loop.tasks l) -> c1 = c2).
  { intros c1 c2 Heq.
    pose proof (list_lookup_insert_eq (Loop.tasks l) i c1 Hlt) as H1.
    rewrite Heq, list_lookup_insert_eq in H1 by exact Hlt. congruence. }
  destruct (Loop.status i (Loop.waiters (Loop.sem l))) as [[|]|].
  - cbn [Loop.tasks]. intros Heq. right. symmetry. by apply Hsame.
  - intros Heq. left. symmetry. apply Hsame.
    rewrite <- Heq. by apply list_insert_id.
  - destruct (Loop.locked (Loop.sem l)).
    + cbn. intros Heq. left. symmetry. apply Hsame.
      rewrite <- Heq. by apply list_insert_id.
    + cbn [Loop.tasks]. intros Heq. right. symmetry. by apply Hsame.
Qed.

Lemma exec_cpu (sched : list Loop.step) (l l' : Loop.state Z)
    (o : option (outcome (list Z))) :
  Forall (fun c => c = one \/ c = Return v) (Loop.tasks l) ->
  Loop.exec sched l = (o, l') ->
  Forall (fun c => c = one \/ c = Return v) (Loop.tasks l').
Proof.
  revert l. induction sched as [|[i r| |] sched IH]; intros l Hl H;
    cbn [Loop.exec] in H.
  - by injection H as _ <-.
  - eapply IH; [|exact H]. by apply run_task_cpu.
  - eapply IH; [|exact H]. unfold Loop.callback.
    by destruct (Loop.callbacks l).
  - destruct (Loop.outer l); [by injection H as _ <- | by eapply IH].
Qed.

Lemma gather_cpu (n : Z) (s : Loop.semaphore) (sched : list Loop.step)
    (l : Loop.state Z) (o : option (outcome (list Z))) :
  Loop.gather (map (fun _ => one) (range n)) s sched = (o, l) ->
  Forall (fun c => c = one \/ c = Return v) (Loop.tasks l).
Proof.
  unfold Loop.gather. destruct (map _ (range n)) as [|c0 cs] eqn:Hm.
  - intros H. injection H as _ <-. constructor.
  - apply exec_cpu. cbn [Loop.tasks]. rewrite <- Hm.
    apply Forall_copies. by left.
Qed.

End LoopCpuTasks.

(** C2, as the code has it.  A negative [concurrency] makes
    [io_bench_asyncio] and [cpu_bench_asyncio] raise [ValueError] with no
    task created.  Otherwise, under every schedule of the loop:
    - a call that returns without an exception returns when every one of
      the [tasks] tasks has returned;
    - a call that raises raises the exception of the first task that
      failed, in the order the tasks were done: the tasks done before it
      have returned, and nothing is said of the others, which may have
      failed too or be unfinished;
    - while the call is pending, a task that has failed makes it raise
      with no further step of any task: it is enough that the loop calls
      the done-callbacks in line and resumes the awaiting coroutine;
    - while the call is pending with every task returned, the same makes
      it return.
    The tasks of [cpu_bench_asyncio] cannot fail, and the call never
    raises. *)
Theorem gather_returns_all_or_first_failure
    (tasks concurrency units port : Z) (payload : Py.bytes)
    (sched : list Loop.step) :
  (concurrency < 0 ->
   Loop.io_bench_asyncio tasks concurrency port payload sched
   = (Some (Raise (ValueError "Semaphore initial value must be >= 0")),
      Loop.mkState [] (Loop.mkSem concurrency []) [] [] None)
   /\ Loop.cpu_bench_asyncio tasks units concurrency sched
      = (Some (Raise (ValueError "Semaphore initial value must be >= 0")),
         Loop.mkState [] (Loop.mkSem concurrency []) [] [] None))
  /\ (0 <= concurrency ->
      forall o l,
        Loop.io_bench_asyncio tasks concurrency port payload sched = (o, l) ->
        length (Loop.tasks l) = Z.to_nat tasks
        /\ (o = Some (Ok tt) ->
            Forall (fun c => c = Aio.Return tt) (Loop.tasks l))
        /\ (forall e, o = Some (Raise e) ->
            exists pre i post,
              Loop.delivered l = pre ++ i :: post
              /\ Loop.tasks l !! i = Some (Aio.Throw e)
              /\ Forall (fun j => Loop.tasks l !! j = Some (Aio.Return tt)) pre)
        /\ (o = None ->
            let wake := repeat Loop.Callback (length (Loop.callbacks l))
                        ++ [Loop.Wake] in
            ((exists i e, Loop.tasks l !! i = Some (Aio.Throw e)) ->
             exists e' l',
               Loop.io_bench_asyncio tasks concurrency port payload
                 (sched ++ wake) = (Some (Raise e'), l')
               /\ Loop.tasks l' = Loop.tasks l)
            /\ (Forall (fun c => c = Aio.Return tt) (Loop.tasks l) ->
                exists l',
                  Loop.io_bench_asyncio tasks concurrency port payload
                    (sched ++ wake) = (Some (Ok tt), l')
                  /\ Loop.tasks l' = Loop.tasks l)))
  /\ (0 <= concurrency ->
      forall o l,
        Loop.cpu_bench_asyncio tasks units concurrency sched = (o, l) ->
        length (Loop.tasks l) = Z.to_nat tasks
        /\ (o = Some (Ok tt) ->
            Forall (fun c => c = Aio.Return (Cpu.cpu_work units)) (Loop.tasks l))
        /\ (forall e, o <> Some (Raise e))
        /\ Forall (fun c => Aio.failed c = false) (Loop.tasks l)
        /\ (o = None ->
            Forall (fun c => c = Aio.Return (Cpu.cpu_work units)) (Loop.tasks l) ->
            exists l',
              Loop.cpu_bench_asyncio tasks units concurrency
                (sched ++ repeat Loop.Callback (length (Loop.callbacks l))
                       ++ [Loop.Wake])
              = (Some (Ok tt), l')
              /\ Loop.tasks l' = Loop.tasks l)).
Proof.
  split; [|split].
  - intros Hneg. unfold Loop.io_bench_asyncio, Loop.cpu_bench_asyncio,
      Aio.Semaphore.
    replace (concurrency <? 0) with true by (symmetry; apply Z.ltb_lt; lia).
    by split.
  - intros Hpos o l. unfold Loop.io_bench_asyncio, Aio.Semaphore.
    replace (concurrency <? 0) with false by (symmetry; apply Z.ltb_ge; lia).
    set (coros := map _ (range tasks)).
    assert (Hunf : Forall (fun c => Aio.finished c = false) coros)
      by (apply Forall_copies; reflexivity).
    destruct (Loop.gather coros _ sched) as [og lg] eqn:Hg. intros H.
    destruct (gather_sound _ _ _ _ _ Hunf Hg) as (Hs & Hlen & Hout & Hmore).
    assert (Hl : lg = l) by (destruct og as [[?|?]|]; by injection H).
    subst lg. unfold coros in Hlen. rewrite length_map, range_length in Hlen.
    split; [exact Hlen|].
    assert (Hunit : forall j, Loop.returned (Loop.tasks l) j ->
                    Loop.tasks l !! j = Some (Aio.Return tt)).
    { intros j [[] Hj]. exact Hj. }
    split; [|split].
    + intros ->. destruct og as [[rs|e]|]; try discriminate H.
      destruct Hs as (_ & _ & _ & Hs). rewrite (Hout _ eq_refl) in Hs.
      apply mapM_Some in Hs. apply Forall_lookup. intros j c Hj.
      destruct (Forall2_lookup_l _ _ _ _ _ Hs Hj) as ([] & _ & Hc).
      destruct c; cbn in Hc; congruence.
    + intros e ->. destruct og as [[rs|e']|]; try discriminate H.
      injection H as ->.
      destruct Hs as (_ & _ & _ & Hs). rewrite (Hout _ eq_refl) in Hs.
      destruct Hs as (pre & i & post & Hdel & Hi & Hpre).
      exists pre, i, post. split; [exact Hdel|]. split; [exact Hi|].
      eapply Forall_impl; [exact Hpre | exact Hunit].
    + intros ->. destruct og as [[rs|e']|]; try discriminate H.
      cbn zeta. rewrite (Hmore eq_refl).
      destruct (sound_then_wake l Hs) as (l' & Ht & Hfail & Hok).
      split.
      * intros Hi. destruct (Hfail Hi) as [e' ->]. by exists e', l'.
      * intros Hret. destruct Hok as [rs ->]; [|by exists l'].
        eapply Forall_impl; [exact Hret|]. intros c ->. by exists tt.
  - intros Hpos o l. unfold Loop.cpu_bench_asyncio, Aio.Semaphore.
    replace (concurrency <? 0) with false by (symmetry; apply Z.ltb_ge; lia).
    set (coros := map _ (range tasks)).
    assert (Hunf : Forall (fun c => Aio.finished c = false) coros)
      by (apply Forall_copies; reflexivity).
    destruct (Loop.gather coros _ sched) as [og lg] eqn:Hg. intros H.
    destruct (gather_sound _ _ _ _ _ Hunf Hg) as (Hs & Hlen & Hout & Hmore).
    pose proof (gather_cpu _ _ _ _ _ _ Hg) as Hcpu.
    assert (Hl : lg = l) by (destruct og as [[?|?]|]; by injection H).
    subst lg. unfold coros in Hlen. rewrite length_map, range_length in Hlen.
    split; [exact Hlen|].
    assert (Hnofail : Forall (fun c => Aio.failed c = false) (Loop.tasks l)).
    { eapply Forall_impl; [exact Hcpu|]. by intros c [-> | ->]. }
    split; [|split; [|split; [exact Hnofail|]]].
    + intros ->. destruct og as [[rs|e]|]; try discriminate H.
      destruct Hs as (_ & _ & _ & Hs). rewrite (Hout _ eq_refl) in Hs.
      apply mapM_Some in Hs. apply Forall_lookup. intros j c Hj.
      destruct (Forall2_lookup_l _ _ _ _ _ Hs Hj) as (a & _ & Hc).
      pose proof (proj1 (Forall_lookup _ _) Hcpu j c Hj) as [-> | ->];
        [discriminate Hc | reflexivity].
    + intros e ->. destruct og as [[rs|e']|]; try discriminate H.
      destruct Hs as (_ & _ & _ & Hs). rewrite (Hout _ eq_refl) in Hs.
      destruct Hs as (pre & i & post & _ & Hi & _).
      pose proof (proj1 (Forall_lookup _ _) Hnofail i _ Hi) as Hf.
      discriminate Hf.
    + intros -> Hret. destruct og as [[rs|e']|]; try discriminate H.
      rewrite (Hmore eq_refl).
      destruct (sound_then_wake l Hs) as (l' & Ht & _ & Hok).
      destruct Hok as [rs ->]; [|by exists l'].
      eapply Forall_impl; [exact Hret|]. intros c ->. by eexists.
Qed.

(** C2, as it is stated, fails: with two tasks that both hold the
    semaphore, the first gets a wrong byte back and [io_bench_asyncio]
    raises [Echo mismatch] while the second task still waits for its
    connection.  It is so whether the done-callback of the failed task
    is called at once or in a later step of the loop. *)
Lemma gather_raises_before_all_tasks_finish :
  fst (Aio.io_bench_asyncio 2 2 8000 ["x"%byte] Aio.mismatch_first)
  = Some (Raise (RuntimeError "Echo mismatch"))
  /\ ~ Forall (fun c => Aio.finished c = true)
        (Aio.tasks
           (snd (Aio.io_bench_asyncio 2 2 8000 ["x"%byte] Aio.mismatch_first)))
  /\ fst (Loop.io_bench_asyncio 2 2 8000 ["x"%byte] Loop.mismatch_first)
     = Some (Raise (RuntimeError "Echo mismatch"))
  /\ ~ Forall (fun c => Aio.finished c = true)
        (Loop.tasks
           (snd (Loop.io_bench_asyncio 2 2 8000 ["x"%byte]
                   Loop.mismatch_first))).
Proof.
  split; [reflexivity|]. split; [|split; [reflexivity|]]; intros H;
    apply Forall_true_forallb in H; vm_compute in H; discriminate H.
Qed.

(** A call returns once the done-callback of the last task has been
    called, and not before. *)
Lemma gather_returns_after_last_callback :
  fst (Loop.io_bench_asyncio 2 1 8000 ["x"%byte] Loop.one_by_one)
  = Some (Ok tt)
  /\ fst (Loop.io_bench_asyncio 2 1 8000 ["x"%byte]
            (take 14 Loop.one_by_one))
     = None
  /\ Loop.tasks (snd (Loop.io_bench_asyncio 2 1 8000 ["x"%byte]
                        (take 14 Loop.one_by_one)))
     = [Aio.Return tt; Aio.Return tt].
Proof. repeat split. Qed.

(** The task whose exception is raised need not be the only one that
    has failed: three tasks are refused one after the other before the
    loop calls a done-callback; the call raises the exception of the
    first with all three failed. *)
Lemma gather_raises_with_every_task_failed :
  fst (Loop.io_bench_asyncio 3 3 8000 ["x"%byte] Loop.all_refused)
  = Some (Raise (OSError "Connection refused"))
  /\ Loop.tasks (snd (Loop.io_bench_asyncio 3 3 8000 ["x"%byte]
                        Loop.all_refused))
     = [Aio.Throw (OSError "Connection refused");
        Aio.Throw (OSError "Connection refused");
        Aio.Throw (OSError "Connection refused")]
  /\ Loop.delivered (snd (Loop.io_bench_asyncio 3 3 8000 ["x"%byte]
                            Loop.all_refused))
     = [0%nat].
Proof. repeat split. Qed.

(** C7. With the empty payload an echo task succeeds on every connection
    that is accepted, whatever the peer would send: the blocking tasks
    ([io_process_worker], [one] of [io_bench_threads]) send the empty
    payload, call [recv] not once and leave the deliveries of the peer
    untouched; [io_client_once] writes the empty payload, is never
    suspended for a read, and returns. *)
Theorem empty_payload_echo_succeeds (port : Z) (ib : list Echo.delivery)
    (tr : list Echo.wire_event) (a1 a2 a3 : Py.bytes) :
  Echo.io_process_worker (port, []) (Echo.mkNet None None ib tr)
  = (Ok 1, Echo.mkNet None None ib
             (tr ++ [Echo.WConnect port; Echo.WSend []; Echo.WClose]))
  /\ Echo.io_bench_threads_one port [] (Echo.mkNet None None ib tr)
     = (Ok tt, Echo.mkNet None None ib
                 (tr ++ [Echo.WConnect port; Echo.WSend []; Echo.WClose]))
  /\ Aio.drive (Aio.io_client_once port []) [Ok a1; Ok a2; Ok a3]
     = (Some (Ok tt),
        [inl (Aio.OpenConnection port); inr (Aio.WriterWrite []); inl Aio.Drain;
         inr Aio.WriterClose; inl Aio.WaitClosed])
  /\ ~ Aio.may_read (Aio.io_client_once port []).
Proof.
  assert (Hone : Echo.io_bench_threads_one port [] (Echo.mkNet None None ib tr)
                 = (Ok tt, Echo.mkNet None None ib
                      (tr ++ [Echo.WConnect port; Echo.WSend []; Echo.WClose]))).
  { rewrite one_unfold by reflexivity.
    rewrite recv_loop_done by (cbn; lia). cbn [fst snd].
    rewrite bool_decide_eq_false_2 by (intros Hx; by apply Hx).
    unfold Echo.observe. cbn. by rewrite <- !app_assoc. }
  split; [|split; [exact Hone|split]].
  - rewrite worker_is_one, Hone. reflexivity.
  - reflexivity.
  - cbn. intros [[d|e] H]; cbn in H; [|exact H].
    destruct H as [[d'|e'] H]; cbn in H.
    + destruct H as [[d''|e''] H]; exact H.
    + destruct H as [[d''|e''] H]; exact H.
Qed.

Lemma gather_returns_all_or_first_failure_witness :
  let l := snd (Loop.io_bench_asyncio 2 2 8000 ["x"%byte] Loop.mismatch_first) in
  length (Loop.tasks l) = Z.to_nat 2
  /\ exists pre i post,
       Loop.delivered l = pre ++ i :: post
       /\ Loop.tasks l !! i = Some (Aio.Throw (RuntimeError "Echo mismatch"))
       /\ Forall (fun j => Loop.tasks l !! j = Some (Aio.Return tt)) pre.
Proof.
  destruct (proj1 (proj2 (gather_returns_all_or_first_failure 2 2 0 8000
                            ["x"%byte] Loop.mismatch_first))
              ltac:(lia) (Some (Raise (RuntimeError "Echo mismatch"))) _ eq_refl)
    as (Hlen & _ & Hraise & _).
  split; [exact Hlen | exact (Hraise _ eq_refl)].
Defined.

(** ** More about the statistics *)

Section StatsBounds.
Import Stats.

Lemma fold_min_spec (xs : list Q) (x : Q) :
  let m := fold_left (fun m y => if Qle_bool m y then m else y) xs x in
  In m (x :: xs) /\ (m <= x)%Q /\ Forall (Qle m) xs.
Proof.
  revert x. induction xs as [|y ys IH]; intros x; cbn [fold_left].
  - split; [by left|]. split; [apply Qle_refl | constructor].
  - destruct (IH (if Qle_bool x y then x else y)) as (Hin & Hle & Hall).
    set (m := fold_left _ ys _) in *.
    destruct (Qle_bool x y) eqn:Hxy.
    + apply Qle_bool_iff in Hxy. split; [|split].
      * destruct Hin as [<-|Hin]; [by left | by right; right].
      * exact Hle.
      * constructor; [eapply Qle_trans; eassumption | exact Hall].
    + assert (Hyx : (y <= x)%Q).
      { apply Qlt_le_weak, Qnot_le_lt. intros H.
        apply Qle_bool_iff in H. congruence. }
      split; [|split].
      * destruct Hin as [<-|Hin]; [by right; left | by right; right].
      * eapply Qle_trans; eassumption.
      * constructor; [exact Hle | exact Hall].
Qed.

Lemma fold_max_spec (xs : list Q) (x : Q) :
  let m := fold_left (fun m y => if Qle_bool y m then m else y) xs x in
  In m (x :: xs) /\ (x <= m)%Q /\ Forall (fun y => (y <= m)%Q) xs.
Proof.
  revert x. induction xs as [|y ys IH]; intros x; cbn [fold_left].
  - split; [by left|]. split; [apply Qle_refl | constructor].
  - destruct (IH (if Qle_bool y x then x else y)) as (Hin & Hle & Hall).
    set (m := fold_left _ ys _) in *.
    destruct (Qle_bool y x) eqn:Hyx.
    + apply Qle_bool_iff in Hyx. split; [|split].
      * destruct Hin as [<-|Hin]; [by left | by right; right].
      * exact Hle.
      * constructor; [eapply Qle_trans; eassumption | exact Hall].
    + assert (Hxy : (x <= y)%Q).
      { apply Qlt_le_weak, Qnot_le_lt. intros H.
        apply Qle_bool_iff in H. congruence. }
      split; [|split].
      * destruct Hin as [<-|Hin]; [by right; left | by right; right].
      * eapply Qle_trans; eassumption.
      * constructor; [exact Hle | exact Hall].
Qed.

Lemma sorted_adjacent (l : list Q) (k : nat) :
  Sorted Qle l -> (S k < length l)%nat -> (nth k l 0 <= nth (S k) l 0)%Q.
Proof.
  intros Hs. revert k. induction Hs as [|x l Hs IH Hhd]; intros k Hk;
    cbn [length] in Hk; [lia|].
  destruct k as [|k].
  - destruct Hhd as [|y l' Hxy]; cbn [length] in Hk; [lia | exact Hxy].
  - cbn [nth]. apply IH. lia.
Qed.

End StatsBounds.

(** X1. For a [Result] with at least one duration, [min] is one of the
    durations and no duration is below it, and [max] is one of the
    durations and no duration is above it. *)
Theorem result_min_max_are_bounds (r : Stats.Result) :
  Stats.runs r <> [] ->
  exists lo hi : Q,
    Stats.min r = Ok (Num lo) /\ Stats.max r = Ok (Num hi)
    /\ In lo (Stats.runs r) /\ In hi (Stats.runs r)
    /\ Forall (fun x => (lo <= x)%Q /\ (x <= hi)%Q) (Stats.runs r).
Proof.
  intros Hne. unfold Stats.min, Stats.max.
  destruct (Stats.runs r) as [|x xs]; [congruence|]. cbn.
  destruct (fold_min_spec xs x) as (Hin1 & Hle1 & Hall1).
  destruct (fold_max_spec xs x) as (Hin2 & Hle2 & Hall2).
  eexists _, _. split; [reflexivity|]. split; [reflexivity|].
  split; [exact Hin1|]. split; [exact Hin2|].
  constructor; [by split|].
  apply List.Forall_forall. intros y Hy. split.
  - eapply (proj1 (List.Forall_forall _ _) Hall1), Hy.
  - eapply (proj1 (List.Forall_forall _ _) Hall2), Hy.
Qed.

Lemma result_min_max_are_bounds_witness :
  exists lo hi : Q,
    Stats.min (Stats.mkResult "threads" [3; 1; 2]%Q) = Ok (Num lo)
    /\ Stats.max (Stats.mkResult "threads" [3; 1; 2]%Q) = Ok (Num hi)
    /\ In lo [3; 1; 2]%Q /\ In hi [3; 1; 2]%Q
    /\ Forall (fun x => (lo <= x)%Q /\ (x <= hi)%Q) [3; 1; 2]%Q.
Proof.
  apply (result_min_max_are_bounds (Stats.mkResult "threads" [3; 1; 2]%Q)).
  simpl. discriminate.
Defined.

(** X2. For a [Result] with at least one duration, [med] is made of
    durations that lie between [min] and [max]: there are two durations
    [a <= b] of the list, neither below [min] nor above [max], such that
    [med] is [a] when the number of durations is odd (and then [a] is
    [b]), and [(a + b) / 2] when it is even. *)
Theorem result_med_of_middle_durations (r : Stats.Result) :
  Stats.runs r <> [] ->
  exists lo hi a b : Q,
    Stats.min r = Ok (Num lo) /\ Stats.max r = Ok (Num hi)
    /\ In a (Stats.runs r) /\ In b (Stats.runs r)
    /\ (lo <= a)%Q /\ (a <= b)%Q /\ (b <= hi)%Q
    /\ (Nat.odd (length (Stats.runs r)) = true ->
        a = b /\ Stats.med r = Ok (Num a))
    /\ (Nat.odd (length (Stats.runs r)) = false ->
        Stats.med r = Ok (Num ((a + b) / 2)%Q)).
Proof.
  intros Hne. unfold Stats.min, Stats.max, Stats.med, Stats.median.
  destruct (Stats.runs r) as [|x xs] eqn:Hr; [congruence|].
  cbn [Stats.truthy Stats.py_min Stats.py_max obind].
  rewrite statistics_median_conventional by congruence. cbn [obind].
  destruct (fold_min_spec xs x) as (_ & Hle1 & Hall1).
  destruct (fold_max_spec xs x) as (_ & Hle2 & Hall2).
  set (lo := fold_left (fun m y => if Qle_bool m y then m else y) xs x) in *.
  set (hi := fold_left (fun m y => if Qle_bool y m then m else y) xs x) in *.
  set (s := Stats.sorted (x :: xs)).
  assert (Hlen : length s = length (x :: xs)) by apply sorted_length.
  assert (Hpos : (0 < length s)%nat) by (rewrite Hlen; cbn; lia).
  assert (Hhalf : (length s / 2 < length s)%nat) by (apply Nat.div_lt; lia).
  assert (Hin : forall k, (k < length s)%nat ->
                In (nth k s 0%Q) (x :: xs)
                /\ (lo <= nth k s 0)%Q /\ (nth k s 0 <= hi)%Q).
  { intros k Hk.
    assert (Hy : In (nth k s 0%Q) (x :: xs)).
    { apply (Permutation_in _ (Permutation_sym (sorted_permutation (x :: xs)))).
      by apply nth_In. }
    split; [exact Hy|].
    destruct Hy as [<-|Hy]; [by split|]. split.
    - eapply (proj1 (List.Forall_forall _ _) Hall1), Hy.
    - eapply (proj1 (List.Forall_forall _ _) Hall2), Hy. }
  unfold Stats.conventional_median. fold s. rewrite <- Hlen.
  destruct (Nat.odd (length s)) eqn:Hodd.
  - destruct (Hin _ Hhalf) as (Hy & Hlo & Hhi).
    exists lo, hi, (nth (length s / 2) s 0%Q), (nth (length s / 2) s 0%Q).
    do 2 (split; [reflexivity|]). do 2 (split; [exact Hy|]).
    split; [exact Hlo|]. split; [apply Qle_refl|]. split; [exact Hhi|].
    split; [intros _; split; reflexivity | discriminate].
  - assert (Heven : Nat.even (length s) = true).
    { rewrite <- Nat.negb_odd, Hodd. reflexivity. }
    apply Nat.even_spec in Heven. destruct Heven as [m Hm].
    assert (Hdiv : (length s / 2 = m)%nat).
    { rewrite Hm, Nat.mul_comm. apply Nat.div_mul. lia. }
    destruct (Hin (length s / 2 - 1)%nat ltac:(lia)) as (Hya & Hloa & _).
    destruct (Hin _ Hhalf) as (Hyb & _ & Hhib).
    exists lo, hi, (nth (length s / 2 - 1) s 0%Q), (nth (length s / 2) s 0%Q).
    do 2 (split; [reflexivity|]). split; [exact Hya|]. split; [exact Hyb|].
    split; [exact Hloa|]. split; [|split; [exact Hhib|]].
    + replace (length s / 2)%nat with (S (length s / 2 - 1)) at 2 by lia.
      apply sorted_adjacent; [apply sorted_ascending | lia].
    + split; [discriminate | reflexivity].
Qed.

Lemma result_med_of_middle_durations_witness :
  exists lo hi a b : Q,
    Stats.min (Stats.mkResult "asyncio" [3; 1; 4; 2]%Q) = Ok (Num lo)
    /\ Stats.max (Stats.mkResult "asyncio" [3; 1; 4; 2]%Q) = Ok (Num hi)
    /\ In a [3; 1; 4; 2]%Q /\ In b [3; 1; 4; 2]%Q
    /\ (lo <= a)%Q /\ (a <= b)%Q /\ (b <= hi)%Q
    /\ (Nat.odd 4 = true ->
        a = b /\ Stats.med (Stats.mkResult "asyncio" [3; 1; 4; 2]%Q)
                 = Ok (Num a))
    /\ (Nat.odd 4 = false ->
        Stats.med (Stats.mkResult "asyncio" [3; 1; 4; 2]%Q)
        = Ok (Num ((a + b) / 2)%Q)).
Proof.
  apply (result_med_of_middle_durations
           (Stats.mkResult "asyncio" [3; 1; 4; 2]%Q)).
  simpl. discriminate.
Defined.

(** ** More about the trial runner: failures *)

Section RunnerFailures.
Import Stats Runner.
Context {W : Type} (clock_read : W -> Q * W).

Lemma warmup_failure (fn : M W unit) (xs : list Z) (s s' : rstate W) e :
  for_each xs (fun _ => Runner.call fn) s = (Raise e, s') ->
  exists (k : nat) (w : W),
    (k < length xs)%nat
    /\ log s' = log s ++ repeat EvCall k
    /\ fn w = (Raise e, env s').
Proof.
  revert s. induction xs as [|x xs IH]; intros s H; cbn in H.
  - discriminate H.
  - unfold bind in H at 1. unfold Runner.call in H at 1.
    destruct (fn (env s)) as [[[]|e0] w1] eqn:Hf.
    + apply IH in H as (k & w & Hk & Hl & Hw). cbn [log] in Hl.
      exists (S k), w. split; [cbn; lia|].
      split; [by rewrite Hl, <- app_assoc | exact Hw].
    + injection H as <- <-. exists O, (env s). cbn [length repeat log env].
      split; [lia|]. split; [by rewrite app_nil_r | exact Hf].
Qed.

Lemma measured_failure (fn : M W unit) (xs : list Z) (acc : list Q)
    (s s' : rstate W) e :
  for_fold xs acc (measured_body clock_read fn) s = (Raise e, s') ->
  exists (ts : list (Q * Q)) (t0 : Q) (w : W),
    (length ts < length xs)%nat
    /\ log s' = log s ++ concat (map trial_events ts) ++ [EvNow t0]
    /\ fn w = (Raise e, env s').
Proof.
  revert acc s. induction xs as [|x xs IH]; intros acc s H; cbn [for_fold] in H.
  - discriminate H.
  - unfold bind in H at 1.
    destruct (measured_body clock_read fn x acc s) as [[acc1|e1] s1] eqn:Hb.
    + apply measured_body_inv in Hb as (w1 & u & w2 & _ & _ & _ & _ & Hl).
      apply IH in H as (ts & t0 & w & Hlen & Hlog & Hw).
      eexists (_ :: ts), t0, w. cbn [length map concat].
      split; [lia|]. split; [|exact Hw].
      rewrite Hlog, Hl, <- !app_assoc. reflexivity.
    + injection H as <- <-. clear IH.
      unfold measured_body, bind, Runner.now, Runner.call, ret in Hb.
      cbn [env log] in Hb.
      destruct (clock_read (env s)) as [t0 w0]. cbn [env log] in Hb.
      destruct (fn w0) as [[u|e0] w1] eqn:Hf; cbn [env log] in Hb.
      * destruct (clock_read w1) as [t1 w2]. discriminate Hb.
      * injection Hb as <- <-. exists [], t0, w0. cbn.
        split; [lia|]. split; [reflexivity | exact Hf].
Qed.

Lemma calls_open_trial (ts : list (Q * Q)) (t0 : Q) :
  calls (concat (map trial_events ts) ++ [EvNow t0]) = length ts.
Proof. rewrite calls_app, calls_trials. cbn. lia. Qed.

(** X3. A trial runner neither raises an exception of its own nor
    catches one of the invocation.  On every run, what it returns or
    raises and the world it leaves are those of [warmup] executions of
    the invocation followed by [repeats] trials, which stop at the first
    execution that raises, with its exception: so the runner raises as
    soon as an execution does, the first one included.  When it raises,
    the exception is the one the invocation has just raised, the state is
    the one that invocation has left, fewer than [warmup + repeats]
    executions have come to their end, and no [Result] is returned. *)
Theorem run_repeated_failure_is_of_invocation run label repeats fn warmup
    (s : rstate W) :
  In run (runners clock_read) ->
  (fst (run label repeats fn warmup s), env (snd (run label repeats fn warmup s)))
  = executes clock_read label repeats fn warmup (env s)
  /\ (forall e w', fn (env s) = (Raise e, w') -> 0 < warmup ->
        fst (run label repeats fn warmup s) = Raise e
        /\ env (snd (run label repeats fn warmup s)) = w')
  /\ (forall e w1 w2,
        warmup_phase (Z.to_nat warmup) fn (env s) = (Ok tt, w1) ->
        measured_phase clock_read (Z.to_nat repeats) fn w1 = (Raise e, w2) ->
        fst (run label repeats fn warmup s) = Raise e
        /\ env (snd (run label repeats fn warmup s)) = w2)
  /\ (forall e s', run label repeats fn warmup s = (Raise e, s') ->
        exists (w : W) (tr : list event),
          fn w = (Raise e, env s')
          /\ log s' = log s ++ tr
          /\ (calls tr < Z.to_nat warmup + Z.to_nat repeats)%nat).
Proof.
  intros Hrun. apply runners_agree in Hrun. subst run.
  pose proof (run_repeated_refines clock_read label repeats fn warmup s) as Href.
  split; [exact Href|]. split; [|split].
  - intros e w' Hf Hpos. unfold executes in Href.
    destruct (Z.to_nat warmup) as [|n] eqn:Hn; [lia|].
    cbn [warmup_phase] in Href. rewrite Hf in Href.
    injection Href as -> ->. split; reflexivity.
  - intros e w1 w2 Hw Hm. unfold executes in Href. rewrite Hw, Hm in Href.
    injection Href as -> ->. split; reflexivity.
  - clear Href. intros e s' H.
    rewrite run_repeated_unfold in H. unfold bind in H at 1.
    destruct (for_each _ _ s) as [[u|e1] s1] eqn:Hw.
    + unfold bind in H at 1.
      destruct (for_fold _ _ _ s1) as [[runs|e2] s2] eqn:Hm; [discriminate H|].
      injection H as <- <-.
      apply warmup_trace in Hw.
      apply measured_failure in Hm as (ts & t0 & w & Hlen & Hlog & Hf).
      rewrite range_length in *.
      exists w, (repeat EvCall (Z.to_nat warmup)
                   ++ concat (map trial_events ts) ++ [EvNow t0]).
      split; [exact Hf|]. split; [by rewrite Hlog, Hw, <- app_assoc|].
      rewrite calls_app, calls_warmup, calls_open_trial. lia.
    + injection H as <- <-.
      apply warmup_failure in Hw as (k & w & Hk & Hlog & Hf).
      rewrite range_length in Hk.
      exists w, (repeat EvCall k). split; [exact Hf|]. split; [exact Hlog|].
      rewrite calls_warmup. lia.
Qed.

End RunnerFailures.

Lemma run_repeated_failure_is_of_invocation_witness :
  Runner.run_repeated Runner.wall_clock "threads" 5 Runner.refused 1
    (Runner.mkState 0%Q [])
  = (Raise (OSError "Connection refused"), Runner.mkState (0 + 1)%Q [])
  /\ exists (w : Q) (tr : list Runner.event),
       Runner.refused w = (Raise (OSError "Connection refused"), (0 + 1)%Q)
       /\ [] = [] ++ tr
       /\ (Runner.calls tr < Z.to_nat 1 + Z.to_nat 5)%nat.
Proof.
  split; [reflexivity|].
  exact (proj2 (proj2 (proj2
    (run_repeated_failure_is_of_invocation Runner.wall_clock
       (Runner.run_repeated Runner.wall_clock) "threads" 5 Runner.refused 1
       (Runner.mkState 0%Q []) ltac:(left; reflexivity))))
    (OSError "Connection refused") (Runner.mkState (0 + 1)%Q []) eq_refl).
Defined.

(** ** More about the trial runner: the trials follow one another *)

Section RunnerTimeline.
Import Stats Runner Timeline.
Context {W : Type} (clock_read : W -> Q * W) (elapsed : W -> Q).

Lemma measured_timeline (fn : M W unit) (xs : list Z) (acc runs : list Q)
    (s s' : rstate W) :
  monotonic_clock clock_read elapsed ->
  keeps_time elapsed fn ->
  for_fold xs acc (measured_body clock_read fn) s = (Ok runs, s') ->
  exists ts : list (Q * Q),
    length ts = length xs
    /\ runs = acc ++ map trial_duration ts
    /\ log s' = log s ++ concat (map trial_events ts)
    /\ Sorted Qle (readings ts)
    /\ Forall (fun t => (elapsed (env s) <= t)%Q) (readings ts)
    /\ (elapsed (env s) <= elapsed (env s'))%Q.
Proof.
  intros Hclock Hfn. revert acc s.
  induction xs as [|x xs IH]; intros acc s H; cbn [for_fold] in H.
  - unfold ret in H. injection H as <- <-. exists []. cbn.
    rewrite !app_nil_r. repeat split; try constructor. apply Qle_refl.
  - unfold bind in H at 1.
    destruct (measured_body clock_read fn x acc s) as [[acc1|e] s1] eqn:Hb;
      [|discriminate].
    apply measured_body_inv in Hb as (w1 & u & w2 & Hf & -> & Hs1 & Hr & Hl).
    apply IH in H as (ts & Hlen & Hruns & Hlog & Hsorted & Hlow & Hle).
    pose proof (Hclock (env s)) as [Ha Hb].
    pose proof (Hclock w1) as [Hc Hd].
    apply Hfn in Hf. rewrite Hs1 in *.
    set (t0 := fst (clock_read (env s))) in *.
    set (t1 := fst (clock_read w1)) in *.
    assert (Hlow1 : Forall (fun t => (t1 <= t)%Q) (readings ts)).
    { eapply Forall_impl; [exact Hlow|]. intros t Ht. cbn beta in Ht. lra. }
    exists ((t0, t1) :: ts). cbn [length map concat readings flat_map fst snd app].
    fold (readings ts).
    split; [by rewrite Hlen|].
    split; [by rewrite Hruns, Hr, <- app_assoc|].
    split; [by rewrite Hlog, Hl, <- app_assoc|].
    split; [|split].
    + constructor; [constructor; [exact Hsorted|]|].
      * destruct Hlow1; constructor. assumption.
      * constructor. lra.
    + constructor; [lra|]. constructor; [lra|].
      eapply Forall_impl; [exact Hlow1|]. intros t Ht. cbn beta in Ht. lra.
    + lra.
Qed.

(** X4. With a monotonic clock the trials of a successful run follow one
    another: every trial ends not before it begins, and begins not
    before the trial before it has ended. The readings of the clock,
    in the order of the trace, are in ascending order. *)
Theorem run_repeated_trials_do_not_overlap run label repeats fn warmup
    (s s' : rstate W) res :
  In run (runners clock_read) ->
  monotonic_clock clock_read elapsed ->
  keeps_time elapsed fn ->
  run label repeats fn warmup s = (Ok res, s') ->
  exists trials : list (Q * Q),
    log s' = log s ++ repeat EvCall (Z.to_nat warmup)
                   ++ concat (map trial_events trials)
    /\ runs res = map trial_duration trials
    /\ Sorted Qle (readings trials).
Proof.
  intros Hrun Hclock Hfn H. apply runners_agree in Hrun. subst run.
  rewrite run_repeated_unfold in H. unfold bind in H at 1.
  destruct (for_each _ _ s) as [[u|e] s1] eqn:Hw; [|discriminate].
  unfold bind in H at 1.
  destruct (for_fold _ _ _ s1) as [[rs|e] s2] eqn:Hm; [|discriminate].
  unfold ret in H. injection H as <- <-.
  apply warmup_trace in Hw. rewrite range_length in Hw.
  apply (measured_timeline fn _ _ _ _ _ Hclock Hfn) in Hm
    as (ts & _ & -> & Hlog & Hsorted & _).
  exists ts. cbn [runs app]. split; [by rewrite Hlog, Hw, <- app_assoc|].
  split; [reflexivity | exact Hsorted].
Qed.

End RunnerTimeline.

Lemma run_repeated_trials_do_not_overlap_witness :
  exists trials : list (Q * Q),
    [Runner.EvCall; Runner.EvNow 1; Runner.EvCall; Runner.EvNow 2;
     Runner.EvNow 2; Runner.EvCall; Runner.EvNow 3]
    = [] ++ repeat Runner.EvCall (Z.to_nat 1)
         ++ concat (map Runner.trial_events trials)
    /\ [1; 1]%Q = map Runner.trial_duration trials
    /\ Sorted Qle (Timeline.readings trials).
Proof.
  apply (run_repeated_trials_do_not_overlap Runner.wall_clock (fun t => t)
           (Runner.run_repeated Runner.wall_clock) "threads" 2
           Runner.one_second 1 (Runner.mkState 0%Q [])
           (Runner.mkState 3%Q
              [Runner.EvCall; Runner.EvNow 1; Runner.EvCall; Runner.EvNow 2;
               Runner.EvNow 2; Runner.EvCall; Runner.EvNow 3])
           (Stats.mkResult "threads" [1; 1]%Q)).
  - left. reflexivity.
  - intros w. split; apply Qle_refl.
  - intros w u w' H. injection H as _ <-. cbn beta. lra.
  - reflexivity.
Defined.

(** ** More about the executors: a batch of tasks *)

Section BatchFacts.
Import Pool Batch.

Lemma collect_ext {S A B} (xs : list A) (g g' : A -> M S B) :
  (forall x, g x = g' x) -> collect xs g = collect xs g'.
Proof.
  intros Hg. induction xs as [|x xs IH]; cbn [collect]; [reflexivity|].
  by rewrite Hg, IH.
Qed.

Lemma collect_submit {A} (ex : kind) (v : outcome A) {B} (xs : list B)
    (w : world) :
  collect xs (fun _ => submit ex v) w
  = (Ok (repeat v (length xs)),
     mkWorld (conns w) (journal w ++ repeat (Submitted ex) (length xs))).
Proof.
  revert w. induction xs as [|x xs IH]; intros w; cbn [collect length repeat].
  - unfold ret. rewrite app_nil_r. by destruct w.
  - unfold bind at 1. unfold submit at 1, bind, observe, ret. cbn [conns journal].
    rewrite IH. cbn [conns journal]. by rewrite <- app_assoc.
Qed.

Lemma collect_result_ok {S A} (v : A) (n : nat) (s : S) :
  collect (repeat (Ok v) n) result s = (Ok (repeat v n), s).
Proof.
  induction n as [|n IH]; cbn [repeat collect]; [reflexivity|].
  unfold bind at 1. unfold result at 1. unfold bind. by rewrite IH.
Qed.

Lemma for_each_result {S A} (futs : list (outcome A)) (s : S) :
  for_each futs (fun f => bind (result f) (fun _ => ret tt)) s
  = (first_failure futs, s).
Proof.
  induction futs as [|[a|e] futs IH]; cbn [for_each first_failure];
    [reflexivity| |reflexivity].
  unfold bind at 1. cbn. exact IH.
Qed.

Lemma collect_result_first_failure {S A} (futs : list (outcome A)) (s : S) :
  exists o, collect futs result s = (o, s)
            /\ obind o (fun _ => Ok tt) = first_failure futs.
Proof.
  induction futs as [|[a|e] futs IH]; cbn [collect first_failure].
  - by eexists.
  - destruct IH as (o & Heq & Ho).
    unfold bind at 1. unfold result at 1. unfold bind. rewrite Heq.
    destruct o as [vs|e]; eexists; (split; [reflexivity | exact Ho]).
  - by eexists.
Qed.

(** Tasks submitted with ranks that differ run each on the connection of
    its rank, as it was before the batch. *)
Lemma collect_submit_io {X A} (ex : kind) (rank : X -> nat)
    (task : X -> M Echo.net A) (xs : list X) (w : world) :
  NoDup (map rank xs) ->
  exists cs,
    collect xs (fun x => submit_io ex (rank x) (task x)) w
    = (Ok (map (fun x => fst (task x (connection w (rank x)))) xs),
       mkWorld cs (journal w ++ repeat (Submitted ex) (length xs)))
    /\ length cs = length (conns w)
    /\ (forall x, In x xs -> (rank x < length cs)%nat ->
          cs !! rank x = Some (snd (task x (connection w (rank x)))))
    /\ (forall j, ~ In j (map rank xs) -> cs !! j = conns w !! j).
Proof.
  revert w. induction xs as [|x xs IH]; intros w Hnd; cbn [collect map length repeat].
  - exists (conns w). unfold ret. rewrite app_nil_r.
    split; [by destruct w|]. split; [reflexivity|].
    split; [intros x []|reflexivity].
  - cbn [map] in Hnd. apply NoDup_cons in Hnd as [Hx Hnd].
    rewrite list_elem_of_In in Hx.
    unfold bind at 1. unfold submit_io at 1. fold (connection w (rank x)).
    destruct (task x (connection w (rank x))) as [r c] eqn:Ht.
    set (w1 := mkWorld (<[rank x:=c]> (conns w)) (journal w ++ [Submitted ex])).
    destruct (IH w1 Hnd) as (cs & Hrun & Hlen & Hin & Hout).
    assert (Hconn : forall y, In y xs -> connection w1 (rank y) = connection w (rank y)).
    { intros y Hy. unfold connection, w1. cbn [conns].
      rewrite list_lookup_insert_ne; [reflexivity|].
      intros Heq. apply Hx. rewrite Heq. by apply in_map. }
    unfold bind. rewrite Hrun. unfold ret. exists cs.
    unfold w1 in Hlen. cbn [conns journal] in *. rewrite length_insert in Hlen.
    split; [|split; [exact Hlen|split]].
    + cbn [fst].
      rewrite (map_ext_in (fun x0 => fst (task x0 (connection w1 (rank x0))))
                 (fun x0 => fst (task x0 (connection w (rank x0)))))
        by (intros y Hy; by rewrite Hconn).
      unfold w1. cbn [journal]. by rewrite <- app_assoc.
    + intros y [<-|Hy] Hlt.
      * rewrite Hout by exact Hx. unfold w1. cbn [conns].
        rewrite list_lookup_insert_eq by lia. by rewrite Ht.
      * rewrite Hin by assumption. by rewrite Hconn.
    + intros j Hj. cbn [In] in Hj.
      rewrite Hout by tauto. unfold w1. cbn [conns].
      apply list_lookup_insert_ne. tauto.
Qed.

Lemma ranks_of_range (n : Z) : map Z.to_nat (range n) = seq 0 (Z.to_nat n).
Proof.
  unfold range. rewrite map_map. rewrite <- (map_id (seq 0 (Z.to_nat n))) at 2.
  apply map_ext. intros i. apply Nat2Z.id.
Qed.

End BatchFacts.

(** X5. The compute benchmarks on a pool cannot fail once the pool is
    made: with a positive number of workers, [cpu_bench_threads] and
    [cpu_bench_processes] create the pool, submit exactly [tasks] tasks,
    shut the pool down and return; with a number of workers that is not
    positive they raise [ValueError] and leave no trace. *)
Theorem cpu_bench_pool_lifecycle (tasks units workers : Z) (w : Pool.world) :
  Pool.cpu_bench_threads tasks units workers w
  = (if workers <=? 0
     then (Raise (ValueError "max_workers must be greater than 0"), w)
     else (Ok tt,
           Pool.mkWorld (Pool.conns w)
             (Pool.journal w
                ++ Batch.lifecycle Pool.Threads workers (Z.to_nat tasks))))
  /\ Pool.cpu_bench_processes tasks units workers w
     = (if workers <=? 0
        then (Raise (ValueError "max_workers must be greater than 0"), w)
        else (Ok tt,
              Pool.mkWorld (Pool.conns w)
                (Pool.journal w
                   ++ Batch.lifecycle Pool.Processes workers (Z.to_nat tasks)))).
Proof.
  unfold Pool.cpu_bench_threads, Pool.cpu_bench_processes,
    Pool.ThreadPoolExecutor, Pool.ProcessPoolExecutor, Batch.lifecycle.
  destruct (workers <=? 0); [split; reflexivity|].
  split.
  all: unfold bind at 1; unfold bind at 1; unfold Pool.observe at 1;
    unfold ret at 1; unfold finally, bind at 1;
    rewrite collect_submit; unfold bind at 1;
    rewrite collect_result_ok; unfold Pool.shutdown, Pool.observe, ret;
    cbn [Pool.conns Pool.journal]; rewrite range_length;
    rewrite <- !app_assoc; reflexivity.
Qed.

Section BatchRuns.
Import Pool Batch.

Lemma collect_map {S X Y B} (f : X -> Y) (xs : list X) (g : Y -> M S B) :
  collect (map f xs) g = collect xs (fun x => g (f x)).
Proof.
  induction xs as [|x xs IH]; cbn [map collect]; [reflexivity|]. by rewrite IH.
Qed.

Lemma imap_ranks {X Y} (g : nat -> nat) (a : Y) (xs : list X) :
  imap (fun rank job => (g rank, job)) (map (fun _ => a) xs)
  = map (fun i => (g i, a)) (seq 0 (length xs)).
Proof.
  revert g. induction xs as [|x xs IH]; intros g; [reflexivity|].
  cbn [map length seq imap]. f_equal.
  rewrite <- seq_shift, map_map. apply (IH (fun i => g (S i))).
Qed.

(** [n] tasks submitted with the ranks [0 .. n-1]. *)
Lemma batch_on_ranks {A} (ex : kind) (task : M Echo.net A) (n : nat)
    (w : world) :
  collect (seq 0 n) (fun i => submit_io ex i task) w
  = (Ok (outcomes task n w),
     mkWorld (after_batch task n (conns w))
       (journal w ++ repeat (Submitted ex) n)).
Proof.
  destruct (collect_submit_io ex (fun i : nat => i) (fun _ => task) (seq 0 n) w)
    as (cs & Hrun & Hlen & Hin & Hout).
  { rewrite map_id. apply NoDup_seq. }
  rewrite Hrun, length_seq. unfold outcomes. f_equal. f_equal.
  apply list_eq. intros i. unfold after_batch. rewrite list_lookup_imap.
  destruct (Nat.ltb_spec i n) as [Hi|Hi].
  - destruct (conns w !! i) as [c|] eqn:Hc.
    + rewrite Hin.
      * unfold connection. rewrite Hc. reflexivity.
      * apply in_seq. lia.
      * rewrite Hlen. eapply lookup_lt_Some, Hc.
    + cbn. apply lookup_ge_None. rewrite Hlen. by apply lookup_ge_None.
  - rewrite Hout.
    + destruct (conns w !! i) as [c|]; cbn; [|reflexivity].
      by replace (i <? n)%nat with false by (symmetry; apply Nat.ltb_ge; lia).
    + rewrite map_id, in_seq. lia.
Qed.

Lemma threads_batch (ex : kind) (tasks port : Z) (payload : bytes) (w : world) :
  collect (range tasks)
    (fun i => submit_io ex (Z.to_nat i) (Echo.io_bench_threads_one port payload)) w
  = collect (seq 0 (Z.to_nat tasks))
      (fun i => submit_io ex i (Echo.io_bench_threads_one port payload)) w.
Proof.
  unfold range. rewrite collect_map.
  erewrite collect_ext; [reflexivity|]. intros i. cbn beta. by rewrite Nat2Z.id.
Qed.

Lemma processes_batch (ex : kind) (tasks port : Z) (payload : bytes) (w : world) :
  collect (imap (fun rank job => (rank, job))
             (map (fun _ => (port, payload)) (range tasks)))
    (fun '(rank, job) => submit_io ex rank (Echo.io_process_worker job)) w
  = collect (seq 0 (Z.to_nat tasks))
      (fun i => submit_io ex i (Echo.io_process_worker (port, payload))) w.
Proof.
  rewrite (imap_ranks (fun i => i)), range_length, collect_map. reflexivity.
Qed.

End BatchRuns.

Lemma io_bench_threads_run (tasks concurrency port : Z)
    (payload : Py.bytes) (w : Pool.world) :
  0 < concurrency ->
  Pool.io_bench_threads tasks concurrency port payload w
  = (Batch.first_failure
       (Batch.outcomes (Echo.io_bench_threads_one port payload)
          (Z.to_nat tasks) w),
     Pool.mkWorld
       (Batch.after_batch (Echo.io_bench_threads_one port payload)
          (Z.to_nat tasks) (Pool.conns w))
       (Pool.journal w
          ++ Batch.lifecycle Pool.Threads concurrency (Z.to_nat tasks))).
Proof.
  intros Hc. unfold Pool.io_bench_threads, Pool.ThreadPoolExecutor.
  replace (concurrency <=? 0) with false by (symmetry; apply Z.leb_gt; lia).
  unfold bind at 1. unfold bind at 1. unfold Pool.observe at 1. unfold ret at 1.
  unfold finally. unfold bind at 1.
  rewrite threads_batch, batch_on_ranks. cbn [Pool.conns Pool.journal].
  rewrite for_each_result. unfold Pool.shutdown, Pool.observe.
  cbn [Pool.conns Pool.journal]. unfold Batch.lifecycle, Batch.outcomes, Batch.connection.
  cbn [Pool.conns]. by rewrite <- !app_assoc.
Qed.

(** X6. [io_bench_threads] with a positive [concurrency] runs every one
    of its tasks, each on its own connection, also when an earlier one
    has failed; it shuts the pool down on every way out; and what it
    raises is the first failure in the order of the tasks, or nothing
    when no task has failed. *)
Theorem io_bench_threads_joins_all (tasks concurrency port : Z)
    (payload : Py.bytes) (w : Pool.world) :
  0 < concurrency ->
  Pool.io_bench_threads tasks concurrency port payload w
  = (Batch.first_failure
       (Batch.outcomes (Echo.io_bench_threads_one port payload)
          (Z.to_nat tasks) w),
     Pool.mkWorld
       (Batch.after_batch (Echo.io_bench_threads_one port payload)
          (Z.to_nat tasks) (Pool.conns w))
       (Pool.journal w
          ++ Batch.lifecycle Pool.Threads concurrency (Z.to_nat tasks))).
Proof. apply io_bench_threads_run. Qed.

Lemma io_bench_threads_joins_all_witness :
  Pool.io_bench_threads 2 4 8000 Echo.ab
    (Pool.mkWorld
       [Echo.mkNet None None [Echo.Segment ["z"%byte]] [];
        Echo.mkNet None None [Echo.Segment Echo.ab] []] [])
  = (Raise (RuntimeError "Socket closed early"),
     Pool.mkWorld
       [Echo.mkNet None None []
          [Echo.WConnect 8000; Echo.WSend Echo.ab; Echo.WRecv 2 ["z"%byte];
           Echo.WRecv 1 []; Echo.WClose];
        Echo.mkNet None None []
          [Echo.WConnect 8000; Echo.WSend Echo.ab; Echo.WRecv 2 Echo.ab;
           Echo.WClose]]
       [Pool.Created Pool.Threads 4; Pool.Submitted Pool.Threads;
        Pool.Submitted Pool.Threads; Pool.ShutDown Pool.Threads]).
Proof.
  rewrite (io_bench_threads_joins_all 2 4 8000 Echo.ab _ ltac:(lia)).
  reflexivity.
Defined.

Lemma io_bench_processes_run (tasks concurrency port : Z)
    (payload : Py.bytes) (w : Pool.world) :
  0 < concurrency ->
  Pool.io_bench_processes tasks concurrency port payload w
  = (Batch.first_failure
       (Batch.outcomes (Echo.io_process_worker (port, payload))
          (Z.to_nat tasks) w),
     Pool.mkWorld
       (Batch.after_batch (Echo.io_process_worker (port, payload))
          (Z.to_nat tasks) (Pool.conns w))
       (Pool.journal w
          ++ Batch.lifecycle Pool.Processes (Z.min concurrency 64)
               (Z.to_nat tasks))).
Proof.
  intros Hc. unfold Pool.io_bench_processes, Pool.ProcessPoolExecutor.
  replace (Z.min concurrency 64 <=? 0) with false
    by (symmetry; apply Z.leb_gt; lia).
  unfold bind at 1. unfold bind at 1. unfold Pool.observe at 1. unfold ret at 1.
  unfold finally. unfold bind at 1. unfold Pool.ex_map. unfold bind at 1.
  rewrite processes_batch, batch_on_ranks.
  match goal with
  | |- context [Pool.collect ?futs Pool.result ?s] =>
      destruct (collect_result_first_failure futs s) as (o & -> & Ho)
  end.
  unfold Batch.outcomes, Batch.connection in *. cbn [Pool.conns] in Ho.
  rewrite <- Ho. unfold Pool.shutdown, Pool.observe, Batch.lifecycle, ret.
  destruct o; cbn [obind Pool.conns Pool.journal];
    rewrite <- !app_assoc; reflexivity.
Qed.

Lemma worker_batch_fails_like_one (tasks : nat) (port : Z)
    (payload : Py.bytes) (w : Pool.world) :
  Batch.first_failure
    (Batch.outcomes (Echo.io_process_worker (port, payload)) tasks w)
  = Batch.first_failure
      (Batch.outcomes (Echo.io_bench_threads_one port payload) tasks w).
Proof.
  unfold Batch.outcomes. induction (seq 0 tasks) as [|i l IH]; [reflexivity|].
  cbn [map Batch.first_failure]. rewrite worker_is_one. cbn [fst].
  destruct (fst (Echo.io_bench_threads_one port payload (Batch.connection w i)));
    cbn [obind]; [exact IH | reflexivity].
Qed.

(** X7. On the same connections and with a positive [concurrency] the
    process pool and the thread pool agree: [io_bench_processes] raises
    what [io_bench_threads] raises and returns when it returns; and it
    leaves as [io_bench_threads] leaves it the connection of every task
    that no failed task comes before, the first task that fails included
    (what becomes of the tasks after a failure is not said: the process
    pool may cancel those it has not started).  So when the call returns
    it leaves every connection as [io_bench_threads] does. *)
Theorem io_bench_processes_agrees_with_threads (tasks concurrency port : Z)
    (payload : Py.bytes) (w : Pool.world) :
  0 < concurrency ->
  fst (Pool.io_bench_processes tasks concurrency port payload w)
  = fst (Pool.io_bench_threads tasks concurrency port payload w)
  /\ (forall i : nat,
        (forall j : nat, (j < i)%nat ->
           fst (Echo.io_bench_threads_one port payload (Batch.connection w j))
           = Ok tt) ->
        Pool.conns (snd (Pool.io_bench_processes tasks concurrency port payload w))
          !! i
        = Pool.conns (snd (Pool.io_bench_threads tasks concurrency port payload w))
            !! i)
  /\ (fst (Pool.io_bench_threads tasks concurrency port payload w) = Ok tt ->
      Pool.conns (snd (Pool.io_bench_processes tasks concurrency port payload w))
      = Pool.conns (snd (Pool.io_bench_threads tasks concurrency port payload w))).
Proof.
  intros Hc. rewrite io_bench_threads_run, io_bench_processes_run by exact Hc.
  cbn [fst snd Pool.conns].
  assert (Hconns :
    Batch.after_batch (Echo.io_process_worker (port, payload)) (Z.to_nat tasks)
      (Pool.conns w)
    = Batch.after_batch (Echo.io_bench_threads_one port payload)
        (Z.to_nat tasks) (Pool.conns w)).
  { unfold Batch.after_batch. apply imap_ext. intros i c _. cbn beta.
    destruct (i <? Z.to_nat tasks)%nat; [|reflexivity].
    by rewrite worker_is_one. }
  split; [apply worker_batch_fails_like_one|].
  split; [intros i _; by rewrite Hconns | intros _; exact Hconns].
Qed.

Lemma io_bench_processes_agrees_with_threads_witness :
  fst (Pool.io_bench_processes 2 4 8000 Echo.ab
         (Pool.mkWorld [Echo.mkNet None None [Echo.Segment Echo.ab] []] []))
  = fst (Pool.io_bench_threads 2 4 8000 Echo.ab
           (Pool.mkWorld [Echo.mkNet None None [Echo.Segment Echo.ab] []] [])).
Proof.
  exact (proj1 (io_bench_processes_agrees_with_threads 2 4 8000 Echo.ab
                  (Pool.mkWorld [Echo.mkNet None None [Echo.Segment Echo.ab] []] [])
                  ltac:(lia))).
Defined.

(** ** More about the echo workload: the socket is closed *)

Section SocketLife.
Import Echo Wire.

Lemma recv_wire (n : Z) (s : net) :
  exists tr, wire (snd (recv n s)) = wire s ++ tr
             /\ Forall (fun ev => data_event ev = true) tr.
Proof.
  unfold recv. destruct (n <? 0); [exists []; by rewrite app_nil_r|].
  destruct (take_chunk _ _) as [[chunk|e] ib]; cbn.
  - eexists [_]. split; [reflexivity|]. by repeat constructor.
  - exists []. by rewrite app_nil_r.
Qed.

Lemma recv_loop_wire (payload recvd : bytes) (s : net) :
  exists tr, wire (snd (recv_loop payload recvd s)) = wire s ++ tr
             /\ Forall (fun ev => data_event ev = true) tr.
Proof.
  funelim (recv_loop payload recvd s); rewrite <- ?Heqcall; cbn [snd].
  - exists []. by rewrite app_nil_r.
  - destruct (recv_wire (len payload - len recvd) s) as (tr & Hw & Hd).
    rewrite Heq in Hw. by exists tr.
  - destruct (recv_wire (len payload - len recvd) s) as (tr1 & Hw1 & Hd1).
    rewrite Heq in Hw1. cbn [snd] in Hw1.
    match goal with IH : exists _, _ |- _ => destruct IH as (tr2 & Hw2 & Hd2) end.
    exists (tr1 ++ tr2). rewrite Hw2, Hw1, app_assoc.
    split; [reflexivity | by apply Forall_app].
  - destruct (recv_wire (len payload - len recvd) s) as (tr & Hw & Hd).
    rewrite Heq in Hw. by exists tr.
Qed.

Lemma one_rejected_run (port : Z) (payload : bytes) (s : net) (e : exn) :
  refuse s = None -> reject s = Some e ->
  io_bench_threads_one port payload s
  = (Raise e, observe WClose (observe (WConnect port) s)).
Proof.
  intros H1 H2.
  unfold io_bench_threads_one, bind, create_connection, finally, sendall, close.
  rewrite H1. cbn [reject observe]. by rewrite H2.
Qed.

End SocketLife.

(** X8. An echo task ([io_process_worker], [one] of [io_bench_threads])
    closes the socket it has opened on every way out: when the
    connection is refused it raises that error and nothing has happened
    on the wire; when it is accepted the task opens the socket once,
    closes it once and last, whatever comes between (a send that fails,
    a peer that closes early, a wrong echo, a timeout). *)
Theorem echo_task_closes_its_socket (port : Z) (payload : Py.bytes)
    (s : Echo.net) :
  Echo.wire (snd (Echo.io_process_worker (port, payload) s))
  = Echo.wire (snd (Echo.io_bench_threads_one port payload s))
  /\ match Echo.refuse s with
     | Some e => Echo.io_bench_threads_one port payload s = (Raise e, s)
     | None =>
         exists tr,
           Echo.wire (snd (Echo.io_bench_threads_one port payload s))
           = Echo.wire s ++ Echo.WConnect port :: tr ++ [Echo.WClose]
           /\ Forall (fun ev => Wire.data_event ev = true) tr
     end.
Proof.
  split; [by rewrite worker_is_one|].
  destruct (Echo.refuse s) as [e|] eqn:H1; [by apply one_refused|].
  destruct (Echo.reject s) as [e|] eqn:H2.
  - rewrite (one_rejected_run port payload s e H1 H2). exists [].
    cbn. split; [by rewrite <- app_assoc | constructor].
  - rewrite (one_unfold port payload s H1 H2). cbn [snd].
    destruct (recv_loop_wire payload []
                (Echo.observe (Echo.WSend payload)
                   (Echo.observe (Echo.WConnect port) s))) as (tr & Hw & Hd).
    exists (Echo.WSend payload :: tr). cbn [Echo.observe Echo.wire] in *.
    rewrite Hw. split; [by rewrite <- !app_assoc|].
    constructor; [reflexivity | exact Hd].
Qed.

(** ** More about [io_client_once] *)

(** X9. [io_client_once] under any answers of the loop, when it comes to
    an end: if the connection cannot be opened it raises that error and
    has written nothing and closed nothing; if the connection is opened
    it has written the payload and has closed the writer, whatever
    happened after; and it returns without an exception only when the
    payload is empty or the bytes read are the payload. *)
Theorem io_client_once_outcomes (port : Z) (payload : Py.bytes)
    (answers : list (outcome Py.bytes)) (o : outcome unit)
    (tr : list (Aio.wait + Aio.action)) :
  Aio.drive (Aio.io_client_once port payload) answers = (Some o, tr) ->
  match answers with
  | [] => False
  | Raise e :: _ => o = Raise e /\ tr = [inl (Aio.OpenConnection port)]
  | Ok _ :: rest =>
      In (inr (Aio.WriterWrite payload)) tr
      /\ In (inr Aio.WriterClose) tr
      /\ (o = Ok tt ->
          payload = [] \/ exists dr rest', rest = Ok dr :: Ok payload :: rest')
  end.
Proof.
  unfold Aio.io_client_once, Aio.readexactly.
  destruct answers as [|[c|e] rest]; cbn; [discriminate| |].
  2: { intros H. by injection H as <- <-. }
  destruct rest as [|[dr|e] rest]; cbn; [discriminate| |].
  2: { destruct rest as [|[cl|e'] rest]; cbn; [discriminate| |];
       intros H; injection H as <- <-; cbn; intuition discriminate. }
  destruct payload as [|b p].
  { change (Echo.len [] <? 0) with false. change (Echo.len [] =? 0) with true.
    cbn. rewrite bool_decide_eq_false_2 by (intros Hx; by apply Hx). cbn.
    destruct rest as [|[cl|e'] rest]; cbn; [discriminate| |];
      intros H; injection H as <- <-; cbn; intuition discriminate. }
  assert (Hlen : (Echo.len (b :: p) <? 0) = false)
    by (apply Z.ltb_ge; unfold Echo.len; lia).
  assert (Hlen0 : (Echo.len (b :: p) =? 0) = false)
    by (apply Z.eqb_neq; unfold Echo.len; cbn [length]; lia).
  rewrite Hlen, Hlen0. cbn.
  destruct rest as [|[data|e] rest]; cbn; [discriminate| |].
  2: { destruct rest as [|[cl|e'] rest]; cbn; [discriminate| |];
       intros H; injection H as <- <-; cbn; intuition discriminate. }
  destruct (decide (data = b :: p)) as [->|Hne].
  - rewrite bool_decide_eq_false_2 by (intros Hx; by apply Hx). cbn.
    destruct rest as [|[cl|e'] rest]; cbn; [discriminate| |];
      intros H; injection H as <- <-; cbn;
      (split; [tauto|]); (split; [tauto|]); intros _; right; eauto.
  - rewrite bool_decide_eq_true_2 by exact Hne. cbn.
    destruct rest as [|[cl|e'] rest]; cbn; [discriminate| |];
      intros H; injection H as <- <-; cbn; intuition discriminate.
Qed.

Lemma io_client_once_outcomes_witness :
  In (inr (Aio.WriterWrite Echo.ab))
    [inl (Aio.OpenConnection 8000); inr (Aio.WriterWrite Echo.ab);
     inl Aio.Drain; inl (Aio.ReadExactly 2); inr Aio.WriterClose;
     inl Aio.WaitClosed]
  /\ In (inr Aio.WriterClose)
       [inl (Aio.OpenConnection 8000); inr (Aio.WriterWrite Echo.ab);
        inl Aio.Drain; inl (Aio.ReadExactly 2); inr Aio.WriterClose;
        inl Aio.WaitClosed]
  /\ (Raise (RuntimeError "Echo mismatch") = Ok tt ->
      Echo.ab = []
      \/ exists dr rest',
           [Ok []; Ok ["a"%byte; "c"%byte]; Ok []] = Ok dr :: Ok Echo.ab :: rest').
Proof.
  exact (io_client_once_outcomes 8000 Echo.ab
           [Ok []; Ok []; Ok ["a"%byte; "c"%byte]; Ok []]
           (Raise (RuntimeError "Echo mismatch")) _ eq_refl).
Defined.

(** ** More about the event loop: the semaphore bounds the tasks in flight *)

Lemma clean_cbind {A B} (c : Aio.coro A) (f : A -> Aio.coro B) :
  Gate.clean c -> (forall a, Gate.clean (f a)) -> Gate.clean (Aio.cbind c f).
Proof.
  intros Hc Hf. induction c as [a|e|a k IH|w k IH]; cbn in *; auto.
  - split; [tauto|]. apply IH. tauto.
  - split; [tauto|]. intros r. apply IH. apply Hc.
Qed.

Section GateFacts.
Import Aio Gate.
Context {A : Type}.

Lemma clean_cfinally (b : coro A) (cl : coro unit) :
  clean b -> clean cl -> clean (cfinally b cl).
Proof.
  intros Hb Hcl. induction b as [a|e|a k IH|w k IH]; cbn in *.
  - by apply clean_cbind.
  - by apply clean_cbind.
  - split; [tauto|]. apply IH. tauto.
  - split; [tauto|]. intros r. apply IH. apply Hb.
Qed.

Lemma settle_in_body (i : nat) (b : coro A) (sem : Z)
    (done : list (nat * action)) :
  clean b ->
  (finished (settle i (cfinally b (act Release)) sem done).1.1 = true
   /\ (settle i (cfinally b (act Release)) sem done).1.2 = sem + 1)
  \/ (in_flight (settle i (cfinally b (act Release)) sem done).1.1 = true
      /\ (settle i (cfinally b (act Release)) sem done).1.2 = sem
      /\ exists w kb,
           w <> Acquire /\ (forall r, clean (kb r))
           /\ (settle i (cfinally b (act Release)) sem done).1.1
              = Await w (fun r => cfinally (kb r) (act Release))).
Proof.
  revert sem done. induction b as [a|e|a k IH|w k IH]; intros sem done Hb.
  - left. by cbn.
  - left. by cbn.
  - cbn in Hb. destruct Hb as [Ha Hk]. cbn [cfinally settle].
    destruct a; [| |congruence]; apply IH, Hk.
  - cbn in Hb. destruct Hb as [Hw Hk]. right. cbn.
    split; [by destruct w|]. split; [reflexivity|]. by exists w, k.
Qed.

Lemma in_flight_count_insert (ts : list (coro A)) (i : nat) (c c' : coro A) :
  ts !! i = Some c ->
  in_flight_count (<[i:=c']> ts)
  = in_flight_count ts - Z.b2z (in_flight c) + Z.b2z (in_flight c').
Proof.
  intros Hi. unfold in_flight_count.
  assert (Hlt : (i < length ts)%nat) by (eapply lookup_lt_Some, Hi).
  rewrite insert_take_drop by exact Hlt.
  rewrite <- (take_drop_middle ts i c Hi) at 3.
  rewrite !List.filter_app, !length_app. cbn [List.filter].
  destruct (in_flight c), (in_flight c'); cbn [length Z.b2z]; lia.
Qed.

Lemma resume_gate (body : coro A) (i : nat) (r : outcome bytes) (l : loop A) :
  clean body ->
  Forall (task_form body) (tasks l) -> 0 <= sem_value l ->
  Forall (task_form body) (tasks (resume i r l))
  /\ 0 <= sem_value (resume i r l)
  /\ sem_value (resume i r l) + in_flight_count (tasks (resume i r l))
     = sem_value l + in_flight_count (tasks l).
Proof.
  intros Hbody Hl Hsem. unfold resume.
  destruct (tasks l !! i) as [[a|e|a k|w k]|] eqn:Hi; try (by repeat split).
  pose proof (proj1 (Forall_lookup _ _) Hl i _ Hi) as Hform.
  assert (Hstep : forall b sem1,
            clean b -> 0 <= sem1 ->
            sem1 + 1 = sem_value l + Z.b2z (in_flight (Await w k)) ->
            let st := settle i (cfinally b (act Release)) sem1 (acts l) in
            Forall (task_form body) (<[i:=st.1.1]> (tasks l))
            /\ 0 <= st.1.2
            /\ st.1.2 + in_flight_count (<[i:=st.1.1]> (tasks l))
               = sem_value l + in_flight_count (tasks l)).
  { intros b sem1 Hb Hsem1 Hbal st.
    rewrite (in_flight_count_insert _ _ _ _ Hi).
    destruct (settle_in_body i b sem1 (acts l) Hb)
      as [[Hfin Hs]|(Hfl & Hs & w' & kb & Hw' & Hkb & Hc)];
      fold st in Hfin || fold st in Hfl; fold st in Hs.
    - split; [apply Forall_insert; [exact Hl | right; by left]|].
      assert (in_flight st.1.1 = false) as -> by (destruct st.1.1; done).
      cbn [Z.b2z]. lia.
    - fold st in Hc. split.
      + apply Forall_insert; [exact Hl|]. right; right. by exists w', kb.
      + rewrite Hfl. cbn [Z.b2z]. lia. }
  destruct Hform as [Hwait|[Hfin|(w' & kb & Hw' & Hkb & Hc)]]; [| discriminate |].
  - unfold async_with_sem, suspend in Hwait. cbn in Hwait.
    injection Hwait as -> ->. cbn [negb andb].
    destruct (Z.leb_spec (sem_value l) 0) as [Hle|Hgt]; [by repeat split|].
    cbn [cbind].
    specialize (Hstep body (sem_value l - 1) Hbody ltac:(lia) ltac:(cbn; lia)).
    cbn zeta in Hstep.
    destruct (settle i (cfinally body (act Release)) (sem_value l - 1) (acts l))
      as [[c sem2] done]. exact Hstep.
  - injection Hc as -> ->.
    assert (Hneg : negb (match w' with Acquire => false | _ => true end) = false)
      by (destruct w'; done).
    rewrite Hneg. cbn [andb].
    assert (Hw : (match w' with Acquire => false | _ => true end) = true)
      by (destruct w'; done).
    rewrite !Hw.
    specialize (Hstep (kb r) (sem_value l) (Hkb r) Hsem).
    cbn zeta in Hstep.
    destruct (settle i (cfinally (kb r) (act Release)) (sem_value l) (acts l))
      as [[c sem2] done]. apply Hstep. cbn. destruct w'; cbn; [done|lia..].
Qed.

Lemma turn_gate (body : coro A) (sched : schedule) (l : loop A) :
  clean body ->
  Forall (task_form body) (tasks l) -> 0 <= sem_value l ->
  0 <= sem_value (turn sched l)
  /\ sem_value (turn sched l) + in_flight_count (tasks (turn sched l))
     = sem_value l + in_flight_count (tasks l).
Proof.
  intros Hbody. revert l.
  induction sched as [|[i r] sched IH]; intros l Hl Hsem; cbn [turn].
  - by destruct (outer l).
  - destruct (outer l); [by split|].
    destruct (resume_gate body i r l Hbody Hl Hsem) as (Hl' & Hsem' & Hbal).
    destruct (IH _ Hl' Hsem') as [H1 H2]. split; [exact H1 | lia].
Qed.

Lemma waiting_batch (body : coro A) (n : Z) :
  Forall (task_form body) (map (fun _ => async_with_sem body) (range n))
  /\ in_flight_count (map (fun _ => async_with_sem body) (range n)) = 0.
Proof.
  split; [apply Forall_copies; by left|].
  unfold in_flight_count. induction (range n); [reflexivity|]. exact IHl.
Qed.

Lemma gather_gate (body : coro A) (n sem : Z) (sched : schedule) :
  clean body -> 0 <= sem ->
  let l := snd (gather (map (fun _ => async_with_sem body) (range n)) sem sched) in
  0 <= sem_value l /\ sem_value l + in_flight_count (tasks l) = sem.
Proof.
  intros Hbody Hsem. unfold gather. cbn [snd].
  destruct (waiting_batch body n) as [Hform Hzero].
  set (l0 := mkLoop _ sem _ []).
  destruct (turn_gate body sched l0 Hbody Hform Hsem) as [H1 H2].
  split; [exact H1|]. rewrite H2. unfold l0. cbn [sem_value tasks]. lia.
Qed.

End GateFacts.

Lemma io_client_once_clean (port : Z) (payload : Py.bytes) :
  Gate.clean (Aio.io_client_once port payload).
Proof.
  unfold Aio.io_client_once.
  apply clean_cbind; [cbn; split; [done|]; by intros []|]. intros _.
  apply clean_cfinally.
  - apply clean_cbind; [by cbn|]. intros _.
    apply clean_cbind; [cbn; split; [done|]; by intros []|]. intros _.
    apply clean_cbind.
    + unfold Aio.readexactly.
      destruct (_ <? 0); [by cbn|]. destruct (_ =? 0); [by cbn|].
      cbn. split; [done|]. by intros [].
    + intros data. by destruct (bool_decide _).
  - apply clean_cbind; [by cbn|]. intros _.
    apply clean_cbind; [cbn; split; [done|]; by intros []|]. by intros _.
Qed.

Section LoopGateFacts.
Import Aio Gate.
Context {A : Type}.

Lemma wake_first_woken (ws ws' : list (nat * bool)) :
  Loop.wake_first ws = Some ws' ->
  length (List.filter snd ws') = S (length (List.filter snd ws)).
Proof.
  revert ws'. induction ws as [|[j [|]] ws IH]; intros ws' H;
    cbn [Loop.wake_first] in H.
  - discriminate H.
  - destruct (Loop.wake_first ws) as [ws''|]; [|discriminate H].
    injection H as <-. cbn. by rewrite (IH _ eq_refl).
  - injection H as <-. reflexivity.
Qed.

Lemma wake_up_next_balance (s : Loop.semaphore) :
  0 < Loop.value s ->
  0 <= Loop.value (Loop.wake_up_next s)
  /\ Loop.value (Loop.wake_up_next s) + Loop.woken (Loop.wake_up_next s)
     = Loop.value s + Loop.woken s.
Proof.
  intros Hpos. unfold Loop.wake_up_next, Loop.woken.
  destruct (Loop.wake_first (Loop.waiters s)) as [ws|] eqn:Hw; [|lia].
  apply wake_first_woken in Hw. cbn [Loop.value Loop.waiters]. lia.
Qed.

Lemma release_balance (s : Loop.semaphore) :
  0 <= Loop.value s ->
  0 <= Loop.value (Loop.release s)
  /\ Loop.value (Loop.release s) + Loop.woken (Loop.release s)
     = Loop.value s + Loop.woken s + 1.
Proof.
  intros Hpos. unfold Loop.release.
  destruct (wake_up_next_balance
              (Loop.mkSem (Loop.value s + 1) (Loop.waiters s)))
    as [H1 H2]; [cbn; lia|].
  split; [exact H1|]. rewrite H2. unfold Loop.woken. cbn. lia.
Qed.

Lemma leave_woken (i : nat) (ws : list (nat * bool)) :
  Loop.status i ws = Some true ->
  S (length (List.filter snd (Loop.leave i ws))) = length (List.filter snd ws).
Proof.
  induction ws as [|[j b] ws IH]; cbn [Loop.status Loop.leave]; [discriminate|].
  destruct (Nat.eqb j i).
  - intros H. injection H as ->. reflexivity.
  - intros H. destruct b; cbn; by rewrite <- (IH H).
Qed.

Lemma loop_settle_in_body (b : coro A) (s : Loop.semaphore) :
  clean b -> 0 <= Loop.value s ->
  (finished (Loop.settle (cfinally b (act Release)) s).1 = true
   /\ 0 <= Loop.value (Loop.settle (cfinally b (act Release)) s).2
   /\ Loop.value (Loop.settle (cfinally b (act Release)) s).2
      + Loop.woken (Loop.settle (cfinally b (act Release)) s).2
      = Loop.value s + Loop.woken s + 1)
  \/ (in_flight (Loop.settle (cfinally b (act Release)) s).1 = true
      /\ (Loop.settle (cfinally b (act Release)) s).2 = s
      /\ exists w kb,
           w <> Acquire /\ (forall r, clean (kb r))
           /\ (Loop.settle (cfinally b (act Release)) s).1
              = Await w (fun r => cfinally (kb r) (act Release))).
Proof.
  intros Hb Hs. induction b as [a|e|a k IH|w k IH].
  - left. cbn. split; [reflexivity|]. by apply release_balance.
  - left. cbn. split; [reflexivity|]. by apply release_balance.
  - cbn in Hb. destruct Hb as [Ha Hk]. cbn [cfinally Loop.settle].
    destruct a; [| |congruence]; apply IH, Hk.
  - cbn in Hb. destruct Hb as [Hw Hk]. right. cbn.
    split; [by destruct w|]. split; [reflexivity|]. by exists w, k.
Qed.

Lemma run_task_gate (body : coro A) (i : nat) (r : outcome bytes)
    (l : Loop.state A) :
  clean body ->
  Forall (task_form body) (Loop.tasks l) -> 0 <= Loop.value (Loop.sem l) ->
  Forall (task_form body) (Loop.tasks (Loop.run_task i r l))
  /\ 0 <= Loop.value (Loop.sem (Loop.run_task i r l))
  /\ Loop.value (Loop.sem (Loop.run_task i r l))
     + Loop.woken (Loop.sem (Loop.run_task i r l))
     + in_flight_count (Loop.tasks (Loop.run_task i r l))
     = Loop.value (Loop.sem l) + Loop.woken (Loop.sem l)
       + in_flight_count (Loop.tasks l).
Proof.
  intros Hbody Hl Hsem. unfold Loop.run_task.
  destruct (Loop.tasks l !! i) as [ci|] eqn:Hi; [|by repeat split].
  pose proof (proj1 (Forall_lookup _ _) Hl i _ Hi) as Hform.
  assert (Hstep : forall b (s1 : Loop.semaphore),
            clean b -> 0 <= Loop.value s1 ->
            Loop.value s1 + Loop.woken s1 + 1
            = Loop.value (Loop.sem l) + Loop.woken (Loop.sem l)
              + Z.b2z (in_flight ci) ->
            let l' := Loop.proceed i (cfinally b (act Release)) s1 l in
            Forall (task_form body) (Loop.tasks l')
            /\ 0 <= Loop.value (Loop.sem l')
            /\ Loop.value (Loop.sem l') + Loop.woken (Loop.sem l')
               + in_flight_count (Loop.tasks l')
               = Loop.value (Loop.sem l) + Loop.woken (Loop.sem l)
                 + in_flight_count (Loop.tasks l)).
  { intros b s1 Hb Hs1 Hbal l'.
    destruct (proceed_fields i (cfinally b (act Release)) s1 l)
      as (Ht & _ & _ & _ & Hs).
    fold l' in Ht, Hs. rewrite Ht, Hs.
    rewrite (in_flight_count_insert _ _ _ _ Hi).
    destruct (loop_settle_in_body b s1 Hb Hs1)
      as [(Hfin & Hpos & Hsum)|(Hfl & Hsame & w' & kb & Hw' & Hkb & Hc)].
    - split; [apply Forall_insert; [exact Hl | right; by left]|].
      split; [exact Hpos|].
      assert (in_flight (Loop.settle (cfinally b (act Release)) s1).1 = false)
        as -> by (destruct (Loop.settle _ _).1; done).
      cbn [Z.b2z]. lia.
    - split.
      + apply Forall_insert; [exact Hl|]. right; right. by exists w', kb.
      + rewrite Hfl, Hsame. cbn [Z.b2z]. lia. }
  assert (Hstay : forall l' : Loop.state A,
            Loop.tasks l' = <[i:=ci]> (Loop.tasks l) ->
            Loop.sem l' = Loop.sem l ->
            Forall (task_form body) (Loop.tasks l')
            /\ 0 <= Loop.value (Loop.sem l')
            /\ Loop.value (Loop.sem l') + Loop.woken (Loop.sem l')
               + in_flight_count (Loop.tasks l')
               = Loop.value (Loop.sem l) + Loop.woken (Loop.sem l)
                 + in_flight_count (Loop.tasks l)).
  { intros l' -> ->. rewrite list_insert_id by exact Hi. by repeat split. }
  destruct Hform as [->|[Hfin|(w' & kb & Hw' & Hkb & ->)]].
  - unfold async_with_sem, suspend. cbn [cbind].
    destruct (Loop.status i (Loop.waiters (Loop.sem l))) as [[|]|] eqn:Hst.
    + cbn zeta.
      apply leave_woken in Hst.
      set (s1 := Loop.mkSem (Loop.value (Loop.sem l))
                   (Loop.leave i (Loop.waiters (Loop.sem l)))).
      assert (Hs1 : Loop.value s1 + Loop.woken s1 + 1
                    = Loop.value (Loop.sem l) + Loop.woken (Loop.sem l)).
      { unfold s1, Loop.woken. cbn [Loop.value Loop.waiters]. lia. }
      destruct (Z.ltb_spec 0 (Loop.value s1)) as [Hgt|Hle].
      * destruct (wake_up_next_balance s1 Hgt) as [H1 H2].
        apply (Hstep body _ Hbody H1).
        change (Z.b2z (in_flight (async_with_sem body))) with 0. lia.
      * apply (Hstep body s1 Hbody); [exact Hsem|].
        change (Z.b2z (in_flight (async_with_sem body))) with 0. lia.
    + by repeat split.
    + destruct (Loop.locked (Loop.sem l)) eqn:Hlock.
      * cbn [Loop.tasks Loop.sem Loop.value]. split; [exact Hl|].
        split; [exact Hsem|]. unfold Loop.woken. cbn [Loop.waiters].
        rewrite List.filter_app, length_app. cbn. lia.
      * unfold Loop.locked in Hlock. apply orb_false_iff in Hlock as [Hv Hw].
        apply Z.eqb_neq in Hv.
        apply (Hstep body _ Hbody); cbn [Loop.value]; [lia|].
        change (Z.b2z (in_flight (async_with_sem body))) with 0.
        unfold Loop.woken. cbn [Loop.waiters]. lia.
  - destruct ci as [a|e|a k|w k]; try discriminate Hfin.
    + destruct (Loop.announced i l); [by repeat split|].
      apply Hstay; by destruct (proceed_fields i (Return a) (Loop.sem l) l)
        as (? & _ & _ & _ & ?).
    + destruct (Loop.announced i l); [by repeat split|].
      apply Hstay; by destruct (proceed_fields i (Throw e) (Loop.sem l) l)
        as (? & _ & _ & _ & ?).
  - assert (Hgo : forall X (x y : X),
              match w' with Acquire => x | _ => y end = y)
      by (intros; by destruct w').
    assert (Hfl : in_flight (Await w' (fun r0 => cfinally (kb r0) (act Release)))
                  = true) by (by destruct w').
    specialize (Hstep (kb r) (Loop.sem l) (Hkb r) Hsem).
    rewrite Hfl in Hstep. specialize (Hstep ltac:(cbn; lia)).
    destruct w'; [congruence|exact Hstep..].
Qed.

Lemma exec_gate (body : coro A) (sched : list Loop.step)
    (l l' : Loop.state A) (o : option (outcome (list A))) :
  clean body ->
  Forall (task_form body) (Loop.tasks l) -> 0 <= Loop.value (Loop.sem l) ->
  Loop.exec sched l = (o, l') ->
  0 <= Loop.value (Loop.sem l')
  /\ Loop.value (Loop.sem l') + Loop.woken (Loop.sem l')
     + in_flight_count (Loop.tasks l')
     = Loop.value (Loop.sem l) + Loop.woken (Loop.sem l)
       + in_flight_count (Loop.tasks l).
Proof.
  intros Hbody. revert l.
  induction sched as [|[i r| |] sched IH]; intros l Hl Hsem H;
    cbn [Loop.exec] in H.
  - injection H as _ <-. by split.
  - destruct (run_task_gate body i r l Hbody Hl Hsem) as (Hl' & Hsem' & Hbal).
    destruct (IH _ Hl' Hsem' H) as [H1 H2]. split; [exact H1 | lia].
  - assert (Hsame : Loop.tasks (Loop.callback l) = Loop.tasks l
                    /\ Loop.sem (Loop.callback l) = Loop.sem l).
    { unfold Loop.callback. by destruct (Loop.callbacks l). }
    destruct Hsame as [Ht Hs].
    apply IH in H; rewrite ?Ht, ?Hs in *; assumption.
  - destruct (Loop.outer l); [injection H as _ <-; by split | by apply IH].
Qed.

Lemma loop_gather_gate (body : coro A) (n v : Z) (sched : list Loop.step) :
  clean body -> 0 <= v ->
  let l := snd (Loop.gather (map (fun _ => async_with_sem body) (range n))
                  (Loop.mkSem v []) sched) in
  0 <= Loop.value (Loop.sem l)
  /\ Loop.value (Loop.sem l) + Loop.woken (Loop.sem l)
     + in_flight_count (Loop.tasks l) = v.
Proof.
  intros Hbody Hv. cbn zeta. unfold Loop.gather.
  destruct (waiting_batch body n) as [Hform Hzero].
  destruct (map _ (range n)) as [|c0 cs] eqn:Hm;
    [unfold Loop.woken, in_flight_count; cbn; lia|].
  destruct (Loop.exec sched _) as [o l] eqn:He. cbn [snd].
  destruct (exec_gate body sched (Loop.mkState (c0 :: cs) (Loop.mkSem v [])
                                    [] [] None) l o Hbody Hform Hv He)
    as [H1 H2].
  split; [exact H1|]. rewrite H2. cbn [Loop.sem Loop.tasks Loop.value].
  rewrite Hzero. unfold Loop.woken. cbn. lia.
Qed.

End LoopGateFacts.

(** X10. The semaphore bounds the tasks in flight.  At every step of
    the loop, under any schedule, the value of the semaphore is not
    negative and no more than [concurrency] tasks of [io_bench_asyncio]
    or [cpu_bench_asyncio] are in flight (past the semaphore and not
    finished).  The slots are all accounted for: the value, the slots
    that [release] has handed to waiters it has woken and that are not
    resumed yet, and the tasks in flight add up to [concurrency]. *)
Theorem semaphore_bounds_tasks_in_flight (tasks concurrency units port : Z)
    (payload : Py.bytes) (sched : list Loop.step) :
  0 <= concurrency ->
  (let l := snd (Loop.io_bench_asyncio tasks concurrency port payload sched) in
   0 <= Loop.value (Loop.sem l)
   /\ Gate.in_flight_count (Loop.tasks l) <= concurrency
   /\ Loop.value (Loop.sem l) + Loop.woken (Loop.sem l)
      + Gate.in_flight_count (Loop.tasks l) = concurrency)
  /\ (let l := snd (Loop.cpu_bench_asyncio tasks units concurrency sched) in
      0 <= Loop.value (Loop.sem l)
      /\ Gate.in_flight_count (Loop.tasks l) <= concurrency
      /\ Loop.value (Loop.sem l) + Loop.woken (Loop.sem l)
         + Gate.in_flight_count (Loop.tasks l) = concurrency).
Proof.
  intros Hc. cbn zeta.
  unfold Loop.io_bench_asyncio, Loop.cpu_bench_asyncio, Aio.Semaphore.
  replace (concurrency <? 0) with false by (symmetry; apply Z.ltb_ge; lia).
  assert (Hw : forall s, 0 <= Loop.woken s) by (intros s; unfold Loop.woken; lia).
  split.
  - pose proof (loop_gather_gate (Aio.io_client_once port payload) tasks
                  concurrency sched (io_client_once_clean port payload) Hc)
      as Hg.
    cbn zeta in Hg.
    destruct (Loop.gather _ _ _) as [[[rs|e]|] l]; cbn [snd] in *;
      specialize (Hw (Loop.sem l)); lia.
  - pose proof (loop_gather_gate (Aio.Return (Cpu.cpu_work units)) tasks
                  concurrency sched I Hc) as Hg.
    cbn zeta in Hg.
    destruct (Loop.gather _ _ _) as [[[rs|e]|] l]; cbn [snd] in *;
      specialize (Hw (Loop.sem l)); lia.
Qed.

Lemma semaphore_bounds_tasks_in_flight_witness :
  (let l := snd (Loop.io_bench_asyncio 2 1 8000 ["x"%byte] Loop.handed_over) in
   0 <= Loop.value (Loop.sem l)
   /\ Gate.in_flight_count (Loop.tasks l) <= 1
   /\ Loop.value (Loop.sem l) + Loop.woken (Loop.sem l)
      + Gate.in_flight_count (Loop.tasks l) = 1)
  /\ (let l := snd (Loop.cpu_bench_asyncio 2 0 1 Loop.handed_over) in
      0 <= Loop.value (Loop.sem l)
      /\ Gate.in_flight_count (Loop.tasks l) <= 1
      /\ Loop.value (Loop.sem l) + Loop.woken (Loop.sem l)
         + Gate.in_flight_count (Loop.tasks l) = 1).
Proof.
  exact (semaphore_bounds_tasks_in_flight 2 1 0 8000 ["x"%byte]
           Loop.handed_over ltac:(lia)).
Defined.

(** The slot of a task that fails goes to the waiter inside [release]:
    with one slot and two tasks, after the first is refused the value is
    0, no task is in flight, and the second holds the slot without having
    been resumed. *)
Lemma released_slot_is_handed_over :
  let l := snd (Loop.io_bench_asyncio 2 1 8000 ["x"%byte] Loop.handed_over) in
  Loop.value (Loop.sem l) = 0
  /\ Gate.in_flight_count (Loop.tasks l) = 0
  /\ Loop.waiters (Loop.sem l) = [(1%nat, true)].
Proof. repeat split. Qed.

(** ** More about [cpu_bench_asyncio]: when it returns *)


Section CpuGather.
Import Aio.
Variable v : Z.
Variable n : nat.
Variable c : Z.
Hypothesis c_positive : 1 <= c.

Let one : coro Z := async_with_sem (Return v).


Let all_seen (seen : list nat) : bool :=
  forallb (fun i => bool_decide (i ∈ seen)) (seq 0 n).



Lemma all_seen_more (seen : list nat) (j : nat) :
  all_seen seen = true -> all_seen (j :: seen) = true.
Proof using Type.
  unfold all_seen. rewrite !forallb_forall. intros H i Hi.
  apply bool_decide_eq_true_2, elem_of_cons. right.
  apply (bool_decide_eq_true_1 _ (H i Hi)).
Qed.



End CpuGather.



(** ** The echo server *)

Section ServerFacts.
Import Server.

Lemma cleanup_trace (answers : list (outcome bytes)) (result : outcome unit) :
  chunks_read (snd (cleanup answers result)) = []
  /\ chunks_written (snd (cleanup answers result)) = []
  /\ In SClose (snd (cleanup answers result))
  /\ (fst (cleanup answers result) = None
      \/ fst (cleanup answers result) = Some result).
Proof.
  destruct answers; cbn; repeat split; auto.
Qed.

Lemma handle_arrivals (chunks : list bytes) :
  Forall (fun ch => ch <> []) chunks ->
  fst (handle (arrivals chunks)) = None
  /\ chunks_written (snd (handle (arrivals chunks))) = chunks.
Proof.
  induction 1 as [|ch chunks Hch _ IH]; [by split|].
  cbn [arrivals flat_map app]. fold (arrivals chunks).
  destruct ch as [|b ch]; [congruence|]. cbn [handle].
  destruct (handle (arrivals chunks)) as [o tr]. cbn in *.
  destruct IH as [-> ->]. by split.
Qed.

Lemma delivered_segments (chunks : list bytes) :
  Echo.delivered (map Echo.Segment chunks) = (concat chunks, Echo.Closed).
Proof.
  induction chunks as [|ch chunks IH]; [reflexivity|].
  cbn [map Echo.delivered concat]. by rewrite IH.
Qed.

Lemma handle_echoed (rounds : list (bytes * bytes))
    (tail : list (outcome bytes)) :
  Forall (fun r => fst r <> []) rounds ->
  fst (handle (echoed rounds ++ tail)) = fst (handle tail)
  /\ chunks_written (snd (handle (echoed rounds ++ tail)))
     = map fst rounds ++ chunks_written (snd (handle tail)).
Proof.
  induction 1 as [|[ch d] rounds Hch _ IH]; [by split|].
  cbn [echoed flat_map app fst snd] in *. fold (echoed rounds).
  destruct ch as [|b ch]; [congruence|]. cbn [handle].
  destruct (handle (echoed rounds ++ tail)) as [o tr]. cbn in *.
  destruct IH as [-> ->]. by split.
Qed.

Lemma handle_closes (answers : list (outcome bytes)) (o : outcome unit) :
  fst (handle answers) = Some o -> In SClose (snd (handle answers)).
Proof.
  induction answers as [answers IH] using (induction_ltof1 _ (@length _)).
  unfold ltof in IH.
  destruct answers as [|[[|b data]|e] rest]; cbn [handle].
  - discriminate.
  - destruct (cleanup_trace rest (Ok tt)) as (_ & _ & Hc & _).
    destruct (cleanup rest (Ok tt)) as [o' tr]. cbn in *. by right.
  - destruct rest as [|[d|e] rest'].
    + discriminate.
    + pose proof (IH rest' ltac:(cbn; lia)) as Hc.
      destruct (handle rest') as [o' tr]. cbn in *. intros H. tauto.
    + destruct (cleanup_trace rest' (Raise e)) as (_ & _ & Hc & _).
      destruct (cleanup rest' (Raise e)) as [o' tr]. cbn in *. tauto.
  - intros _. apply cleanup_trace.
Qed.

(** How a run of the handler that comes to an end has gone. *)
Lemma handle_ends (answers : list (outcome bytes)) (o : outcome unit) :
  fst (handle answers) = Some o ->
  exists (rounds : list (bytes * bytes)) (closed : outcome bytes)
         (rest : list (outcome bytes)),
    Forall (fun r => fst r <> []) rounds
    /\ ((o = Ok tt /\ answers = echoed rounds ++ Ok [] :: closed :: rest)
        \/ (exists e, o = Raise e
                      /\ answers = echoed rounds ++ Raise e :: closed :: rest)
        \/ (exists e ch, ch <> [] /\ o = Raise e
                         /\ answers
                            = echoed rounds ++ Ok ch :: Raise e :: closed :: rest)).
Proof.
  revert o.
  induction answers as [answers IH] using (induction_ltof1 _ (@length _)).
  unfold ltof in IH. intros o.
  destruct answers as [|[[|b data]|e] rest]; cbn [handle].
  - discriminate.
  - destruct rest as [|a rest]; cbn; [discriminate|].
    intros H. injection H as <-. exists [], a, rest.
    split; [constructor|]. left. by split.
  - destruct rest as [|[d|e] rest'].
    + discriminate.
    + destruct (handle rest') as [o' tr] eqn:Hh. cbn [fst].
      intros ->.
      destruct (IH rest' ltac:(cbn; lia) o) as (rounds & a & rest & Hne & Hc);
        [by rewrite Hh|].
      exists ((b :: data, d) :: rounds), a, rest.
      split; [constructor; [discriminate | exact Hne]|].
      cbn [echoed flat_map app fst snd]. fold (echoed rounds).
      destruct Hc as [[-> ->]|[(e & -> & ->)|(e & ch & Hch & -> & ->)]].
      * left. by split.
      * right. left. exists e. by split.
      * right. right. exists e, ch. by repeat split.
    + destruct rest' as [|a rest]; cbn; [discriminate|].
      intros H. injection H as <-. exists [], a, rest.
      split; [constructor|]. right. right. exists e, (b :: data).
      by repeat split.
  - destruct rest as [|a rest]; cbn; [discriminate|].
    intros H. injection H as <-. exists [], a, rest.
    split; [constructor|]. right. left. exists e. by split.
Qed.

End ServerFacts.

(** X12. The handler of the echo server writes back what it reads,
    chunk by chunk and in order, and nothing else: at every moment the
    chunks written are the chunks read that are not empty.  It comes to
    an end in three ways and no other, each after rounds in which a chunk
    that is not empty was read and echoed: a read returns no data, and
    the handler ends without an exception; a read raises, and the handler
    raises that exception; the drain after a write raises, and the
    handler raises that exception.  In each the writer is closed, and
    the answer of [wait_closed], an exception included, changes
    nothing: what closing the writer raises is dropped. *)
Theorem handle_echoes_verbatim (answers : list (outcome Py.bytes)) :
  Server.chunks_written (snd (Server.handle answers))
  = List.filter (fun ch => negb (Nat.eqb (length ch) 0))
      (Server.chunks_read (snd (Server.handle answers)))
  /\ (forall o, fst (Server.handle answers) = Some o ->
       In Server.SClose (snd (Server.handle answers))
       /\ exists (rounds : list (Py.bytes * Py.bytes))
                 (closed : outcome Py.bytes) (rest : list (outcome Py.bytes)),
            Forall (fun r => fst r <> []) rounds
            /\ ((o = Ok tt
                 /\ answers = Server.echoed rounds ++ Ok [] :: closed :: rest)
                \/ (exists e, o = Raise e
                      /\ answers
                         = Server.echoed rounds ++ Raise e :: closed :: rest)
                \/ (exists e ch, ch <> [] /\ o = Raise e
                      /\ answers
                         = Server.echoed rounds
                             ++ Ok ch :: Raise e :: closed :: rest)))
  /\ (forall (rounds : list (Py.bytes * Py.bytes)) (closed : outcome Py.bytes)
             (rest : list (outcome Py.bytes)) (e : exn) (ch : Py.bytes),
        Forall (fun r => fst r <> []) rounds -> ch <> [] ->
        fst (Server.handle (Server.echoed rounds ++ Ok [] :: closed :: rest))
        = Some (Ok tt)
        /\ fst (Server.handle
                  (Server.echoed rounds ++ Raise e :: closed :: rest))
           = Some (Raise e)
        /\ fst (Server.handle
                  (Server.echoed rounds ++ Ok ch :: Raise e :: closed :: rest))
           = Some (Raise e)
        /\ Server.chunks_written
             (snd (Server.handle
                     (Server.echoed rounds ++ Ok [] :: closed :: rest)))
           = map fst rounds).
Proof.
  split; [|split].
  - induction answers as [answers IH] using (induction_ltof1 _ (@length _)).
    unfold ltof in IH.
    destruct answers as [|[[|b data]|e] rest]; cbn [Server.handle].
    + reflexivity.
    + destruct (cleanup_trace rest (Ok tt)) as (Hr & Hw & _).
      destruct (Server.cleanup rest (Ok tt)) as [o tr]. cbn in *.
      by rewrite Hr, Hw.
    + destruct rest as [|[d|e] rest'].
      * reflexivity.
      * pose proof (IH rest' ltac:(cbn; lia)) as Hecho.
        destruct (Server.handle rest') as [o tr]. cbn in *.
        by rewrite Hecho.
      * destruct (cleanup_trace rest' (Raise e)) as (Hr & Hw & _).
        destruct (Server.cleanup rest' (Raise e)) as [o tr]. cbn in *.
        by rewrite Hr, Hw.
    + destruct (cleanup_trace rest (Raise e)) as (Hr & Hw & _).
      destruct (Server.cleanup rest (Raise e)) as [o tr]. cbn in *.
      by rewrite Hr, Hw.
  - intros o Ho. split; [by eapply handle_closes | by apply handle_ends].
  - intros rounds closed rest e ch Hne Hch.
    destruct (handle_echoed rounds (Ok [] :: closed :: rest) Hne) as [-> ->].
    destruct (handle_echoed rounds (Raise e :: closed :: rest) Hne) as [-> _].
    destruct (handle_echoed rounds (Ok ch :: Raise e :: closed :: rest) Hne)
      as [-> _].
    destruct ch as [|b ch]; [congruence|]. cbn. by rewrite app_nil_r.
Qed.

(** X13. Round trip. When the payload reaches the server in any pieces
    that are not empty, what the handler writes back, delivered to the
    client as it was written, makes the echo task succeed: the client
    gets its payload back byte for byte. *)
Theorem echo_round_trip (port : Z) (chunks : list Py.bytes) :
  Forall (fun ch => ch <> []) chunks ->
  let written :=
    Server.chunks_written (snd (Server.handle (Server.arrivals chunks))) in
  concat written = concat chunks
  /\ fst (Echo.io_process_worker (port, concat chunks)
            (Echo.mkNet None None (map Echo.Segment written) []))
     = Ok 1.
Proof.
  intros Hne. cbn zeta. destruct (handle_arrivals chunks Hne) as [_ ->].
  split; [reflexivity|]. rewrite worker_is_one. cbn [fst].
  destruct (one_connected port (concat chunks)
              (Echo.mkNet None None (map Echo.Segment chunks) [])
              eq_refl eq_refl) as (tr & _ & _ & -> & _).
  unfold Echo.echo_verdict. cbn [Echo.inbox]. rewrite delivered_segments.
  rewrite Nat.leb_refl, take_ge by lia.
  by rewrite bool_decide_eq_true_2.
Qed.

Lemma echo_round_trip_witness :
  let written :=
    Server.chunks_written
      (snd (Server.handle (Server.arrivals [["a"%byte]; ["b"%byte]]))) in
  concat written = concat [["a"%byte]; ["b"%byte]]
  /\ fst (Echo.io_process_worker (8000, concat [["a"%byte]; ["b"%byte]])
            (Echo.mkNet None None (map Echo.Segment written) []))
     = Ok 1.
Proof.
  apply (echo_round_trip 8000 [["a"%byte]; ["b"%byte]]).
  repeat constructor; discriminate.
Defined.

(** ** The strategies at [concurrency = 0] *)

Section Locked.
Import Aio.
Context {A : Type} (body : coro A).

Lemma resume_locked (i : nat) (r : outcome bytes) (l : loop A) :
  sem_value l <= 0 ->
  Forall (fun c => c = async_with_sem body) (tasks l) ->
  resume i r l = l.
Proof.
  intros Hsem Hl. unfold resume.
  destruct (tasks l !! i) as [c|] eqn:Hi; [|reflexivity].
  rewrite (proj1 (Forall_lookup _ _) Hl i c Hi). cbn.
  by replace (sem_value l <=? 0) with true by (symmetry; apply Z.leb_le; lia).
Qed.

Lemma turn_locked (sched : schedule) (l : loop A) :
  sem_value l <= 0 ->
  Forall (fun c => c = async_with_sem body) (tasks l) ->
  turn sched l = l.
Proof.
  intros Hsem Hl. induction sched as [|[i r] sched IH]; cbn [turn].
  - by destruct (outer l).
  - destruct (outer l); [reflexivity|]. by rewrite resume_locked.
Qed.

Lemma gather_locked (n : Z) (sched : schedule) :
  1 <= n ->
  fst (gather (map (fun _ => async_with_sem body) (range n)) 0 sched) = None.
Proof.
  intros Hn. unfold gather. cbn [fst]. rewrite turn_locked.
  - cbn [outer]. unfold range.
    destruct (Z.to_nat n) eqn:E; [lia | reflexivity].
  - reflexivity.
  - cbn [tasks]. by apply Forall_copies.
Qed.

End Locked.

(** X14. At [concurrency = 0] the strategies part: the thread pool and
    the process pool refuse it with [ValueError] before any task runs,
    while the asyncio benchmarks, with at least one task, never return
    under any schedule, because no task can pass a semaphore of zero. *)
Theorem zero_concurrency_raises_or_hangs (tasks units port : Z)
    (payload : Py.bytes) (w : Pool.world) (sched : Aio.schedule) :
  1 <= tasks ->
  Pool.io_bench_threads tasks 0 port payload w
  = (Raise (ValueError "max_workers must be greater than 0"), w)
  /\ Pool.io_bench_processes tasks 0 port payload w
     = (Raise (ValueError "max_workers must be greater than 0"), w)
  /\ fst (Aio.io_bench_asyncio tasks 0 port payload sched) = None
  /\ fst (Aio.cpu_bench_asyncio tasks units 0 sched) = None.
Proof.
  intros Ht. split; [reflexivity|]. split; [reflexivity|].
  unfold Aio.io_bench_asyncio, Aio.cpu_bench_asyncio. cbn [Aio.Semaphore Z.ltb Z.compare].
  split.
  - pose proof (gather_locked (Aio.io_client_once port payload) tasks sched Ht) as H.
    destruct (Aio.gather _ _ _) as [[[rs|e]|] l]; cbn in *; congruence.
  - pose proof (gather_locked (Aio.Return (Cpu.cpu_work units)) tasks sched Ht) as H.
    destruct (Aio.gather _ _ _) as [[[rs|e]|] l]; cbn in *; congruence.
Qed.

Lemma zero_concurrency_raises_or_hangs_witness :
  Pool.io_bench_threads 3 0 8000 Echo.ab (Pool.mkWorld [] [])
  = (Raise (ValueError "max_workers must be greater than 0"), Pool.mkWorld [] [])
  /\ Pool.io_bench_processes 3 0 8000 Echo.ab (Pool.mkWorld [] [])
     = (Raise (ValueError "max_workers must be greater than 0"),
        Pool.mkWorld [] [])
  /\ fst (Aio.io_bench_asyncio 3 0 8000 Echo.ab Aio.mismatch_first) = None
  /\ fst (Aio.cpu_bench_asyncio 3 7 0 Aio.mismatch_first) = None.
Proof.
  exact (zero_concurrency_raises_or_hangs 3 7 8000 Echo.ab (Pool.mkWorld [] [])
           Aio.mismatch_first ltac:(lia)).
Defined.

(** ** The measured time and the time of the run *)

Section WallTime.
Import Stats Runner.
Context {W : Type} (clock_read : W -> Q * W) (elapsed : W -> Q).



End WallTime.


(** ** The default concurrency *)

(** X16. The default of [--concurrency] does not depend on the number of
    cores: whatever [os.cpu_count()] returns ([None] or a count), it is 2
    in [cpu_bound.py] and 20 in [io_bound.py]. With the default,
    [io_bench_processes] creates its pool with 20 workers: the cap of 64
    does not come into play. *)
Theorem default_concurrency_is_constant (cpu_count : option Z)
    (tasks port : Z) (payload : Py.bytes) (w : Pool.world) :
  match cpu_count with Some n => 0 <= n | None => True end ->
  Cli.cpu_default_concurrency cpu_count = 2
  /\ Cli.io_default_concurrency cpu_count = 20
  /\ Pool.process_pool_sizes
       (Pool.journal
          (snd (Pool.io_bench_processes tasks
                  (Cli.io_default_concurrency cpu_count) port payload w)))
     = Pool.process_pool_sizes (Pool.journal w) ++ [20].
Proof.
  intros Hn.
  assert (H : 8 <= Cli.py_or cpu_count 8 * 25).
  { unfold Cli.py_or. destruct cpu_count as [n|]; [|lia].
    destruct (Z.eqb_spec n 0); lia. }
  assert (Hio : Cli.io_default_concurrency cpu_count = 20).
  { unfold Cli.io_default_concurrency, Cli.py_or in *.
    destruct cpu_count as [n|]; [|lia]. destruct (Z.eqb_spec n 0); lia. }
  split; [unfold Cli.cpu_default_concurrency; lia|]. split; [exact Hio|].
  rewrite Hio. by rewrite io_bench_processes_pool by lia.
Qed.

Lemma default_concurrency_is_constant_witness :
  Cli.cpu_default_concurrency (Some 1) = 2
  /\ Cli.io_default_concurrency (Some 1) = 20
  /\ Pool.process_pool_sizes
       (Pool.journal
          (snd (Pool.io_bench_processes 200
                  (Cli.io_default_concurrency (Some 1)) 8000 Echo.ab
                  (Pool.mkWorld [] []))))
     = Pool.process_pool_sizes (Pool.journal (Pool.mkWorld [] [])) ++ [20].
Proof.
  apply (default_concurrency_is_constant (Some 1) 200 8000 Echo.ab
           (Pool.mkWorld [] [])).
  simpl. lia.
Defined.

(** ** All or nothing *)

Section AllOrNothing.
Import Pool Batch.

Lemma one_succeeds_iff (port : Z) (payload : bytes) (c : Echo.net) :
  fst (Echo.io_bench_threads_one port payload c) = Ok tt <-> echoes payload c.
Proof.
  unfold echoes. destruct (Echo.refuse c) as [e|] eqn:H1.
  { rewrite (one_refused port payload c e H1). cbn. split; [discriminate|].
    by intros [? _]. }
  destruct (Echo.reject c) as [e|] eqn:H2.
  { rewrite (one_rejected port payload c e H1 H2). split; [discriminate|].
    by intros (_ & ? & _). }
  destruct (one_connected port payload c H1 H2) as (tr & _ & _ & -> & _).
  unfold Echo.echo_verdict.
  destruct (Echo.delivered (Echo.inbox c)) as [stream e]. cbn [fst].
  destruct (Nat.leb_spec (length payload) (length stream)) as [Hle|Hlt].
  - destruct (decide (take (length payload) stream = payload)) as [Heq|Hne].
    + rewrite bool_decide_eq_true_2 by exact Heq. tauto.
    + rewrite bool_decide_eq_false_2 by exact Hne. split; [discriminate|tauto].
  - split; [destruct e; discriminate|]. intros (_ & _ & ? & _). lia.
Qed.

Lemma first_failure_ok {A} (rs : list (outcome A)) :
  first_failure rs = Ok tt <-> Forall (fun r => exists a, r = Ok a) rs.
Proof.
  induction rs as [|[a|e] rs IH]; cbn [first_failure].
  - split; [constructor | reflexivity].
  - rewrite IH. split.
    + intros H. constructor; [by exists a | exact H].
    + intros H. by apply Forall_cons in H as [_ H].
  - split; [discriminate|]. intros H. apply Forall_cons in H as [[a Ha] _].
    discriminate.
Qed.

End AllOrNothing.

(** X17. All or nothing: with a positive [concurrency],
    [io_bench_threads] and [io_bench_processes] return without an
    exception exactly when every one of the [tasks] connections echoes
    the payload; one connection that is refused, closes early, stalls or
    answers with other bytes makes the whole call raise. *)
Theorem io_bench_succeeds_iff_every_echo_does (tasks concurrency port : Z)
    (payload : Py.bytes) (w : Pool.world) :
  0 < concurrency ->
  (fst (Pool.io_bench_threads tasks concurrency port payload w) = Ok tt
   <-> forall i, (i < Z.to_nat tasks)%nat ->
                 Batch.echoes payload (Batch.connection w i))
  /\ (fst (Pool.io_bench_processes tasks concurrency port payload w) = Ok tt
      <-> forall i, (i < Z.to_nat tasks)%nat ->
                    Batch.echoes payload (Batch.connection w i)).
Proof.
  intros Hc.
  assert (Hthreads :
    fst (Pool.io_bench_threads tasks concurrency port payload w) = Ok tt
    <-> forall i, (i < Z.to_nat tasks)%nat ->
                  Batch.echoes payload (Batch.connection w i)).
  { rewrite io_bench_threads_run by exact Hc. cbn [fst].
    rewrite first_failure_ok. unfold Batch.outcomes.
    rewrite List.Forall_forall. split.
    - intros H i Hi. apply (one_succeeds_iff port).
      destruct (H (fst (Echo.io_bench_threads_one port payload
                          (Batch.connection w i)))) as [[] Ha]; [|exact Ha].
      apply in_map_iff. exists i. split; [reflexivity|]. apply in_seq. lia.
    - intros H r [i [<- Hi]]%in_map_iff. exists tt.
      apply one_succeeds_iff, H. apply in_seq in Hi. lia. }
  split; [exact Hthreads|]. rewrite <- Hthreads.
  rewrite (io_bench_processes_run tasks concurrency port payload w Hc),
    (io_bench_threads_run tasks concurrency port payload w Hc).
  cbn [fst]. by rewrite worker_batch_fails_like_one.
Qed.

Lemma io_bench_succeeds_iff_every_echo_does_witness :
  (fst (Pool.io_bench_threads 1 4 8000 Echo.ab
          (Pool.mkWorld [Echo.mkNet None None [Echo.Segment Echo.ab] []] []))
   = Ok tt
   <-> forall i, (i < Z.to_nat 1)%nat ->
         Batch.echoes Echo.ab
           (Batch.connection
              (Pool.mkWorld [Echo.mkNet None None [Echo.Segment Echo.ab] []] [])
              i))
  /\ (fst (Pool.io_bench_processes 1 4 8000 Echo.ab
             (Pool.mkWorld [Echo.mkNet None None [Echo.Segment Echo.ab] []] []))
      = Ok tt
      <-> forall i, (i < Z.to_nat 1)%nat ->
            Batch.echoes Echo.ab
              (Batch.connection
                 (Pool.mkWorld [Echo.mkNet None None [Echo.Segment Echo.ab] []] [])
                 i)).
Proof.
  exact (io_bench_succeeds_iff_every_echo_does 1 4 8000 Echo.ab
           (Pool.mkWorld [Echo.mkNet None None [Echo.Segment Echo.ab] []] [])
           ltac:(lia)).
Defined.

(** ** Counts that are not positive *)

(** X18. A trial runner takes a [warmup] or a [repeats] that is negative
    for zero: with both not positive it does not execute the invocation,
    does not read the clock, leaves the world as it is and returns the
    [Result] with no durations, whose statistics are NaN. *)
Theorem run_repeated_nonpositive_counts {W : Type} (clock_read : W -> Q * W)
    run label repeats fn warmup (s : Runner.rstate W) :
  In run (Runner.runners clock_read) ->
  warmup <= 0 -> repeats <= 0 ->
  run label repeats fn warmup s = (Ok (Stats.mkResult label []), s)
  /\ Stats.med (Stats.mkResult label []) = Ok NaN.
Proof.
  intros Hrun Hw Hr. apply runners_agree in Hrun. subst run.
  rewrite run_repeated_unfold, (range_nonpos warmup Hw), (range_nonpos repeats Hr).
  split; reflexivity.
Qed.

Lemma run_repeated_nonpositive_counts_witness :
  Runner.run_repeated_async Runner.wall_clock "asyncio" (-3) Runner.one_second
    (-1) (Runner.mkState 0%Q [])
  = (Ok (Stats.mkResult "asyncio" []), Runner.mkState 0%Q [])
  /\ Stats.med (Stats.mkResult "asyncio" []) = Ok NaN.
Proof.
  apply (run_repeated_nonpositive_counts Runner.wall_clock
           (Runner.run_repeated_async Runner.wall_clock) "asyncio" (-3)
           Runner.one_second (-1) (Runner.mkState 0%Q [])).
  - right. left. reflexivity.
  - lia.
  - lia.
Defined.

(** ** The semaphore after the call *)

Lemma in_flight_count_finished {A} (ts : list (Aio.coro A)) :
  Forall (fun c => Aio.finished c = true) ts -> Gate.in_flight_count ts = 0.
Proof.
  unfold Gate.in_flight_count. induction 1 as [|c ts Hc _ IH]; [reflexivity|].
  cbn [List.filter]. destruct c; cbn in *; try discriminate; exact IH.
Qed.

(** X19. When [io_bench_asyncio] returns without an exception every task
    has given back what it took from the semaphore: the value of the
    semaphore is [concurrency] again. *)
Theorem io_bench_asyncio_restores_semaphore (tasks concurrency port : Z)
    (payload : Py.bytes) (sched : Aio.schedule) (l : Aio.loop unit) :
  Aio.io_bench_asyncio tasks concurrency port payload sched = (Some (Ok tt), l) ->
  Aio.sem_value l = concurrency
  /\ Gate.in_flight_count (Aio.tasks l) = 0.
Proof.
  unfold Aio.io_bench_asyncio, Aio.Semaphore.
  destruct (Z.ltb_spec concurrency 0) as [Hneg|Hpos]; [discriminate|].
  pose proof (gather_gate (Aio.io_client_once port payload) tasks concurrency
                sched (io_client_once_clean port payload) Hpos) as Hgate.
  cbn zeta in Hgate.
  destruct (Aio.gather _ _ _) as [[[rs|e]|] l'] eqn:Hg; intros H;
    [|discriminate..]. injection H as <-. cbn [snd] in Hgate.
  apply gather_done in Hg as [_ Hg]; [|apply Forall_copies; reflexivity].
  assert (Hfin : Gate.in_flight_count (Aio.tasks l') = 0).
  { apply in_flight_count_finished. apply Forall_forall. intros c Hc.
    apply list_elem_of_lookup in Hc as [i Hi].
    destruct (Forall2_lookup_l _ _ _ _ _ Hg Hi) as (a & _ & ->). reflexivity. }
  split; [lia | exact Hfin].
Qed.

Lemma io_bench_asyncio_restores_semaphore_witness :
  Aio.sem_value
    (snd (Aio.io_bench_asyncio 1 3 8000 ["x"%byte]
            [(0%nat, Ok []); (0%nat, Ok []); (0%nat, Ok []);
             (0%nat, Ok ["x"%byte]); (0%nat, Ok [])])) = 3
  /\ Gate.in_flight_count
       (Aio.tasks
          (snd (Aio.io_bench_asyncio 1 3 8000 ["x"%byte]
                  [(0%nat, Ok []); (0%nat, Ok []); (0%nat, Ok []);
                   (0%nat, Ok ["x"%byte]); (0%nat, Ok [])]))) = 0.
Proof.
  apply (io_bench_asyncio_restores_semaphore 1 3 8000 ["x"%byte]
           [(0%nat, Ok []); (0%nat, Ok []); (0%nat, Ok []);
            (0%nat, Ok ["x"%byte]); (0%nat, Ok [])]).
  reflexivity.
Defined.
